(** * TaskManager.js: a priority queue for scheduling tasks

    A shallow embedding of [src/TaskManager.js] (classes [TMTask] and
    [TaskManager]) together with the properties of its queue discipline.

    Modelling choices, all taken from the JavaScript source:

    - JavaScript objects live in a heap ([list TMTask], addressed by index);
      the [next] links of the queue are addresses into that heap, so that the
      aliasing between [queue.head], [pointer] and [this] is the source's.
    - A property that may be [undefined] is an [option]; [enqueueTask] writes
      its defaults into [params] before it builds a [TMTask], so on a
      [TMTask] the fields [taskType], [id], [taskPriority] and [taskManager]
      are always defined and are plain fields (the back-reference
      [taskManager] is the one manager of the world and is left out).
    - Numbers are IEEE doubles in the source.  The numbers of the model
      (numeric ids, priorities, [length]) are integers ([Z]), as the
      specification has them ("priority: integer", "id: string or integer").
      Incrementing and printing an integer are exact in the safe range
      ([safe]: magnitude below 2^53) only, so the model computes with a
      number (the key of a numeric id, the demotion of a priority) only
      when it is safe, and is stuck otherwise.
    - The manager tracks ids as dynamic properties of itself,
      [this[id] = 1]; property keys are strings, so an id is tracked under
      [key id].  The model keeps the keys tracked that way in a set of their
      own ([tracked]) beside the manager's named fields.  That is what the
      code does as long as no id names a member of the manager object
      ([member_name]: an own field such as [length] or [queue], a method
      such as [skip], a member every object inherits): for such an id
      [this[id]] reads, overwrites or deletes the member.  The model does
      not follow the code there: an operation that would write or delete a
      member through an id is stuck.
    - [this.on] / [this.emit] come from the platform; [emit] is taken to run
      the listener synchronously, the manager's own [ready] listener being
      the only one registered.
    - A work function either returns (a plain value or a promise) or raises
      synchronously.  [Promise.resolve(...)] always settles asynchronously:
      [execute] registers a pending promise, and the environment later
      settles it ([settle]).
    - Call-outs that other code can observe (diagnostics of tracer.js, the
      invocation of a work function, the two events) are appended to a
      trace; [Exec] and [Complete] carry the manager as the callee finds it
      at that moment (the work function gets at it through the task, the
      listener of [complete] holds it). *)

From stdpp Require Import gmap strings list pretty sorting.
From Stdlib Require Import ZArith Lia Ascii.

(** ** Data model *)

Abbreviation addr := nat.

(** [id]: a string or a number. *)
Inductive Id :=
| IdNum (n : Z)
| IdStr (s : string).

(** JavaScript truthiness of [params.id]. *)
Definition truthy_id (i : option Id) : bool :=
  match i with
  | None => false
  | Some (IdNum n) => negb (n =? 0)%Z
  | Some (IdStr s) => negb (String.eqb s "")
  end.

(** The integers on which the arithmetic of doubles is exact
    ([Number.isSafeInteger]). *)
Definition safe (n : Z) : bool :=
  (- (2 ^ 53 - 1) <=? n)%Z && (n <=? 2 ^ 53 - 1)%Z.

(** The property key under which [this[id]] is stored: the id itself when
    it is a string, its decimal notation when it is a safe integer (a number
    of larger magnitude is printed rounded or in exponent notation, which
    [pretty] does not give). *)
Definition key (i : Id) : string :=
  match i with
  | IdNum n => pretty n
  | IdStr s => s
  end.

(** An id whose key the model knows. *)
Definition safe_id (i : Id) : bool :=
  match i with
  | IdNum n => safe n
  | IdStr _ => true
  end.

(** The names under which the manager object has a member: the fields that
    the constructor assigns, the methods of the class, the event methods
    that the platform gives every object (with the names under which
    platforms store the listeners), and the members of [Object.prototype].
    A platform that defines more names on every object adds them here. *)
Definition member_names : list string :=
  [ "tmName"; "queue"; "length"; "defaultTaskFunc";
    "constructor"; "skip"; "enqueueTask";
    "on"; "emit"; "once"; "off"; "addListener"; "prependListener";
    "removeListener"; "removeAllListeners"; "listeners"; "listenerCount";
    "eventNames"; "#onready"; "#oncomplete";
    "_events"; "_eventsCount"; "_maxListeners";
    "__proto__"; "__defineGetter__"; "__defineSetter__"; "__lookupGetter__";
    "__lookupSetter__"; "hasOwnProperty"; "isPrototypeOf";
    "propertyIsEnumerable"; "toLocaleString"; "toString"; "valueOf";
    "clone" ].

Definition member_name (k : string) : bool := bool_decide (k ∈ member_names).

(** An id that is tracked under a key of its own: the key is known and
    names no member of the manager. *)
Definition own_key (i : Id) : bool := safe_id i && negb (member_name (key i)).

(** A plain id: truthy, as every id is once [enqueueTask] has settled it,
    and tracked under a key of its own. *)
Definition plain_id (i : Id) : bool := truthy_id (Some i) && own_key i.

(** What calling a work function does synchronously. *)
Inductive TaskFunc :=
| Returns
| Raises.

(** [TMTaskParams], as a caller may leave it: every field is optional. *)
Record TMTaskParams := mkParams {
  p_taskType : option string;
  p_id : option Id;
  p_data : Z;
  p_taskPriority : option Z;
  p_taskFunc : option TaskFunc;
  p_debug_task : bool;
  p_retry : bool
}.

(** A [TMTask], and equally a parameter object after [enqueueTask] has
    written its defaults into it. *)
Record TMTask := mkTask {
  taskType : string;
  id : Id;
  data : Z;
  taskPriority : Z;
  taskFunc : option TaskFunc;
  debug_task : bool;
  retry : bool;
  next : option addr
}.

Record TaskManager := mkTM {
  tmName : string;
  defaultTaskFunc : option TaskFunc;
  debug_tasks : bool;
  queue_head : option addr;
  queue_tail : option addr;
  tm_length : Z;
  tracked : gset string
}.

(** The result of one [execute()], not yet settled: the task whose [ready]
    it reports, and whether the retry handler was attached
    ([this.retry && this.taskManager] at the time of [execute]). *)
Record Promise := mkPromise {
  pr_task : addr;
  pr_retry : bool
}.

Inductive Level := LOG | INFO | DEBUG | WARN | ERROR.

Inductive Event :=
| Diag (l : Level)
| Exec (task : addr) (m : TaskManager)
| Ready (task : addr)
| Complete (m : TaskManager).

Record World := mkWorld {
  heap : list TMTask;
  this : TaskManager;
  promises : list Promise;
  trace : list Event
}.

(** An operation returns normally, or raises (the world as it is when the
    exception leaves the scheduler's code), or is stuck.  Stuck means that
    the model has no answer: the loop of [enqueueTask] does not end; an
    address outside the heap is used (no object is ever freed, so the code
    never does that); or the code computes with a number outside the safe
    range or reaches a member of the manager through an id (see [safe] and
    [member_name]). *)
Inductive Result :=
| Ok (w : World)
| Throw (w : World)
| Stuck.

Definition bind (r : Result) (k : World → Result) : Result :=
  match r with
  | Ok w => k w
  | Throw w => Throw w
  | Stuck => Stuck
  end.

Notation "'do' w <- r ; k" := (bind r (fun w => k))
  (at level 10, w name, r at level 100, k at level 200).

(** ** Field updates *)

Definition set_next (n : option addr) (t : TMTask) : TMTask :=
  mkTask (taskType t) (id t) (data t) (taskPriority t) (taskFunc t)
         (debug_task t) (retry t) n.

Definition set_taskPriority (p : Z) (t : TMTask) : TMTask :=
  mkTask (taskType t) (id t) (data t) p (taskFunc t)
         (debug_task t) (retry t) (next t).

Definition set_head (h : option addr) (m : TaskManager) : TaskManager :=
  mkTM (tmName m) (defaultTaskFunc m) (debug_tasks m) h (queue_tail m)
       (tm_length m) (tracked m).

Definition set_tail (t : option addr) (m : TaskManager) : TaskManager :=
  mkTM (tmName m) (defaultTaskFunc m) (debug_tasks m) (queue_head m) t
       (tm_length m) (tracked m).

Definition set_length (n : Z) (m : TaskManager) : TaskManager :=
  mkTM (tmName m) (defaultTaskFunc m) (debug_tasks m) (queue_head m)
       (queue_tail m) n (tracked m).

Definition set_tracked (s : gset string) (m : TaskManager) : TaskManager :=
  mkTM (tmName m) (defaultTaskFunc m) (debug_tasks m) (queue_head m)
       (queue_tail m) (tm_length m) s.

Definition with_this (f : TaskManager → TaskManager) (w : World) : World :=
  mkWorld (heap w) (f (this w)) (promises w) (trace w).

Definition with_heap (f : list TMTask → list TMTask) (w : World) : World :=
  mkWorld (f (heap w)) (this w) (promises w) (trace w).

Definition emit_event (e : Event) (w : World) : World :=
  mkWorld (heap w) (this w) (promises w) (trace w ++ [e]).

Definition add_promise (p : Promise) (w : World) : World :=
  mkWorld (heap w) (this w) (promises w ++ [p]) (trace w).

(** tracer.js: one line on the console and the loopback port. *)
Definition diag (l : Level) (w : World) : World := emit_event (Diag l) w.

(** [new] allocates at the next free address. *)
Definition alloc (t : TMTask) (w : World) : World := with_heap (λ hp, hp ++ [t]) w.

(** [a.next || null]. *)
Definition next_of (hp : list TMTask) (a : addr) : option addr :=
  match hp !! a with
  | Some t => next t
  | None => None
  end.

(** ** class TMTask *)

(** [constructor(params)]: [this.taskPriority = 5; Object.assign(this, params)].
    [params] has its [taskPriority] by then, so the 5 is overwritten and the
    new object is a copy of [params], own property [next] included. *)
Definition new_TMTask (params : TMTask) : TMTask := params.

(** [execute()]: a debug line, the call of [this.taskFunc(this.data)], and
    the two handlers on its result.  A missing [taskFunc] is a TypeError at
    the call; nothing here catches it. *)
Definition execute (a : addr) (w : World) : Result :=
  match heap w !! a with
  | None => Stuck
  | Some t =>
      let w := diag DEBUG w in
      match taskFunc t with
      | None => Throw w
      | Some f =>
          let w := emit_event (Exec a (this w)) w in
          match f with
          | Raises => Throw w
          | Returns => Ok (add_promise (mkPromise a (retry t)) w)
          end
      end
  end.

(** ** class TaskManager *)

(** [constructor(params)]. *)
Definition new_TaskManager (name : option string) (dflt : option TaskFunc)
    (debug : bool) : TaskManager :=
  mkTM (match name with
        | Some s => if String.eqb s "" then "TaskManager" else s
        | None => "TaskManager"
        end) dflt debug None None 0 ∅.

Definition init (name : option string) (dflt : option TaskFunc) (debug : bool) : World :=
  mkWorld [] (new_TaskManager name dflt debug) [] [].

(** The listener installed by [this.on('ready', (task) => ...)].
    [delete this[task.id]] removes the key of the id from the tracked keys;
    under an id that names a member of the manager it would delete that
    member.  [if (params.debug_tasks) console.log(task)] prints the task
    on the console, past tracer.js; the trace does not record it. *)
Definition on_ready (task : addr) (w : World) : Result :=
  match heap w !! task with
  | None => Stuck
  | Some t =>
      let w := diag INFO w in
      if negb (own_key (id t)) then Stuck else
      let w := with_this (λ m, set_tracked (tracked m ∖ {[ key (id t) ]}) m) w in
      let w := with_this (set_head (next t)) w in
      do w <- match queue_head (this w) with
              | Some h => execute h (diag INFO w)
              | None =>
                  let w := with_this (λ m, set_tail (queue_head m) m) w in
                  let w := diag INFO w in
                  Ok (emit_event (Complete (this w)) w)
              end;
      Ok (with_this (λ m, set_length (tm_length m - 1) m) w)
  end.

(** [this.emit('ready', task)]. *)
Definition emit_ready (task : addr) (w : World) : Result :=
  on_ready task (emit_event (Ready task) w).

(** [skip()]; with [head] null, [head.taskType] is a TypeError. *)
Definition skip (w : World) : Result :=
  if (0 <? tm_length (this w))%Z then
    match queue_head (this w) with
    | None => Throw w
    | Some head => emit_ready head (diag WARN w)
    end
  else Ok (diag ERROR w).

(** [params] after the first lines of [enqueueTask] have written the
    defaults into it; [now] is what [Date.now()] returns, [dflt] is
    [this.defaultTaskFunc], and [nxt] is the own property [next] of the
    object: a [TMTaskParams] has none, a [TMTask] passed as [params] has
    its link. *)
Definition normalize (now : Z) (dflt : option TaskFunc) (nxt : option addr)
    (params : TMTaskParams) : TMTask :=
  mkTask
    (match p_taskType params with
     | None => "AppTask"
     | Some s => s
     end)
    (match p_id params with
     | Some i => if truthy_id (Some i) then i else IdNum now
     | None => IdNum now
     end)
    (p_data params)
    (match p_taskPriority params with
     | None => 5%Z
     | Some p => p
     end)
    (match p_taskFunc params with
     | None => dflt
     | Some f => Some f
     end)
    (p_debug_task params)
    (p_retry params)
    nxt.

(** The [TMTaskParams] fields of a [TMTask]. *)
Definition params_of (t : TMTask) : TMTaskParams :=
  mkParams (Some (taskType t)) (Some (id t)) (data t) (Some (taskPriority t))
           (taskFunc t) (debug_task t) (retry t).

(** The [while] loop of [enqueueTask]; [fuel] bounds the number of links
    followed ([None] when it runs out). *)
Fixpoint walk (fuel : nat) (hp : list TMTask) (pointer : addr) (prio : Z)
    : option addr :=
  match fuel with
  | O => None
  | S fuel' =>
      match next_of hp pointer with
      | None => Some pointer
      | Some n =>
          match hp !! n with
          | None => None
          | Some tn =>
              if (taskPriority tn <=? prio)%Z
              then walk fuel' hp n prio
              else Some pointer
          end
      end
  end.

(** The two branches under [if (!this[params.id] || allowDuplicate)], up to
    [this.length++]. *)
Definition link_task (params : TMTask) (w : World) : Result :=
  match queue_head (this w) with
  | None =>
      let w := diag LOG w in
      let a := length (heap w) in
      let w := alloc (new_TMTask params) w in
      let w := with_this (set_head (Some a)) w in
      let w := with_this (λ m, set_tail (queue_head m) m) w in
      execute a w
  | Some head =>
      let w := diag LOG w in
      match walk (length (heap w)) (heap w) head (taskPriority params) with
      | None => Stuck
      | Some pointer =>
          let nxt := next_of (heap w) pointer in
          let a := length (heap w) in
          let w := alloc (set_next nxt (new_TMTask params)) w in
          let w := with_heap (alter (set_next (Some a)) pointer) w in
          Ok (match nxt with
              | None => with_this (set_tail (Some a)) w
              | Some _ => w
              end)
      end
  end.

(** [enqueueTask] from [if (params.debug_task)] on.  [this[params.id]] is
    the own property that an earlier call has set to 1 when the key is
    tracked; the submission is then a duplicate.  Otherwise the code
    assigns [this[params.id] = 1], which tracks the key, unless the key
    names a member of the manager: the test has then read that member, and
    the assignment would overwrite or shadow it. *)
Definition enqueue_normalized (params : TMTask) (allowDuplicate : bool) (w : World)
    : Result :=
  if negb (safe_id (id params)) then Stuck else
  let w := if debug_task params then diag DEBUG w else w in
  let w := diag LOG w in
  if negb (bool_decide (key (id params) ∈ tracked (this w))) || allowDuplicate then
    if member_name (key (id params)) then Stuck else
    let w := with_this (λ m, set_tracked ({[ key (id params) ]} ∪ tracked m) m) w in
    do w <- link_task params w;
    let w := with_this (λ m, set_length (tm_length m + 1) m) w in
    Ok (if (10 <? tm_length (this w))%Z then diag WARN w else w)
  else Ok (diag WARN w).

(** [enqueueTask(params, allowDuplicate)] on a parameter object of the
    caller. *)
Definition enqueueTask (now : Z) (params : TMTaskParams) (allowDuplicate : bool)
    (w : World) : Result :=
  enqueue_normalized (normalize now (defaultTaskFunc (this w)) None params)
                     allowDuplicate w.

(** [this.taskManager.enqueueTask(this, true)]: [params] is the task at
    address [a] itself, so the defaults are written into that task. *)
Definition enqueueTask_self (now : Z) (a : addr) (w : World) : Result :=
  match heap w !! a with
  | None => Stuck
  | Some t =>
      let params := normalize now (defaultTaskFunc (this w)) (next t) (params_of t) in
      enqueue_normalized params true (with_heap (λ hp, <[a := params]> hp) w)
  end.

(** [if (this.taskPriority < 5) this.taskPriority++] on an integer
    priority: the new value, when the old one is a safe integer. *)
Definition demote (p : Z) : option Z :=
  if safe p then Some (if (p <? 5)%Z then (p + 1)%Z else p) else None.

(** The same statement on the task at address [a]. *)
Definition demote_task (a : addr) (w : World) : Result :=
  match heap w !! a with
  | None => Stuck
  | Some t =>
      match demote (taskPriority t) with
      | None => Stuck
      | Some p => Ok (with_heap (λ hp, <[a := set_taskPriority p t]> hp) w)
      end
  end.

(** The handler of [result.catch(e => ...)] in [execute]. *)
Definition retry_handler (now : Z) (a : addr) (w : World) : Result :=
  let w := diag ERROR w in
  do w <- demote_task a w;
  do w <- enqueueTask_self now a w;
  skip w.

(** The environment settles the [i]-th pending promise: fulfilled ([ok]) or
    rejected.  [result.then(() => emit('ready', this))] runs on fulfilment
    only; the retry handler, when attached, on rejection only.  Both run as
    callbacks of the promise, not under a caller of the scheduler: when one
    of them raises ([Throw]), the exception rejects the promise that
    [then] or [catch] returned, to which the source attaches no handler, so
    no code of the program receives it. *)
Definition settle (now : Z) (i : nat) (ok : bool) (w : World) : Result :=
  match promises w !! i with
  | None => Ok w
  | Some p =>
      let w := mkWorld (heap w) (this w) (delete i (promises w)) (trace w) in
      if ok then emit_ready (pr_task p) w
      else if pr_retry p then retry_handler now (pr_task p) w
      else Ok w
  end.

(** What callers and the environment do to a manager. *)
Inductive Action :=
| Enqueue (now : Z) (params : TMTaskParams) (allowDuplicate : bool)
| Skip
| Settle (now : Z) (i : nat) (ok : bool).

Definition step (act : Action) (w : World) : Result :=
  match act with
  | Enqueue now params allowDuplicate => enqueueTask now params allowDuplicate w
  | Skip => skip w
  | Settle now i ok => settle now i ok w
  end.

Fixpoint run (acts : list Action) (w : World) : Result :=
  match acts with
  | [] => Ok w
  | act :: acts' => do w <- step act w; run acts' w
  end.

(** A parameter object as a caller writes it:
    [{id, taskPriority, taskFunc, retry}]. *)
Definition task (i : string) (prio : Z) (f : option TaskFunc) (r : bool) : TMTaskParams :=
  mkParams None (Some (IdStr i)) 0 (Some prio) f false r.

(** ** The queue as a list of addresses *)

(** [is_seg hp o l o']: following [next] from [o] visits exactly the
    addresses [l], all allocated, and then reaches [o']. *)
Fixpoint is_seg (hp : list TMTask) (o : option addr) (l : list addr)
    (o' : option addr) : Prop :=
  match l with
  | [] => o = o'
  | a :: l' => o = Some a ∧ a < length hp ∧ is_seg hp (next_of hp a) l' o'
  end.

(** A chain ends in null. *)
Definition is_chain (hp : list TMTask) (o : option addr) (l : list addr) : Prop :=
  is_seg hp o l None.

(** The manager's three queue fields describe the chain [l]. *)
Definition chain_of (w : World) (l : list addr) : Prop :=
  is_chain (heap w) (queue_head (this w)) l
  ∧ queue_tail (this w) = last l
  ∧ tm_length (this w) = Z.of_nat (length l).

(** The priority of the task at an address (chain nodes are allocated). *)
Definition priority (hp : list TMTask) (a : addr) : Z :=
  match hp !! a with
  | Some t => taskPriority t
  | None => 0%Z
  end.

(** The task at [a] has a work function, and calling it returns. *)
Definition runnable (hp : list TMTask) (a : addr) : Prop :=
  ∃ t, hp !! a = Some t ∧ taskFunc t = Some Returns.

(** Earlier in the waiting order: smaller priority value, or the same
    priority and allocated (that is, submitted) earlier. *)
Definition before (hp : list TMTask) (a b : addr) : Prop :=
  (priority hp a < priority hp b)%Z
  ∨ (priority hp a = priority hp b ∧ a < b).

(** The waiting tasks are in priority order. *)
Definition waiting_sorted (hp : list TMTask) (ws : list addr) : Prop :=
  StronglySorted (λ a b, (priority hp a <= priority hp b)%Z) ws.

(** [hp'] has every task of [hp], changed at most in its [next] link. *)
Definition frame (hp hp' : list TMTask) : Prop :=
  ∀ a t, hp !! a = Some t → ∃ t', hp' !! a = Some t' ∧ t' = set_next (next t') t.

(** [this.retry] of the task at an address. *)
Definition retry_of (hp : list TMTask) (a : addr) : bool :=
  match hp !! a with
  | Some t => retry t
  | None => false
  end.

(** The one pending result of a consistent queue: that of its head. *)
Definition pending_of (hp : list TMTask) (l : list addr) : list Promise :=
  match l with
  | [] => []
  | a :: _ => [mkPromise a (retry_of hp a)]
  end.

(** The manager once the [ready] listener, run for the task [t], has
    removed the id and moved head (lines 128 and 130): [length] is not yet
    decremented. *)
Definition released (t : TMTask) (m : TaskManager) : TaskManager :=
  set_head (next t) (set_tracked (tracked m ∖ {[ key (id t) ]}) m).

(** What the [ready] listener writes to the trace after the event itself:
    [m] is the manager when the listener has moved head, [l] the chain that
    is left. *)
Definition advance_events (m : TaskManager) (l : list addr) : list Event :=
  match l with
  | [] => [Diag INFO; Diag INFO; Complete (set_tail None m)]
  | b :: _ => [Diag INFO; Diag INFO; Diag DEBUG; Exec b m]
  end.

(** The tasks reported by the [ready] events of a trace, in order. *)
Fixpoint completions (tr : list Event) : list addr :=
  match tr with
  | [] => []
  | Ready a :: tr' => a :: completions tr'
  | _ :: tr' => completions tr'
  end.

(** The events of a trace that listeners receive. *)
Definition is_signal (e : Event) : bool :=
  match e with
  | Ready _ | Complete _ => true
  | _ => false
  end.

(** The [ready] and [complete] events of a trace. *)
Definition signals (tr : list Event) : list Event :=
  filter (λ e, is_signal e = true) tr.

(** The key under which a submission is tracked. *)
Definition key_of (now : Z) (params : TMTaskParams) : string :=
  key (id (normalize now None None params)).

(** The priority a submission gets. *)
Definition priority_of (params : TMTaskParams) : Z :=
  taskPriority (normalize 0 None None params).

(** A submission that has a work function of its own or by default, and
    calling it returns. *)
Definition returns (dflt : option TaskFunc) (params : TMTaskParams) : Prop :=
  taskFunc (normalize 0 dflt None params) = Some Returns.

(** Submissions without the bypass flag, each with its [Date.now()]. *)
Definition submit (subs : list (Z * TMTaskParams)) : list Action :=
  map (λ s, Enqueue s.1 s.2 false) subs.

(** [n] times: the pending result of the head is fulfilled. *)
Definition drain (n : nat) : list Action := replicate n (Settle 0 0 true).

(** A fresh manager without a default work function. *)
Definition idle : World := init None None false.


(** ** Concrete runs *)

(** Whether an operation returned normally. *)
Definition is_ok (r : Result) : bool :=
  match r with
  | Ok _ => true
  | _ => false
  end.

(** The world a run of actions leaves behind. *)
Definition world_of (r : Result) : World :=
  match r with
  | Ok w => w
  | Throw w => w
  | Stuck => idle
  end.

(** [A] is submitted and starts; [B] and [C] arrive while it is pending. *)
Definition taskA : TMTaskParams := task "A" 5 (Some Returns) false.
Definition taskB : TMTaskParams := task "B" 1 (Some Returns) false.
Definition taskC : TMTaskParams := task "C" 5 (Some Returns) false.

Definition world_A : World := world_of (run [Enqueue 1 taskA false] idle).

Definition world_AB : World :=
  world_of (run [Enqueue 1 taskA false; Enqueue 2 taskB false] idle).

(** A task that asks to be retried, and a plain one behind it. *)
Definition taskR : TMTaskParams := task "R" 3 (Some Returns) true.
Definition taskN : TMTaskParams := task "N" 4 (Some Returns) false.

Definition world_RN : World :=
  world_of (run [Enqueue 1 taskR false; Enqueue 2 taskN false] idle).

(** A task without a work function, for a manager without a default. *)
Definition taskM : TMTaskParams := task "M" 5 None false.

(** ** Worlds and submissions that the model covers *)

(** The id of a submission, as [enqueueTask] settles it. *)
Definition id_of (now : Z) (params : TMTaskParams) : Id :=
  id (normalize now None None params).

(** No key that the manager tracks names one of its members, and every task
    has a plain id: the world stands for a manager object whose members are
    what the constructor and the class made them. *)
Definition plain (w : World) : Prop :=
  set_Forall (λ k, member_name k = false) (tracked (this w))
  ∧ Forall (λ t, plain_id (id t) = true) (heap w).

(** A submission with a plain id; [skip()] and the settling of a result
    bring no id with them. *)
Definition plain_action (act : Action) : Prop :=
  match act with
  | Enqueue now params _ => plain_id (id_of now params) = true
  | _ => True
  end.

(** The priority after [n] retries. *)
Fixpoint demote_n (n : nat) (p : Z) : option Z :=
  match n with
  | O => Some p
  | S n' => demote_n n' p ≫= demote
  end.

(** ** Submissions and completions *)



(** ** Runs without [skip()] *)

(** What no operation assigns to: the constructor's settings. *)
Definition config (m : TaskManager) : string * option TaskFunc * bool :=
  (tmName m, defaultTaskFunc m, debug_tasks m).

(** Every priority in the heap is a safe integer. *)
Definition safe_priorities (w : World) : Prop :=
  Forall (λ t, safe (taskPriority t) = true) (heap w).

(** An action of a run in which nobody calls [skip()] and every submitted
    task has a plain id, a safe integer for its priority and a work
    function that returns. *)
Definition quiet (dflt : option TaskFunc) (act : Action) : Prop :=
  match act with
  | Enqueue now params _ =>
      returns dflt params
      ∧ plain_id (id_of now params) = true
      ∧ safe (priority_of params) = true
  | Skip => False
  | Settle _ _ _ => True
  end.

(** The queue is in order: the three queue fields describe the chain [l];
    the only result that can be pending is the head's; every linked task can
    be dispatched; the waiting tasks are sorted by priority. *)
Definition consistent (w : World) (l : list addr) : Prop :=
  chain_of w l
  ∧ (promises w = pending_of (heap w) l ∨ promises w = [])
  ∧ Forall (runnable (heap w)) l
  ∧ waiting_sorted (heap w) (tail l).

(** A submission that leaves out [id], [taskType] and [taskPriority]. *)
Definition anonymous (f : option TaskFunc) : TMTaskParams :=
  mkParams None None 0 None f false false.

(** An action other than the rejection of a pending result. *)
Definition no_rejection (act : Action) : Prop :=
  match act with
  | Settle _ _ false => False
  | _ => True
  end.

(** A task that asks to be retried, alone in the queue. *)
Definition world_R : World := world_of (run [Enqueue 1 taskR false] idle).

(** A task whose work function raises when it is called. *)
Definition taskT : TMTaskParams := task "T" 5 (Some Raises) false.



(** [A] is running; [M], which has no work function, waits behind it. *)
Definition world_AM : World :=
  world_of (run [Enqueue 1 taskA false; Enqueue 2 taskM false] idle).

(** * server.js: the router

    [ServerRouter.__splitPath], [ServerRouter.__routeComp] and the route
    handler built by [ServerRouter.__createRoute].  A path is a [string]; the
    own properties of the [params] object, a plain object that starts empty,
    are a [gmap string string]; [false] and [undefined] results are [None]. *)

(** [s.split('/')]. *)
Fixpoint split_slash (s : string) : list string :=
  match s with
  | EmptyString => [EmptyString]
  | String c s' =>
      if Ascii.eqb c "/"%char
      then EmptyString :: split_slash s'
      else match split_slash s' with
           | x :: xs => String c x :: xs
           | [] => [String c EmptyString]
           end
  end.

(** [__splitPath(path)]: [path.split('/').filter(x => x)]. *)
Definition splitPath (path : string) : list string :=
  filter (λ x, x ≠ EmptyString) (split_slash path).

(** [seg[0] === ':']. *)
Definition is_param (seg : string) : bool :=
  match seg with
  | String c _ => Ascii.eqb c ":"%char
  | EmptyString => false
  end.

(** [seg.slice(1)]. *)
Definition slice1 (seg : string) : string :=
  match seg with
  | String _ s => s
  | EmptyString => EmptyString
  end.

(** [params[name] = value] on the plain object [params]: an own property is
    written, except under the name [__proto__], where the assignment goes to
    the accessor that every plain object inherits; that accessor ignores a
    value that is a string, so nothing is stored. *)
Definition set_param (name value : string) (params : gmap string string)
    : gmap string string :=
  if decide (name = "__proto__") then params else <[name := value]> params.

(** The [for] loop of [__routeComp], from some index on: [routeSplit] and
    [pathSplit] are what is left of the two arrays.  ([pathSplit] does not
    run out first: the lengths have been compared.) *)
Fixpoint routeComp_from (routeSplit pathSplit : list string)
    (params : gmap string string) : option (gmap string string) :=
  match routeSplit, pathSplit with
  | [], _ => Some params
  | r :: routeSplit', p :: pathSplit' =>
      if is_param r
      then routeComp_from routeSplit' pathSplit' (set_param (slice1 r) p params)
      else if decide (r = p)
           then routeComp_from routeSplit' pathSplit' params
           else None
  | _ :: _, [] => None
  end.

(** [__routeComp(routeSplit, pathSplit)]: [false] or the [params] object. *)
Definition routeComp (routeSplit pathSplit : list string)
    : option (gmap string string) :=
  if decide (length routeSplit = length pathSplit)
  then routeComp_from routeSplit pathSplit ∅
  else None.

(** What a route handler reads and writes of the request context. *)
Record RequestContext := mkCtx {
  ctx_method : string;
  ctx_path : string;
  ctx_params : option (gmap string string)
}.

(** [routeHandler(ctx)] of [__createRoute(method, route, func)]: [None] is
    the [undefined] it returns when it does not call [func]. *)
Definition routeHandler {R : Type} (method route : string)
    (func : RequestContext → option R) (ctx : RequestContext) : option R :=
  if decide (ctx_method ctx = method) then
    match routeComp (splitPath route) (splitPath (ctx_path ctx)) with
    | Some params => func (mkCtx (ctx_method ctx) (ctx_path ctx) (Some params))
    | None => None
    end
  else None.

(** [__createRoute(method, route, func)]: it throws ([None]) on an empty
    [method] or [route]; [func] is a function. *)
Definition createRoute {R : Type} (method route : string)
    (func : RequestContext → option R) : option (RequestContext → option R) :=
  if decide (method = EmptyString ∨ route = EmptyString)
  then None
  else Some (routeHandler method route func).

(** [ServerRouter.get], [put], [post], [del]. *)
Definition ServerRouter_get {R : Type} := @createRoute R "GET".
Definition ServerRouter_put {R : Type} := @createRoute R "PUT".
Definition ServerRouter_post {R : Type} := @createRoute R "POST".
Definition ServerRouter_del {R : Type} := @createRoute R "DELETE".

(** A string has a slash in it. *)
Fixpoint has_slash (s : string) : bool :=
  match s with
  | EmptyString => false
  | String c s' => Ascii.eqb c "/"%char || has_slash s'
  end.

(** A segment of a route matches a segment of a path: it is a parameter, or
    the two are the same string. *)
Definition seg_matches (r p : string) : Prop := is_param r = true ∨ r = p.

(** The path segment at the last position where the route has [:name];
    there is none for the name [__proto__]. *)
Fixpoint last_binding (name : string) (routeSplit pathSplit : list string)
    : option string :=
  match routeSplit, pathSplit with
  | r :: routeSplit', p :: pathSplit' =>
      match last_binding name routeSplit' pathSplit' with
      | Some v => Some v
      | None =>
          if is_param r && bool_decide (slice1 r = name)
             && negb (bool_decide (name = "__proto__"))
          then Some p else None
      end
  | _, _ => None
  end.
(** ** Basic facts *)

Lemma bind_Ok r k w' :
  bind r k = Ok w' → ∃ w1, r = Ok w1 ∧ k w1 = Ok w'.
Proof. destruct r; simpl; intros; eauto; discriminate. Qed.

Lemma run_app acts1 acts2 w :
  run (acts1 ++ acts2) w = bind (run acts1 w) (run acts2).
Proof.
  revert w. induction acts1 as [|act acts1 IH]; intros w; simpl; [done|].
  destruct (step act w); simpl; auto.
Qed.

Lemma key_of_normalize now dflt nxt params :
  key (id (normalize now dflt nxt params)) = key_of now params.
Proof. reflexivity. Qed.

Lemma id_of_normalize now dflt nxt params :
  id (normalize now dflt nxt params) = id_of now params.
Proof. reflexivity. Qed.

Lemma key_id_of now params : key (id_of now params) = key_of now params.
Proof. reflexivity. Qed.

Lemma priority_of_normalize now dflt nxt params :
  taskPriority (normalize now dflt nxt params) = priority_of params.
Proof. reflexivity. Qed.

Lemma ok_world r : is_ok r = true → r = Ok (world_of r).
Proof. by destruct r. Qed.

(** ** The ready listener, step by step *)

Lemma execute_runnable a w :
  runnable (heap w) a →
  ∃ t, heap w !! a = Some t
     ∧ execute a w
       = Ok (add_promise (mkPromise a (retry t))
               (emit_event (Exec a (this w)) (diag DEBUG w))).
Proof.
  intros (t & Ht & Hf). exists t. split; [done|].
  unfold execute. rewrite Ht. simpl. rewrite Hf. reflexivity.
Qed.

Lemma execute_missing a t w :
  heap w !! a = Some t → taskFunc t = None →
  execute a w = Throw (diag DEBUG w).
Proof. intros Ht Hf. unfold execute. rewrite Ht. simpl. by rewrite Hf. Qed.

Lemma on_ready_last task t w :
  heap w !! task = Some t → plain_id (id t) = true → next t = None →
  on_ready task w
  = Ok (mkWorld (heap w)
          (mkTM (tmName (this w)) (defaultTaskFunc (this w)) (debug_tasks (this w))
                None None (tm_length (this w) - 1)
                (tracked (this w) ∖ {[ key (id t) ]}))
          (promises w)
          (trace w ++ [Diag INFO; Diag INFO;
                       Complete (set_tail None (released t (this w)))])).
Proof.
  intros Ht Hp Hn. unfold on_ready. rewrite Ht. simpl.
  apply andb_true_iff in Hp as (_ & ->). simpl.
  rewrite Hn. simpl.
  unfold with_this, emit_event, set_length, set_tail, released, set_head,
    set_tracked, diag, emit_event. simpl.
  rewrite Hn. by rewrite <- !app_assoc.
Qed.

Lemma on_ready_next task t h th w :
  heap w !! task = Some t → plain_id (id t) = true → next t = Some h →
  heap w !! h = Some th → taskFunc th = Some Returns →
  on_ready task w
  = Ok (mkWorld (heap w)
          (mkTM (tmName (this w)) (defaultTaskFunc (this w)) (debug_tasks (this w))
                (Some h) (queue_tail (this w)) (tm_length (this w) - 1)
                (tracked (this w) ∖ {[ key (id t) ]}))
          (promises w ++ [mkPromise h (retry th)])
          (trace w ++ [Diag INFO; Diag INFO; Diag DEBUG;
                       Exec h (released t (this w))])).
Proof.
  intros Ht Hp Hn Hh Hf. unfold on_ready. rewrite Ht. simpl.
  apply andb_true_iff in Hp as (_ & ->). simpl.
  rewrite Hn. simpl.
  unfold execute. simpl. rewrite Hh. simpl. rewrite Hf. simpl.
  unfold with_this, add_promise, emit_event, set_length, released, set_head,
    set_tracked. simpl.
  rewrite Hn. by rewrite <- !app_assoc.
Qed.

(** ** Claims settled by one operation *)




Lemma enqueue_dropped now params w :
  safe_id (id_of now params) = true →
  key_of now params ∈ tracked (this w) →
  enqueueTask now params false w
  = Ok (diag WARN (diag LOG (if p_debug_task params then diag DEBUG w else w))).
Proof.
  intros Hsafe Hin. unfold enqueueTask, enqueue_normalized.
  rewrite id_of_normalize, Hsafe, key_id_of. simpl.
  destruct (p_debug_task params); simpl;
    (rewrite bool_decide_eq_true_2 by done); reflexivity.
Qed.

(** C6. A submission whose id is already tracked (under a key of its own:
    the id is a string that names no member of the manager, or a safe
    integer), without the bypass flag, is dropped: [enqueueTask] returns
    normally, the manager (head, tail, length, tracked ids), the heap and
    the pending results are unchanged, no event is emitted, and after the
    submission's usual log line the drop is reported at warning level, not
    as an error. *)
Theorem enqueue_duplicate_dropped (now : Z) (params : TMTaskParams) (w : World) :
  own_key (id_of now params) = true →
  key_of now params ∈ tracked (this w) →
  ∃ w', enqueueTask now params false w = Ok w'
      ∧ this w' = this w ∧ heap w' = heap w ∧ promises w' = promises w
      ∧ trace w' = trace w
                   ++ (if p_debug_task params then [Diag DEBUG] else [])
                   ++ [Diag LOG; Diag WARN].
Proof.
  intros (Hsafe & _)%andb_true_iff Hin. unfold enqueueTask, enqueue_normalized.
  rewrite id_of_normalize, Hsafe, key_id_of. simpl.
  destruct (p_debug_task params); simpl;
    (rewrite bool_decide_eq_true_2 by done); simpl;
    eexists; (split; [reflexivity|]); simpl; repeat split;
    by rewrite <- !app_assoc.
Qed.

Lemma enqueue_duplicate_dropped_witness :
  ∃ w', enqueueTask 2 taskA false world_A = Ok w'
      ∧ this w' = this world_A ∧ heap w' = heap world_A
      ∧ promises w' = promises world_A
      ∧ trace w' = trace world_A
                   ++ (if p_debug_task taskA then [Diag DEBUG] else [])
                   ++ [Diag LOG; Diag WARN].
Proof.
  apply (enqueue_duplicate_dropped 2 taskA world_A).
  - reflexivity.
  - apply (bool_decide_unpack _). vm_compute. exact I.
Defined.

(** ** Chains in the heap *)

Lemma next_of_alloc hp t a : a < length hp → next_of (hp ++ [t]) a = next_of hp a.
Proof. intros Ha. unfold next_of. by rewrite lookup_app_l. Qed.

Lemma next_of_alter_ne hp f q a : q ≠ a → next_of (alter f q hp) a = next_of hp a.
Proof. intros Hne. unfold next_of. by rewrite list_lookup_alter_ne. Qed.

Lemma next_of_alter_eq hp n q :
  q < length hp → next_of (alter (set_next n) q hp) q = n.
Proof.
  intros Hq. unfold next_of. rewrite list_lookup_alter_eq.
  destruct (lookup_lt_is_Some_2 hp q Hq) as [t Ht]. by rewrite Ht.
Qed.

Lemma is_seg_app hp l1 l2 o o' :
  is_seg hp o (l1 ++ l2) o' ↔ ∃ m, is_seg hp o l1 m ∧ is_seg hp m l2 o'.
Proof.
  revert o. induction l1 as [|a l1 IH]; intros o; simpl.
  - split; [intros H; eauto | intros (m & -> & H); done].
  - split.
    + intros (-> & Ha & H). apply IH in H as (m & H1 & H2). eauto.
    + intros (m & (-> & Ha & H1) & H2). repeat split; [done|]. apply IH. eauto.
Qed.

Lemma is_seg_allocated hp l o o' :
  is_seg hp o l o' → Forall (λ a, a < length hp) l.
Proof.
  revert o. induction l as [|a l IH]; intros o; simpl; [constructor|].
  intros (_ & Ha & Hl). constructor; eauto.
Qed.

Lemma is_seg_ext hp hp' l o o' :
  length hp ≤ length hp' →
  (∀ a, a ∈ l → next_of hp' a = next_of hp a) →
  is_seg hp o l o' → is_seg hp' o l o'.
Proof.
  intros Hlen. revert o. induction l as [|a l IH]; intros o Hext; simpl; [done|].
  intros (-> & Ha & Hl). split; [done|]. split; [lia|].
  rewrite Hext by left. apply IH; [|done].
  intros b Hb. apply Hext. by right.
Qed.

Lemma is_chain_functional hp l1 : ∀ l2 o,
  is_chain hp o l1 → is_chain hp o l2 → l1 = l2.
Proof.
  unfold is_chain. induction l1 as [|a l1 IH]; intros [|b l2] o; simpl; try done.
  - intros -> (? & _); done.
  - intros (-> & _) ?; done.
  - intros (-> & _ & H1) (Heq & _ & H2). simplify_eq. f_equal. eauto.
Qed.

Lemma is_chain_NoDup hp l o : is_chain hp o l → NoDup l.
Proof.
  unfold is_chain. revert o. induction l as [|a l IH]; intros o; simpl.
  - constructor.
  - intros (-> & Ha & Hl). constructor; [|eauto].
    intros Hin. apply list_elem_of_split in Hin as (l1 & l2 & ->).
    apply is_seg_app in Hl as Hl'. destruct Hl' as (m & _ & Hm).
    assert (is_seg hp (Some a) (a :: l1 ++ a :: l2) None) as Hwhole
      by (simpl; done).
    assert (m = Some a) as -> by (simpl in Hm; tauto).
    pose proof (is_chain_functional hp _ _ _ Hwhole Hm) as Heq.
    apply (f_equal length) in Heq. simpl in Heq. rewrite length_app in Heq.
    simpl in Heq. lia.
Qed.

Lemma is_chain_length_le hp l o : is_chain hp o l → length l ≤ length hp.
Proof.
  intros Hc. pose proof (is_chain_NoDup _ _ _ Hc) as Hnd.
  pose proof (is_seg_allocated _ _ _ _ Hc) as Hall.
  assert (l ⊆+ seq 0 (length hp)) as Hsub.
  { apply NoDup_submseteq; [done|]. intros a Ha.
    rewrite Forall_forall in Hall. apply elem_of_seq. specialize (Hall a Ha). lia. }
  apply submseteq_length in Hsub. by rewrite length_seq in Hsub.
Qed.

(** The loop of [enqueueTask] on a chain: it stops at the last waiting task
    of the longest prefix whose priorities are all [<= prio]. *)
Lemma walk_chain hp prio ws : ∀ h fuel,
  is_chain hp (Some h) (h :: ws) → length ws < fuel →
  ∃ ws1 ws2,
    ws = ws1 ++ ws2
    ∧ Forall (λ a, (priority hp a <= prio)%Z) ws1
    ∧ match ws2 with
      | [] => True
      | b :: _ => (prio < priority hp b)%Z
      end
    ∧ walk fuel hp h prio = Some (default h (last ws1)).
Proof.
  unfold is_chain. induction ws as [|b ws IH]; intros h fuel Hc Hfuel.
  - exists [], []. simpl in *. destruct Hc as (_ & _ & Hn).
    destruct fuel; [lia|]. cbn [walk]. rewrite Hn. done.
  - simpl in Hc. destruct Hc as (_ & Hh & Hn & Hb & Hws).
    destruct fuel as [|fuel]; [simpl in Hfuel; lia|]. cbn [walk].
    rewrite Hn. destruct (lookup_lt_is_Some_2 hp b Hb) as [tb Htb]. rewrite Htb.
    destruct (Z.leb_spec (taskPriority tb) prio) as [Hle|Hgt].
    + destruct (IH b fuel) as (ws1 & ws2 & -> & Hall & Hfirst & Hwalk).
      { simpl. done. }
      { simpl in Hfuel. lia. }
      exists (b :: ws1), ws2. split; [done|]. split.
      { constructor; [|done]. unfold priority. by rewrite Htb. }
      split; [done|]. rewrite Hwalk. f_equal.
      destruct ws1 as [|c ws1] using rev_ind; [done|].
      by rewrite app_comm_cons, !last_snoc.
    + exists [], (b :: ws). split; [done|]. split; [constructor|].
      split; [|done]. unfold priority. by rewrite Htb.
Qed.

(** ** Linking a task into a non-empty chain *)

Lemma is_seg_snoc hp l q o m :
  is_seg hp o (l ++ [q]) m → m = next_of hp q ∧ q < length hp.
Proof.
  intros H. apply is_seg_app in H as (m' & _ & H). simpl in H.
  destruct H as (_ & Hq & H). done.
Qed.

Lemma is_chain_head hp o l : is_chain hp o l → o = head l.
Proof. destruct l; simpl; [done|]. by intros (-> & _). Qed.

Lemma cons_snoc (h : nat) ws1 :
  ∃ pre, h :: ws1 = pre ++ [default h (last ws1)].
Proof.
  destruct ws1 as [|c ws1 _] using rev_ind.
  - by exists [].
  - exists (h :: ws1). by rewrite last_snoc.
Qed.

Lemma frame_refl hp : frame hp hp.
Proof. intros a t Ht. exists t. split; [done|]. by destruct t. Qed.

Lemma frame_trans hp1 hp2 hp3 : frame hp1 hp2 → frame hp2 hp3 → frame hp1 hp3.
Proof.
  intros H12 H23 a t Ht. destruct (H12 a t Ht) as (t2 & Ht2 & E2).
  destruct (H23 a t2 Ht2) as (t3 & Ht3 & E3). exists t3. split; [done|].
  rewrite E3, E2. by destruct t.
Qed.

Lemma frame_alloc hp t : frame hp (hp ++ [t]).
Proof.
  intros a ta Ha. exists ta. rewrite lookup_app_l by (by eapply lookup_lt_Some).
  split; [done|]. by destruct ta.
Qed.

Lemma frame_alter_next hp n q : frame hp (alter (set_next n) q hp).
Proof.
  intros a t Ha. destruct (decide (q = a)) as [->|Hne].
  - exists (set_next n t). rewrite list_lookup_alter_eq, Ha. done.
  - exists t. rewrite list_lookup_alter_ne by done. split; [done|]. by destruct t.
Qed.

Lemma frame_length hp hp' : frame hp hp' → length hp ≤ length hp'.
Proof.
  intros Hf. destruct (decide (length hp ≤ length hp')) as [|Hgt]; [done|].
  assert (length hp' < length hp) as Hlt by lia.
  destruct (lookup_lt_is_Some_2 hp _ Hlt) as [t Ht].
  destruct (Hf _ _ Ht) as (t' & Ht' & _).
  apply lookup_lt_Some in Ht'. lia.
Qed.

Lemma frame_priority hp hp' a :
  frame hp hp' → a < length hp → priority hp' a = priority hp a.
Proof.
  intros Hf Ha. destruct (lookup_lt_is_Some_2 hp a Ha) as [t Ht].
  destruct (Hf _ _ Ht) as (t' & Ht' & E). unfold priority.
  rewrite Ht, Ht', E. done.
Qed.

Lemma frame_runnable hp hp' a : frame hp hp' → runnable hp a → runnable hp' a.
Proof.
  intros Hf (t & Ht & Hr). destruct (Hf _ _ Ht) as (t' & Ht' & E).
  exists t'. split; [done|]. rewrite E. done.
Qed.

(** The heap after [task.next = next; pointer.next = task]. *)
Lemma insert_after hp o pre q post t :
  is_chain hp o (pre ++ q :: post) →
  next t = next_of hp q →
  is_chain (alter (set_next (Some (length hp))) q (hp ++ [t])) o
           (pre ++ q :: length hp :: post).
Proof.
  intros Hc Hnext. pose proof (is_chain_NoDup _ _ _ Hc) as Hnd.
  pose proof (is_seg_allocated _ _ _ _ Hc) as Hall.
  apply NoDup_app in Hnd as (_ & Hpre & Hnd). apply NoDup_cons in Hnd as (Hpost & _).
  apply Forall_app in Hall as (Hallpre & Hall).
  apply Forall_cons in Hall as (Hq & Hallpost).
  unfold is_chain in *. apply is_seg_app in Hc as (m & Hc1 & Hc2).
  simpl in Hc2. destruct Hc2 as (-> & _ & Hc2).
  set (hp' := alter _ _ _).
  assert (length hp' = S (length hp)) as Hlen.
  { unfold hp'. rewrite length_alter, length_app. simpl. lia. }
  assert (∀ a, a < length hp → a ≠ q → next_of hp' a = next_of hp a) as Hold.
  { intros a Ha Hne. unfold hp'. rewrite next_of_alter_ne by done.
    by apply next_of_alloc. }
  apply is_seg_app. exists (Some q). split.
  - apply (is_seg_ext hp); [lia| |done]. intros a Ha. apply Hold.
    + rewrite Forall_forall in Hallpre. by apply Hallpre.
    + intros ->. apply (Hpre q); [done|left].
  - simpl. split; [done|]. split; [lia|].
    unfold hp' at 1. rewrite next_of_alter_eq by (rewrite length_app; simpl; lia).
    split; [done|]. split; [lia|].
    assert (next_of hp' (length hp) = next_of hp q) as ->.
    { unfold hp'. rewrite next_of_alter_ne by lia. unfold next_of at 1.
      rewrite lookup_app_r by lia. rewrite Nat.sub_diag. simpl. done. }
    apply (is_seg_ext hp); [lia| |done]. intros a Ha. apply Hold.
    + rewrite Forall_forall in Hallpost. by apply Hallpost.
    + intros ->. done.
Qed.

Lemma link_task_chain params w h ws :
  is_chain (heap w) (queue_head (this w)) (h :: ws) →
  ∃ ws1 ws2,
    ws = ws1 ++ ws2
    ∧ Forall (λ a, (priority (heap w) a <= taskPriority params)%Z) ws1
    ∧ match ws2 with
      | [] => True
      | b :: _ => (taskPriority params < priority (heap w) b)%Z
      end
    ∧ link_task params w
      = Ok (mkWorld
              (alter (set_next (Some (length (heap w)))) (default h (last ws1))
                     (heap w ++ [set_next (head ws2) params]))
              (match ws2 with
               | [] => set_tail (Some (length (heap w))) (this w)
               | _ :: _ => this w
               end)
              (promises w) (trace w ++ [Diag LOG]))
    ∧ is_chain (alter (set_next (Some (length (heap w)))) (default h (last ws1))
                     (heap w ++ [set_next (head ws2) params]))
               (Some h) (h :: ws1 ++ length (heap w) :: ws2).
Proof.
  intros Hc. pose proof (is_chain_head _ _ _ Hc) as Hhead. simpl in Hhead.
  pose proof (is_chain_length_le _ _ _ Hc) as Hlen. simpl in Hlen.
  rewrite Hhead in Hc.
  destruct (walk_chain (heap w) (taskPriority params) ws h (length (heap w)) Hc)
    as (ws1 & ws2 & -> & Hle & Hgt & Hwalk); [lia|].
  exists ws1, ws2. split; [done|]. split; [done|]. split; [done|].
  destruct (cons_snoc h ws1) as [pre Hpre].
  assert (next_of (heap w) (default h (last ws1)) = head ws2) as Hnxt.
  { unfold is_chain in Hc. rewrite app_comm_cons, Hpre in Hc.
    apply is_seg_app in Hc as (m & Hc1 & Hc2).
    apply is_seg_snoc in Hc1 as (-> & _).
    destruct ws2; simpl in *; [done|]. by destruct Hc2 as (-> & _). }
  split.
  - unfold link_task. rewrite Hhead. simpl. rewrite Hwalk. simpl. rewrite Hnxt.
    unfold new_TMTask. destruct ws2; reflexivity.
  - change (h :: ws1 ++ length (heap w) :: ws2)
      with ((h :: ws1) ++ length (heap w) :: ws2).
    rewrite Hpre, <- app_assoc. simpl.
    apply insert_after; [|by rewrite Hnxt].
    change (pre ++ default h (last ws1) :: ws2)
      with (pre ++ [default h (last ws1)] ++ ws2).
    rewrite app_assoc, <- Hpre. done.
Qed.

(** ** [enqueueTask] on a non-empty chain *)

Lemma plain_id_safe i : plain_id i = true → safe_id i = true.
Proof.
  unfold plain_id, own_key. by intros (_ & (? & _)%andb_true_iff)%andb_true_iff.
Qed.

Lemma plain_id_member i : plain_id i = true → member_name (key i) = false.
Proof.
  unfold plain_id, own_key.
  by intros (_ & (_ & ?%negb_true_iff)%andb_true_iff)%andb_true_iff.
Qed.

Lemma plain_id_truthy i : plain_id i = true → truthy_id (Some i) = true.
Proof. unfold plain_id. by intros (? & _)%andb_true_iff. Qed.

Lemma plain_id_own i : plain_id i = true → own_key i = true.
Proof. unfold plain_id. by intros (_ & ?)%andb_true_iff. Qed.

Lemma enqueue_normalized_accepted params dup w :
  own_key (id params) = true →
  key (id params) ∉ tracked (this w) ∨ dup = true →
  enqueue_normalized params dup w
  = bind (link_task params
            (with_this (λ m, set_tracked ({[ key (id params) ]} ∪ tracked m) m)
               (diag LOG (if debug_task params then diag DEBUG w else w))))
      (λ w, let w := with_this (λ m, set_length (tm_length m + 1) m) w in
            Ok (if (10 <? tm_length (this w))%Z then diag WARN w else w)).
Proof.
  intros Hplain Hfresh. unfold enqueue_normalized.
  apply andb_true_iff in Hplain as (-> & ->%negb_true_iff).
  assert (negb (bool_decide (key (id params) ∈ tracked (this w))) || dup = true)
    as Hcond.
  { destruct Hfresh as [Hn| ->]; [|apply orb_true_r].
    by rewrite bool_decide_eq_false_2. }
  destruct (debug_task params); simpl; simpl in Hcond; rewrite Hcond; reflexivity.
Qed.

(** Only the links from head matter to an accepted submission: [tail] is
    written when the new task is the last one, [length] is incremented. *)
Lemma enqueue_normalized_link params dup w h ws :
  is_chain (heap w) (queue_head (this w)) (h :: ws) →
  plain_id (id params) = true →
  key (id params) ∉ tracked (this w) ∨ dup = true →
  ∃ w' ws1 ws2,
    enqueue_normalized params dup w = Ok w'
    ∧ ws = ws1 ++ ws2
    ∧ Forall (λ a, (priority (heap w) a <= taskPriority params)%Z) ws1
    ∧ match ws2 with
      | [] => True
      | b :: _ => (taskPriority params < priority (heap w) b)%Z
      end
    ∧ is_chain (heap w') (queue_head (this w'))
               (h :: ws1 ++ length (heap w) :: ws2)
    ∧ queue_head (this w') = Some h
    ∧ queue_tail (this w') = match ws2 with
                             | [] => Some (length (heap w))
                             | _ :: _ => queue_tail (this w)
                             end
    ∧ tm_length (this w') = (tm_length (this w) + 1)%Z
    ∧ heap w' = alter (set_next (Some (length (heap w)))) (default h (last ws1))
                      (heap w ++ [set_next (head ws2) params])
    ∧ tracked (this w') = {[ key (id params) ]} ∪ tracked (this w)
    ∧ config (this w') = config (this w)
    ∧ promises w' = promises w
    ∧ trace w' = trace w
                 ++ (if debug_task params then [Diag DEBUG] else [])
                 ++ [Diag LOG; Diag LOG]
                 ++ (if (10 <? tm_length (this w) + 1)%Z then [Diag WARN] else []).
Proof.
  intros Hc Hplain Hfresh.
  set (w1 := with_this (λ m, set_tracked ({[ key (id params) ]} ∪ tracked m) m)
               (diag LOG (if debug_task params then diag DEBUG w else w))).
  assert (heap w1 = heap w) as Hheap by (unfold w1; by destruct (debug_task params)).
  assert (queue_head (this w1) = queue_head (this w)) as Hh1
    by (unfold w1; by destruct (debug_task params)).
  assert (is_chain (heap w1) (queue_head (this w1)) (h :: ws)) as Hc1
    by (by rewrite Hheap, Hh1).
  destruct (link_task_chain params w1 h ws Hc1)
    as (ws1 & ws2 & -> & Hle & Hgt & Hlink & Hchain).
  rewrite Hheap in Hle, Hgt, Hlink, Hchain.
  assert (enqueue_normalized params dup w
          = bind (link_task params w1)
              (λ w, let w := with_this (λ m, set_length (tm_length m + 1) m) w in
                    Ok (if (10 <? tm_length (this w))%Z then diag WARN w else w)))
    as Heq by (apply enqueue_normalized_accepted; [by apply plain_id_own|done]).
  assert (tm_length (this w1) = tm_length (this w)) as Hl1
    by (unfold w1; by destruct (debug_task params)).
  assert (queue_tail (this w1) = queue_tail (this w)) as Ht1
    by (unfold w1; by destruct (debug_task params)).
  assert (trace w1 = trace w ++ (if debug_task params then [Diag DEBUG] else [])
                     ++ [Diag LOG]) as Htr1.
  { unfold w1. destruct (debug_task params); simpl; by rewrite <- ?app_assoc. }
  assert (tracked (this w1) = {[ key (id params) ]} ∪ tracked (this w)) as Hk1
    by (unfold w1; by destruct (debug_task params)).
  assert (config (this w1) = config (this w)) as Hd1
    by (unfold w1; by destruct (debug_task params)).
  assert (promises w1 = promises w) as Hp1
    by (unfold w1; by destruct (debug_task params)).
  clearbody w1. rewrite Heq, Hlink. simpl.
  eexists _, ws1, ws2. split; [reflexivity|]. split; [done|].
  split; [done|]. split; [done|].
  pose proof (is_chain_head _ _ _ Hc) as Hhd. simpl in Hhd.
  unfold config in *.
  destruct ws2 as [|b ws2]; simpl; rewrite Hl1;
    destruct (10 <? tm_length (this w) + 1)%Z; simpl.
  all: rewrite ?Hh1, ?Ht1, ?Hl1, ?Hk1, ?Hp1, ?Htr1.
  all: rewrite Hhd; simpl in Hchain.
  all: split; [exact Hchain|].
  all: repeat (split; [done|]).
  all: by rewrite <- ?app_assoc.
Qed.

Lemma enqueue_normalized_chain params dup w h ws :
  chain_of w (h :: ws) →
  plain_id (id params) = true →
  key (id params) ∉ tracked (this w) ∨ dup = true →
  ∃ w' ws1 ws2,
    enqueue_normalized params dup w = Ok w'
    ∧ ws = ws1 ++ ws2
    ∧ Forall (λ a, (priority (heap w) a <= taskPriority params)%Z) ws1
    ∧ match ws2 with
      | [] => True
      | b :: _ => (taskPriority params < priority (heap w) b)%Z
      end
    ∧ chain_of w' (h :: ws1 ++ length (heap w) :: ws2)
    ∧ heap w' = alter (set_next (Some (length (heap w)))) (default h (last ws1))
                      (heap w ++ [set_next (head ws2) params])
    ∧ tracked (this w') = {[ key (id params) ]} ∪ tracked (this w)
    ∧ defaultTaskFunc (this w') = defaultTaskFunc (this w)
    ∧ promises w' = promises w
    ∧ trace w' = trace w
                 ++ (if debug_task params then [Diag DEBUG] else [])
                 ++ [Diag LOG; Diag LOG]
                 ++ (if (10 <? tm_length (this w) + 1)%Z then [Diag WARN] else []).
Proof.
  intros (Hc & Htail & Hlen) Hplain Hfresh.
  destruct (enqueue_normalized_link params dup w h ws Hc Hplain Hfresh)
    as (w' & ws1 & ws2 & Heq & -> & Hle & Hgt & Hc' & Hh' & Ht' & Hl' & Hheap
        & Hk & Hcfg & Hp & Htr).
  exists w', ws1, ws2. repeat (split; [done|]). split.
  { split; [done|]. split.
    - rewrite Ht'. destruct ws2 as [|b ws2].
      + by rewrite app_comm_cons, last_snoc.
      + rewrite Htail.
        by rewrite !app_comm_cons, (last_app_cons _ _ (length (heap w))),
             !last_app_cons.
    - rewrite Hl', Hlen. simpl. rewrite !length_app. simpl. lia. }
  repeat (split; [done|]). split; [|done].
  unfold config in Hcfg. by injection Hcfg.
Qed.
(** ** Plain worlds stay plain *)

Lemma plain_same w w' :
  heap w' = heap w → tracked (this w') = tracked (this w) → plain w → plain w'.
Proof. unfold plain. by intros -> ->. Qed.

Lemma plain_untrack w w' k :
  heap w' = heap w → tracked (this w') = tracked (this w) ∖ {[ k ]} →
  plain w → plain w'.
Proof.
  unfold plain. intros -> -> (Hk & Hh). split; [|done].
  intros x Hx. apply Hk. by apply elem_of_difference in Hx as (? & _).
Qed.

Lemma plain_track w w' i :
  plain_id i = true →
  Forall (λ t, plain_id (id t) = true) (heap w') →
  tracked (this w') = {[ key i ]} ∪ tracked (this w) →
  plain w → plain w'.
Proof.
  unfold plain. intros Hi Hheap -> (Hk & _). split; [|done].
  intros x [->%elem_of_singleton|Hx]%elem_of_union; [|by apply Hk].
  by apply plain_id_member.
Qed.

Lemma plain_heap_linked hp params q n1 n2 :
  Forall (λ t, plain_id (id t) = true) hp →
  plain_id (id params) = true →
  Forall (λ t, plain_id (id t) = true)
         (alter (set_next n1) q (hp ++ [set_next n2 params])).
Proof.
  intros Hhp Hp. apply Forall_alter; [|done].
  apply Forall_app. split; [done|]. by constructor.
Qed.

Lemma plain_heap_insert hp a t :
  Forall (λ t, plain_id (id t) = true) hp →
  plain_id (id t) = true →
  Forall (λ t, plain_id (id t) = true) (<[a := t]> hp).
Proof. intros Hhp Ht. by apply Forall_insert. Qed.
(** C2. Enqueueing a task with a plain id onto a non-empty chain [h :: ws]
    of a plain manager (the links from head reach null through [h] and then
    [ws]; nothing is asked of [tail] or [length]): the waiting tasks split
    as [ws1 ++ ws2],
    where [ws1] is the prefix the walk passes (every priority at most the
    new one, so ties keep their order) and [ws2] is empty or starts with the
    first task of strictly greater priority (all of [ws2] is strictly
    greater when the waiting tasks are in priority order).  The new task is
    linked right after [ws1]; the head [h] is never looked at and stays the
    head whatever its priority; [tail] becomes the new task exactly when
    [ws2] is empty. *)
Theorem enqueue_ordered_insertion (now : Z) (params : TMTaskParams)
    (allowDuplicate : bool) (w : World) (h : addr) (ws : list addr) :
  is_chain (heap w) (queue_head (this w)) (h :: ws) →
  plain w →
  plain_id (id_of now params) = true →
  key_of now params ∉ tracked (this w) ∨ allowDuplicate = true →
  ∃ w' ws1 ws2,
    enqueueTask now params allowDuplicate w = Ok w'
    ∧ ws = ws1 ++ ws2
    ∧ Forall (λ a, (priority (heap w) a <= priority_of params)%Z) ws1
    ∧ match ws2 with
      | [] => True
      | b :: _ => (priority_of params < priority (heap w) b)%Z
      end
    ∧ (waiting_sorted (heap w) ws →
       Forall (λ b, (priority_of params < priority (heap w) b)%Z) ws2)
    ∧ is_chain (heap w') (queue_head (this w'))
               (h :: ws1 ++ length (heap w) :: ws2)
    ∧ heap w' !! length (heap w)
      = Some (normalize now (defaultTaskFunc (this w)) (head ws2) params)
    ∧ frame (heap w) (heap w')
    ∧ queue_head (this w') = Some h
    ∧ (ws2 = [] → queue_tail (this w') = Some (length (heap w)))
    ∧ (ws2 ≠ [] → queue_tail (this w') = queue_tail (this w)).
Proof.
  intros Hc _ Hplain Hfresh. unfold enqueueTask.
  set (p := normalize now (defaultTaskFunc (this w)) None params).
  destruct (enqueue_normalized_link p allowDuplicate w h ws Hc)
    as (w' & ws1 & ws2 & Heq & -> & Hle & Hgt & Hc' & Hh' & Ht' & Hl' & Hheap & _);
    [done|done|].
  change (taskPriority p) with (priority_of params) in Hle, Hgt.
  exists w', ws1, ws2. split; [done|]. split; [done|]. split; [done|].
  split; [done|].
  pose proof (is_seg_allocated _ _ _ _ Hc) as Hall.
  apply Forall_cons in Hall as (Hh & Hall).
  assert (default h (last ws1) < length (heap w)) as Hq.
  { destruct (last ws1) as [q|] eqn:Hl; simpl; [|done].
    apply last_Some_elem_of in Hl. rewrite Forall_forall in Hall.
    apply Hall. apply elem_of_app. by left. }
  split.
  { intros Hsorted. apply StronglySorted_app_1_r in Hsorted.
    destruct ws2 as [|b ws2]; [constructor|].
    apply StronglySorted_cons in Hsorted as (Hb & _).
    constructor; [done|]. eapply Forall_impl; [exact Hb|]. simpl. intros; lia. }
  split; [done|]. split.
  { rewrite Hheap. rewrite list_lookup_alter_ne by lia.
    rewrite lookup_app_r by lia. by rewrite Nat.sub_diag. }
  split.
  { rewrite Hheap. eapply frame_trans; [apply frame_alloc|apply frame_alter_next]. }
  split; [done|]. split.
  - intros ->. done.
  - intros Hne. rewrite Ht'. by destruct ws2.
Qed.

Lemma enqueue_ordered_insertion_witness :
  ∃ w' ws1 ws2,
    enqueueTask 3 taskC false world_AB = Ok w'
    ∧ [1] = ws1 ++ ws2
    ∧ Forall (λ a, (priority (heap world_AB) a <= priority_of taskC)%Z) ws1
    ∧ match ws2 with
      | [] => True
      | b :: _ => (priority_of taskC < priority (heap world_AB) b)%Z
      end
    ∧ (waiting_sorted (heap world_AB) [1] →
       Forall (λ b, (priority_of taskC < priority (heap world_AB) b)%Z) ws2)
    ∧ is_chain (heap w') (queue_head (this w'))
               (0 :: ws1 ++ length (heap world_AB) :: ws2)
    ∧ heap w' !! length (heap world_AB)
      = Some (normalize 3 (defaultTaskFunc (this world_AB)) (head ws2) taskC)
    ∧ frame (heap world_AB) (heap w')
    ∧ queue_head (this w') = Some 0
    ∧ (ws2 = [] → queue_tail (this w') = Some (length (heap world_AB)))
    ∧ (ws2 ≠ [] → queue_tail (this w') = queue_tail (this world_AB)).
Proof.
  apply (enqueue_ordered_insertion 3 taskC false world_AB 0 [1]).
  - repeat split; vm_compute; first [reflexivity | lia].
  - unfold plain. apply (bool_decide_unpack _). vm_compute. exact I.
  - reflexivity.
  - left. apply (bool_decide_unpack _). vm_compute. exact I.
Defined.
(** ** Advancing the queue *)

Lemma plain_lookup w a t :
  plain w → heap w !! a = Some t → plain_id (id t) = true.
Proof.
  intros (_ & Hheap) Ha. rewrite Forall_forall in Hheap. apply Hheap.
  by eapply list_elem_of_lookup_2.
Qed.

Lemma chain_head_task hp o h ws :
  is_chain hp o (h :: ws) →
  ∃ t, hp !! h = Some t ∧ next t = head ws ∧ o = Some h.
Proof.
  intros Hc. pose proof (is_chain_head _ _ _ Hc) as Hh.
  simpl in Hc. destruct Hc as (_ & Hlt & Hc).
  destruct (lookup_lt_is_Some_2 _ _ Hlt) as [t Ht]. exists t.
  split; [done|]. split; [|done].
  apply is_chain_head in Hc. unfold next_of in Hc. by rewrite Ht in Hc.
Qed.

Lemma chain_of_head_task w h ws :
  chain_of w (h :: ws) →
  ∃ t, heap w !! h = Some t ∧ next t = head ws ∧ queue_head (this w) = Some h.
Proof. intros (Hc & _ & _). by apply chain_head_task in Hc. Qed.

Lemma signals_app tr1 tr2 : signals (tr1 ++ tr2) = signals tr1 ++ signals tr2.
Proof. apply filter_app. Qed.

Lemma completions_app tr1 tr2 :
  completions (tr1 ++ tr2) = completions tr1 ++ completions tr2.
Proof.
  induction tr1 as [|e tr1 IH]; simpl; [done|].
  destruct e; simpl; by rewrite IH.
Qed.

(** The listener run for the first task [h] of a chain, whatever [tail]
    and [length] are. *)
Lemma on_ready_link w o h ws :
  is_chain (heap w) o (h :: ws) →
  plain w →
  (∀ b, head ws = Some b → runnable (heap w) b) →
  ∃ w' t,
    heap w !! h = Some t
    ∧ on_ready h w = Ok w'
    ∧ is_chain (heap w') (queue_head (this w')) ws
    ∧ queue_tail (this w') = match ws with
                             | [] => None
                             | _ :: _ => queue_tail (this w)
                             end
    ∧ tm_length (this w') = (tm_length (this w) - 1)%Z
    ∧ heap w' = heap w
    ∧ tracked (this w') = tracked (this w) ∖ {[ key (id t) ]}
    ∧ config (this w') = config (this w)
    ∧ promises w' = promises w ++ pending_of (heap w) ws
    ∧ trace w' = trace w ++ advance_events (released t (this w)) ws.
Proof.
  intros Hc Hplain Hrun.
  destruct (chain_head_task _ _ _ _ Hc) as (t & Ht & Hnext & _).
  pose proof (plain_lookup _ _ _ Hplain Ht) as Hid.
  simpl in Hc. destruct Hc as (_ & _ & Hc).
  destruct ws as [|b ws]; simpl in Hnext.
  - eexists _, t. split; [done|]. split; [by apply on_ready_last|].
    unfold is_chain. simpl. repeat split; try done.
    by rewrite app_nil_r.
  - destruct (Hrun b eq_refl) as (tb & Htb & Hf).
    eexists _, t. split; [done|]. split; [by eapply on_ready_next|].
    simpl in Hc. destruct Hc as (_ & Hb & Hc).
    simpl. unfold is_chain. simpl. repeat split; try done.
    unfold retry_of. by rewrite Htb.
Qed.

Lemma on_ready_head w h ws :
  chain_of w (h :: ws) →
  plain w →
  (∀ b, head ws = Some b → runnable (heap w) b) →
  ∃ w' t,
    heap w !! h = Some t
    ∧ on_ready h w = Ok w'
    ∧ chain_of w' ws
    ∧ heap w' = heap w
    ∧ tracked (this w') = tracked (this w) ∖ {[ key (id t) ]}
    ∧ defaultTaskFunc (this w') = defaultTaskFunc (this w)
    ∧ promises w' = promises w ++ pending_of (heap w) ws
    ∧ trace w' = trace w ++ advance_events (released t (this w)) ws.
Proof.
  intros (Hc & Htail & Hlen) Hplain Hrun.
  destruct (on_ready_link w _ h ws Hc Hplain Hrun)
    as (w' & t & Ht & Heq & Hc' & Ht' & Hl' & Hheap & Hk & Hcfg & Hp & Htr).
  exists w', t. split; [done|]. split; [done|]. split.
  { split; [done|]. split.
    - rewrite Ht'. destruct ws as [|b ws]; [done|]. rewrite Htail.
      by rewrite last_cons_cons.
    - rewrite Hl', Hlen. simpl length. lia. }
  repeat (split; [done|]). split; [|done].
  unfold config in Hcfg. by injection Hcfg.
Qed.

Lemma emit_ready_head w h ws :
  chain_of w (h :: ws) →
  plain w →
  (∀ b, head ws = Some b → runnable (heap w) b) →
  ∃ w' t,
    heap w !! h = Some t
    ∧ emit_ready h w = Ok w'
    ∧ chain_of w' ws
    ∧ heap w' = heap w
    ∧ tracked (this w') = tracked (this w) ∖ {[ key (id t) ]}
    ∧ defaultTaskFunc (this w') = defaultTaskFunc (this w)
    ∧ promises w' = promises w ++ pending_of (heap w) ws
    ∧ trace w' = trace w ++ Ready h :: advance_events (released t (this w)) ws.
Proof.
  intros Hchain Hplain Hrun. unfold emit_ready.
  destruct (on_ready_head (emit_event (Ready h) w) h ws Hchain Hplain Hrun)
    as (w' & t & Ht & Heq & Hc & Hh & Hk & Hd & Hp & Htr).
  exists w', t. repeat (split; [done|]). simpl in Htr.
  by rewrite Htr, <- app_assoc.
Qed.

(** [skip()] needs a positive [length] and the head; [tail] does not
    matter. *)
Lemma skip_link w h ws :
  is_chain (heap w) (queue_head (this w)) (h :: ws) →
  (0 < tm_length (this w))%Z →
  plain w →
  (∀ b, head ws = Some b → runnable (heap w) b) →
  ∃ w' t,
    heap w !! h = Some t
    ∧ skip w = Ok w'
    ∧ is_chain (heap w') (queue_head (this w')) ws
    ∧ queue_tail (this w') = match ws with
                             | [] => None
                             | _ :: _ => queue_tail (this w)
                             end
    ∧ tm_length (this w') = (tm_length (this w) - 1)%Z
    ∧ heap w' = heap w
    ∧ tracked (this w') = tracked (this w) ∖ {[ key (id t) ]}
    ∧ config (this w') = config (this w)
    ∧ promises w' = promises w ++ pending_of (heap w) ws
    ∧ trace w' = trace w ++ Diag WARN :: Ready h
                 :: advance_events (released t (this w)) ws.
Proof.
  intros Hc Hlen Hplain Hrun.
  destruct (on_ready_link (emit_event (Ready h) (diag WARN w)) _ h ws Hc Hplain Hrun)
    as (w' & t & Ht & Heq & Hc' & Ht' & Hl' & Hheap & Hk & Hcfg & Hp & Htr).
  exists w', t. split; [done|]. split.
  - unfold skip. rewrite (proj2 (Z.ltb_lt _ _)) by done.
    apply is_chain_head in Hc. rewrite Hc. simpl. done.
  - repeat (split; [done|]). simpl in Htr. by rewrite Htr, <- !app_assoc.
Qed.

Lemma skip_head w h ws :
  chain_of w (h :: ws) →
  plain w →
  (∀ b, head ws = Some b → runnable (heap w) b) →
  ∃ w' t,
    heap w !! h = Some t
    ∧ skip w = Ok w'
    ∧ chain_of w' ws
    ∧ heap w' = heap w
    ∧ tracked (this w') = tracked (this w) ∖ {[ key (id t) ]}
    ∧ defaultTaskFunc (this w') = defaultTaskFunc (this w)
    ∧ promises w' = promises w ++ pending_of (heap w) ws
    ∧ trace w' = trace w ++ Diag WARN :: Ready h
                 :: advance_events (released t (this w)) ws.
Proof.
  intros (Hc & Htail & Hlen) Hplain Hrun.
  destruct (skip_link w h ws Hc) as
    (w' & t & Ht & Heq & Hc' & Ht' & Hl' & Hheap & Hk & Hcfg & Hp & Htr);
    [rewrite Hlen; simpl; lia|done|done|].
  exists w', t. split; [done|]. split; [done|]. split.
  { split; [done|]. split.
    - rewrite Ht'. destruct ws as [|b ws]; [done|]. rewrite Htail.
      by rewrite last_cons_cons.
    - rewrite Hl', Hlen. simpl length. lia. }
  repeat (split; [done|]). split; [|done].
  unfold config in Hcfg. by injection Hcfg.
Qed.
(** ** The retry sequence *)

Lemma demote_safe p :
  safe p = true → demote p = Some (if (p <? 5)%Z then (p + 1)%Z else p).
Proof. intros Hs. unfold demote. by rewrite Hs. Qed.

(** The retry sequence run for the first task [h] of a chain: the links
    from head and a [length] that is not negative are all it needs. *)
Lemma retry_handler_link now w h ws :
  is_chain (heap w) (queue_head (this w)) (h :: ws) →
  (0 <= tm_length (this w))%Z →
  plain w →
  Forall (runnable (heap w)) (h :: ws) →
  safe (priority (heap w) h) = true →
  ∃ p' w_dem w_mid w' ws1 ws2,
    demote (priority (heap w) h) = Some p'
    ∧ demote_task h (diag ERROR w) = Ok w_dem
    ∧ enqueueTask_self now h w_dem = Ok w_mid
    ∧ skip w_mid = Ok w'
    ∧ retry_handler now h w = Ok w'
    ∧ ws = ws1 ++ ws2
    ∧ Forall (λ a, (priority (heap w) a <= p')%Z) ws1
    ∧ match ws2 with
      | [] => True
      | b :: _ => (p' < priority (heap w) b)%Z
      end
    ∧ is_chain (heap w_mid) (queue_head (this w_mid))
               (h :: ws1 ++ length (heap w) :: ws2)
    ∧ tm_length (this w_mid) = (tm_length (this w) + 1)%Z
    ∧ is_chain (heap w') (queue_head (this w')) (ws1 ++ length (heap w) :: ws2)
    ∧ queue_tail (this w') = match ws2 with
                             | [] => Some (length (heap w))
                             | _ :: _ => queue_tail (this w)
                             end
    ∧ tm_length (this w') = tm_length (this w)
    ∧ config (this w') = config (this w)
    ∧ (∀ t, heap w !! h = Some t →
            tracked (this w')
            = ({[ key (id t) ]} ∪ tracked (this w)) ∖ {[ key (id t) ]})
    ∧ plain w'
    ∧ length (heap w') = S (length (heap w))
    ∧ priority (heap w') h = p'
    ∧ priority (heap w') (length (heap w)) = p'
    ∧ retry_of (heap w') (length (heap w)) = retry_of (heap w) h
    ∧ Forall (λ a, priority (heap w') a = priority (heap w) a) ws
    ∧ Forall (runnable (heap w')) (ws1 ++ length (heap w) :: ws2)
    ∧ promises w' = promises w
                    ++ pending_of (heap w') (ws1 ++ length (heap w) :: ws2)
    ∧ completions (trace w') = completions (trace w) ++ [h]
    ∧ (∀ t, heap w !! h = Some t →
            ∃ tn, heap w' !! length (heap w) = Some tn ∧ id tn = id t)
    ∧ signals (trace w') = signals (trace w) ++ [Ready h].
Proof.
  intros Hc Hlen Hplain Hrun Hsafe.
  destruct (chain_head_task _ _ _ _ Hc) as (t & Ht & Hnext & Hhead).
  pose proof (plain_lookup _ _ _ Hplain Ht) as Hid.
  pose proof (is_chain_NoDup _ _ _ Hc) as Hnd.
  apply NoDup_cons in Hnd as (Hh_notin & _).
  pose proof (is_seg_allocated _ _ _ _ Hc) as Hall.
  apply Forall_cons in Hall as (Hh & Hall).
  apply Forall_cons in Hrun as (Hrunh & Hrunws).
  destruct Hrunh as (t_ & Ht_ & Hft). rewrite Ht in Ht_. injection Ht_ as <-.
  assert (priority (heap w) h = taskPriority t) as Hph
    by (unfold priority; by rewrite Ht).
  rewrite Hph in Hsafe |- *.
  set (p' := if (taskPriority t <? 5)%Z then (taskPriority t + 1)%Z
             else taskPriority t).
  assert (demote (taskPriority t) = Some p') as Hdem by (by apply demote_safe).
  set (t1 := set_taskPriority p' t).
  set (w_dem := with_heap (λ hp, <[h := t1]> hp) (diag ERROR w)).
  assert (demote_task h (diag ERROR w) = Ok w_dem) as Hdt.
  { unfold demote_task. simpl. by rewrite Ht, Hdem. }
  set (params := normalize now (defaultTaskFunc (this w)) (next t1) (params_of t1)).
  assert (taskPriority params = p') as Hpp by reflexivity.
  assert (next params = next t) as Hpn by reflexivity.
  assert (retry params = retry t) as Hpr by reflexivity.
  assert (taskFunc params = Some Returns) as Hpf by (simpl; by rewrite Hft).
  assert (id params = id t) as Hpi.
  { unfold params, normalize, params_of, t1. cbn [p_id id set_taskPriority].
    by rewrite (plain_id_truthy _ Hid). }
  set (hp2 := <[h := params]> (<[h := t1]> (heap w))).
  set (w2 := mkWorld hp2 (this w) (promises w) (trace w ++ [Diag ERROR])).
  assert (enqueueTask_self now h w_dem = enqueue_normalized params true w2)
    as Hself.
  { unfold enqueueTask_self, w_dem. simpl.
    rewrite list_lookup_insert_eq by done. reflexivity. }
  assert (plain_id (id params) = true) as Hidp by (by rewrite Hpi).
  assert (plain_id (id t1) = true) as Hid1 by done.
  clearbody params. clearbody t1.
  assert (length hp2 = length (heap w)) as Hlen2.
  { unfold hp2. by rewrite !length_insert. }
  assert (hp2 !! h = Some params) as Hh2.
  { unfold hp2. apply list_lookup_insert_eq. by rewrite length_insert. }
  assert (∀ a, a ≠ h → hp2 !! a = heap w !! a) as Hother.
  { intros a Hne. unfold hp2. by rewrite !list_lookup_insert_ne by done. }
  assert (∀ a, next_of hp2 a = next_of (heap w) a) as Hnext2.
  { intros a. unfold next_of. destruct (decide (a = h)) as [->|Hne].
    - by rewrite Hh2, Ht, Hpn.
    - by rewrite Hother. }
  assert (∀ a, a ∈ ws → a ≠ h) as Hne_ws by (intros a Ha ->; done).
  assert (∀ a, a ∈ ws → priority hp2 a = priority (heap w) a) as Hprio2.
  { intros a Ha. unfold priority. by rewrite Hother by auto. }
  assert (is_chain (heap w2) (queue_head (this w2)) (h :: ws)) as Hc2.
  { simpl. apply (is_seg_ext (heap w)); [lia| |done]. intros; apply Hnext2. }
  assert (plain w2) as Hplain2.
  { destruct Hplain as (Hk & Hhp). split; [done|]. simpl. unfold hp2.
    by repeat apply plain_heap_insert. }
  destruct (enqueue_normalized_link params true w2 h ws Hc2 Hidp)
    as (w3 & ws1 & ws2 & Henq & -> & Hle & Hgt & Hc3 & Hh3 & Ht3 & Hl3 & Hheap3
        & Hk3 & Hcfg3 & Hp3 & Htr3); [by right|].
  simpl in Hle, Hgt, Ht3, Hl3, Hheap3, Hk3, Hcfg3, Hp3, Htr3.
  change (heap w2) with hp2 in Hc3. rewrite Hlen2 in *.
  assert (plain w3) as Hplain3.
  { apply (plain_track w2 w3 (id params)); [done| |done|done].
    rewrite Hheap3. apply plain_heap_linked; [|done]. by destruct Hplain2. }
  assert (frame hp2 (heap w3)) as Hframe.
  { rewrite Hheap3. eapply frame_trans; [apply frame_alloc|apply frame_alter_next]. }
  assert (default h (last ws1) < length (heap w)) as Hq.
  { destruct (last ws1) as [q|] eqn:Hl; simpl; [|done].
    apply last_Some_elem_of in Hl. rewrite Forall_forall in Hall.
    apply Hall. apply elem_of_app. by left. }
  assert (∃ tn, heap w3 !! length (heap w) = Some tn
                ∧ taskPriority tn = p'
                ∧ taskFunc tn = Some Returns ∧ retry tn = retry t
                ∧ id tn = id t)
    as (tn & Htn & Hpn' & Hfn & Hrn & Hin).
  { eexists. split.
    - rewrite Hheap3. rewrite list_lookup_alter_ne by lia.
      rewrite lookup_app_r by lia. rewrite Hlen2, Nat.sub_diag. reflexivity.
    - done. }
  assert (∀ a, a ∈ ws1 ++ ws2 → runnable (heap w3) a) as Hrun3.
  { intros a Ha. apply (frame_runnable hp2); [done|].
    rewrite Forall_forall in Hrunws. destruct (Hrunws a Ha) as (ta & Hta & Hfa).
    exists ta. by rewrite Hother by auto. }
  assert (Forall (runnable (heap w3)) (ws1 ++ length (heap w) :: ws2)) as Hrunall.
  { apply Forall_app. split.
    - apply Forall_forall. intros a Ha. apply Hrun3. apply elem_of_app. by left.
    - constructor; [by exists tn|].
      apply Forall_forall. intros a Ha. apply Hrun3. apply elem_of_app. by right. }
  destruct (skip_link w3 h (ws1 ++ length (heap w) :: ws2) Hc3)
    as (w4 & t3 & Ht3' & Hskip & Hc4 & Ht4 & Hl4 & Hheap4 & Hk4 & Hcfg4 & Hp4
        & Htr4); [lia|done| |].
  { intros b Hb. rewrite Forall_forall in Hrunall. apply Hrunall.
    by apply head_Some_elem_of. }
  assert (t3 = set_next (next t3) params) as Ht3eq.
  { assert (hp2 !! h = Some params) as Hh2' by done.
    destruct (Hframe _ _ Hh2') as (t3' & Ht3'' & E). rewrite Ht3' in Ht3''.
    by injection Ht3'' as <-. }
  exists p', w_dem, w3, w4, ws1, ws2.
  split; [done|]. split; [done|]. split; [by rewrite Hself|]. split; [done|].
  split. { unfold retry_handler. simpl. rewrite Hdt. simpl. rewrite Hself, Henq.
           simpl. done. }
  split; [done|].
  split.
  { rewrite <- Hpp. eapply Forall_impl.
    - apply Forall_forall. intros a Ha. rewrite Forall_forall in Hle.
      pose proof (Hle a Ha) as Hlea. rewrite Hprio2 in Hlea; [exact (conj Ha Hlea)|].
      apply elem_of_app. by left.
    - simpl. intros a [_ Hlea]. done. }
  split.
  { destruct ws2 as [|b ws2]; [done|]. rewrite <- Hpp.
    rewrite <- Hprio2; [done|]. apply elem_of_app. right. left. }
  split; [done|]. split; [done|]. split; [done|].
  split.
  { rewrite Ht4. destruct (ws1 ++ length (heap w) :: ws2) eqn:Hws;
      [by destruct ws1|]. rewrite Ht3. done. }
  split; [lia|].
  split; [by rewrite Hcfg4, Hcfg3|].
  split.
  { intros t' Ht'. rewrite Ht in Ht'. injection Ht' as <-.
    rewrite Hk4, Hk3, Ht3eq. cbn [id set_next]. by rewrite Hpi. }
  split.
  { apply (plain_untrack w3 w4 (key (id t3))); done. }
  rewrite Hheap4.
  split. { rewrite Hheap3, length_alter, length_app, Hlen2. simpl. lia. }
  split.
  { rewrite (frame_priority hp2) by (done || lia).
    unfold priority. by rewrite Hh2. }
  split. { unfold priority. by rewrite Htn. }
  split. { unfold retry_of. by rewrite Htn, Ht. }
  split.
  { apply Forall_forall. intros a Ha. rewrite (frame_priority hp2); [auto|done|].
    rewrite Hlen2. rewrite Forall_forall in Hall. auto. }
  split; [done|]. split.
  { rewrite Hp4, Hp3. done. }
  split.
  { rewrite Htr4, Htr3. rewrite !completions_app. simpl.
    destruct (debug_task params); simpl;
      destruct (10 <? _)%Z; simpl; rewrite ?app_nil_r;
      destruct (ws1 ++ length (heap w) :: ws2); simpl; done. }
  split.
  { intros t' Ht'. rewrite Ht in Ht'. injection Ht' as <-. by exists tn. }
  rewrite Htr4, Htr3. rewrite !signals_app. simpl.
  destruct (debug_task params); simpl;
    destruct (10 <? _)%Z; simpl; rewrite ?app_nil_r;
    destruct (ws1 ++ length (heap w) :: ws2) eqn:Hws; simpl;
    rewrite ?app_nil_r; try done; by destruct ws1.
Qed.

(** The same on a queue whose [tail] and [length] fit the chain. *)
Lemma retry_handler_chain now w h ws :
  chain_of w (h :: ws) →
  plain w →
  Forall (runnable (heap w)) (h :: ws) →
  safe (priority (heap w) h) = true →
  ∃ p' w' ws1 ws2,
    demote (priority (heap w) h) = Some p'
    ∧ retry_handler now h w = Ok w'
    ∧ ws = ws1 ++ ws2
    ∧ Forall (λ a, (priority (heap w) a <= p')%Z) ws1
    ∧ match ws2 with
      | [] => True
      | b :: _ => (p' < priority (heap w) b)%Z
      end
    ∧ chain_of w' (ws1 ++ length (heap w) :: ws2)
    ∧ plain w'
    ∧ priority (heap w') h = p'
    ∧ priority (heap w') (length (heap w)) = p'
    ∧ retry_of (heap w') (length (heap w)) = retry_of (heap w) h
    ∧ Forall (λ a, priority (heap w') a = priority (heap w) a) ws
    ∧ Forall (runnable (heap w')) (ws1 ++ length (heap w) :: ws2)
    ∧ promises w' = promises w
                    ++ pending_of (heap w') (ws1 ++ length (heap w) :: ws2)
    ∧ completions (trace w') = completions (trace w) ++ [h].
Proof.
  intros (Hc & Htail & Hlen) Hplain Hrun Hsafe.
  destruct (retry_handler_link now w h ws Hc) as
    (p' & w_dem & w_mid & w' & ws1 & ws2 & Hdem & _ & _ & _ & Hret & -> & Hle
     & Hgt & _ & _ & Hc' & Ht' & Hl' & _ & _ & Hplain' & _ & Hph & Hpn & Hrn
     & Hsame & Hrun' & Hp' & Htr' & _); [rewrite Hlen; lia|done|done|done|].
  exists p', w', ws1, ws2. repeat (split; [done|]). split.
  { split; [done|]. split.
    - rewrite Ht'. destruct ws2 as [|b ws2].
      + by rewrite last_snoc.
      + rewrite Htail.
        by rewrite !app_comm_cons, (last_app_cons _ _ (length (heap w))),
             !last_app_cons.
    - rewrite Hl', Hlen. simpl. rewrite !length_app. simpl. lia. }
  repeat (split; [done|]). done.
Qed.
(** ** The ready listener (C3) *)




(** ** The retry sequence (C4, C8) *)




Lemma demote_n_safe n : ∀ p,
  safe p = true →
  ∃ q, demote_n n p = Some q ∧ safe q = true ∧ (p <= q)%Z
     ∧ ((p <= 5)%Z → q = Z.min 5 (p + Z.of_nat n))
     ∧ ((5 <= p)%Z → q = p).
Proof.
  induction n as [|n IH]; intros p Hp.
  - exists p. simpl. repeat split; try done; lia.
  - destruct (IH p Hp) as (q & Hq & Hsq & Hle & Hmin & Hmax).
    exists (if (q <? 5)%Z then (q + 1)%Z else q).
    cbn [demote_n]. rewrite Hq. simpl. rewrite (demote_safe _ Hsq).
    split; [done|].
    unfold safe in *. apply andb_true_iff in Hsq as (H1%Z.leb_le & H2%Z.leb_le).
    apply andb_true_iff in Hp as (H3%Z.leb_le & H4%Z.leb_le).
    destruct (Z.ltb_spec q 5).
    + split; [apply andb_true_iff; split; apply Z.leb_le; lia|].
      split; [lia|]. split; intros; [rewrite Hmin in * by lia|]; lia.
    + split; [apply andb_true_iff; split; apply Z.leb_le; lia|].
      split; [lia|]. split; intros; [rewrite Hmin in * by lia|]; lia.
Qed.

(** C8. The failure branch changes the priority [p] of the retried task, a
    safe integer, to [p + 1] exactly when [p < 5], and leaves it otherwise;
    the task at the head and its re-submitted copy both carry the new
    priority.  Over repeated retries the priority never goes down, and from
    a start at most 5 it is [min 5 (p + n)] after [n] retries: it rises by
    one per retry and stops at 5. *)
Theorem retry_demotes_toward_five (now : Z) (w : World) (h : addr)
    (ws : list addr) :
  is_chain (heap w) (queue_head (this w)) (h :: ws) →
  (0 <= tm_length (this w))%Z →
  plain w →
  Forall (runnable (heap w)) (h :: ws) →
  safe (priority (heap w) h) = true →
  (demote (priority (heap w) h) = Some (priority (heap w) h + 1)%Z
   ↔ (priority (heap w) h < 5)%Z)
  ∧ (demote (priority (heap w) h) = Some (priority (heap w) h)
     ↔ (5 <= priority (heap w) h)%Z)
  ∧ (∃ w' p', retry_handler now h w = Ok w'
         ∧ demote (priority (heap w) h) = Some p'
         ∧ priority (heap w') h = p'
         ∧ priority (heap w') (length (heap w)) = p'
         ∧ retry_of (heap w') (length (heap w)) = retry_of (heap w) h)
  ∧ (∀ n, ∃ q q',
       demote_n n (priority (heap w) h) = Some q
       ∧ demote_n (S n) (priority (heap w) h) = Some q'
       ∧ (q <= q')%Z
       ∧ (priority (heap w) h <= 5 →
          q = Z.min 5 (priority (heap w) h + Z.of_nat n) ∧ q <= 5)%Z).
Proof.
  intros Hc Hlen Hplain Hrun Hsafe. set (p := priority (heap w) h) in *.
  rewrite (demote_safe _ Hsafe).
  split; [destruct (Z.ltb_spec p 5); split; intros H'; try injection H' as H';
          (lia || f_equal; lia)|].
  split; [destruct (Z.ltb_spec p 5); split; intros H'; try injection H' as H';
          (lia || f_equal; lia)|].
  split.
  - destruct (retry_handler_link now w h ws Hc Hlen Hplain Hrun Hsafe)
      as (p' & _ & _ & w' & ws1 & ws2 & Hdem & _ & _ & _ & Hret & _ & _ & _ & _
          & _ & _ & _ & _ & _ & _ & _ & _ & Hph & Hpn & Hrn & _).
    exists w', p'. fold p in Hdem. rewrite (demote_safe _ Hsafe) in Hdem. done.
  - intros n.
    destruct (demote_n_safe n p Hsafe) as (q & Hq & Hsq & Hle & Hmin & _).
    destruct (demote_n_safe (S n) p Hsafe) as (q' & Hq' & _ & _ & Hmin' & Hmax').
    exists q, q'. split; [done|]. split; [done|]. split.
    + cbn [demote_n] in Hq'. rewrite Hq in Hq'. simpl in Hq'.
      rewrite (demote_safe _ Hsq) in Hq'. injection Hq' as <-.
      destruct (Z.ltb_spec q 5); lia.
    + intros Hp. rewrite Hmin by done. lia.
Qed.

Lemma retry_demotes_toward_five_witness :
  (demote (priority (heap world_RN) 0) = Some (priority (heap world_RN) 0 + 1)%Z
   ↔ (priority (heap world_RN) 0 < 5)%Z)
  ∧ (demote (priority (heap world_RN) 0) = Some (priority (heap world_RN) 0)
     ↔ (5 <= priority (heap world_RN) 0)%Z)
  ∧ (∃ w' p', retry_handler 3 0 world_RN = Ok w'
         ∧ demote (priority (heap world_RN) 0) = Some p'
         ∧ priority (heap w') 0 = p'
         ∧ priority (heap w') (length (heap world_RN)) = p'
         ∧ retry_of (heap w') (length (heap world_RN))
           = retry_of (heap world_RN) 0)
  ∧ (∀ n, ∃ q q',
       demote_n n (priority (heap world_RN) 0) = Some q
       ∧ demote_n (S n) (priority (heap world_RN) 0) = Some q'
       ∧ (q <= q')%Z
       ∧ (priority (heap world_RN) 0 <= 5 →
          q = Z.min 5 (priority (heap world_RN) 0 + Z.of_nat n) ∧ q <= 5)%Z).
Proof.
  apply (retry_demotes_toward_five 3 world_RN 0 [1]).
  - repeat split; vm_compute; first [reflexivity | lia].
  - vm_compute. discriminate.
  - unfold plain. apply (bool_decide_unpack _). vm_compute. exact I.
  - repeat constructor; eexists; split; reflexivity.
  - reflexivity.
Defined.

(** ** [length] against the chain (C5) *)

(** C5 fails on this run: [A] starts, [B] waits, [skip()] retires [A] and
    starts [B]; then [A]'s own pending result is fulfilled and [ready] fires
    for [A] a second time.  The listener sets head to [A.next] again (still
    [B], whose work function is called a second time) and decrements
    [length] again: the chain from head to tail is the single node [B],
    while [length] is 0. *)
Theorem length_lost_after_skip_then_completion :
  ∃ w', run [Enqueue 1 taskA false; Enqueue 2 taskB false; Skip;
             Settle 3 0 true] idle = Ok w'
      ∧ is_chain (heap w') (queue_head (this w')) [1]
      ∧ queue_tail (this w') = Some 1
      ∧ tm_length (this w') = 0%Z
      ∧ completions (trace w') = [0; 0]
      ∧ ¬ chain_of w' [1].
Proof.
  exists (world_of (run [Enqueue 1 taskA false; Enqueue 2 taskB false; Skip;
                         Settle 3 0 true] idle)).
  split; [apply ok_world; vm_compute; reflexivity|].
  split; [repeat split; vm_compute; first [reflexivity | lia]|].
  split; [vm_compute; reflexivity|]. split; [vm_compute; reflexivity|].
  split; [vm_compute; reflexivity|].
  intros (_ & _ & Hlen). vm_compute in Hlen. discriminate.
Qed.

(** ** A task without a work function (C10) *)

Lemma link_task_idle params w :
  queue_head (this w) = None →
  link_task params w
  = execute (length (heap w))
      (mkWorld (heap w ++ [params])
         (set_tail (Some (length (heap w)))
            (set_head (Some (length (heap w))) (this w)))
         (promises w) (trace w ++ [Diag LOG])).
Proof. intros Hh. unfold link_task. rewrite Hh. reflexivity. Qed.

(** Counterexample to C10 as stated: [A] is running and [M], a task
    without a work function under a manager without a default, is waiting
    behind it; both calls of [enqueueTask] have returned normally.  When the
    result of [A] is fulfilled, the callback of [result.then] emits [ready],
    the listener makes [M] the head and dispatches it, and the dispatch
    raises.  The error arises in that callback, under no caller of the
    scheduler, and rejects a promise that nobody holds.  It leaves [M] at
    the head with nothing pending and [length] still 2, since the
    decrement at the end of the listener is not reached. *)
Lemma missing_work_function_error_lost :
  ∃ w2 w3,
    run [Enqueue 1 taskA false; Enqueue 2 taskM false] idle = Ok w2
    ∧ settle 3 0 true w2 = Throw w3
    ∧ is_chain (heap w3) (queue_head (this w3)) [1]
    ∧ tm_length (this w3) = 2%Z
    ∧ promises w3 = []
    ∧ completions (trace w3) = [0].
Proof.
  exists (world_of (run [Enqueue 1 taskA false; Enqueue 2 taskM false] idle)),
         (world_of (settle 3 0 true
                      (world_of (run [Enqueue 1 taskA false;
                                      Enqueue 2 taskM false] idle)))).
  split; [apply ok_world; vm_compute; reflexivity|].
  split; [vm_compute; reflexivity|].
  split; [repeat split; vm_compute; first [reflexivity | lia]|].
  repeat split; vm_compute; reflexivity.
Qed.

(** C10, amended. A task without a work function of its own, under a
    manager without a default, raises at dispatch, right after the debug
    line of [execute], and no code of the scheduler catches the error.  It
    reaches the caller of [enqueueTask] when the task is submitted to an
    idle manager (the task is then head and tail and its id is tracked, but
    [length] is not incremented), and the caller of [skip()] when [skip()]
    advances to the task.  When the completion of the task before it
    advances to the task, it is the callback of that completion that
    raises. *)
Theorem missing_work_function_is_fatal :
  (∀ w a t,
     heap w !! a = Some t → taskFunc t = None →
     execute a w = Throw (diag DEBUG w))
  ∧ (∀ now params dup w,
       p_taskFunc params = None → defaultTaskFunc (this w) = None →
       queue_head (this w) = None →
       plain w →
       plain_id (id_of now params) = true →
       key_of now params ∉ tracked (this w) ∨ dup = true →
       ∃ w', enqueueTask now params dup w = Throw w'
           ∧ tm_length (this w') = tm_length (this w)
           ∧ queue_head (this w') = Some (length (heap w))
           ∧ queue_tail (this w') = Some (length (heap w))
           ∧ tracked (this w') = {[ key_of now params ]} ∪ tracked (this w))
  ∧ (∀ w prev tp a t,
       heap w !! prev = Some tp → next tp = Some a →
       heap w !! a = Some t → taskFunc t = None →
       plain w →
       (queue_head (this w) = Some prev → (0 < tm_length (this w))%Z →
        ∃ w', skip w = Throw w'
            ∧ queue_head (this w') = Some a
            ∧ tm_length (this w') = tm_length (this w))
       ∧ (∀ now i r, promises w !! i = Some (mkPromise prev r) →
                     ∃ w', settle now i true w = Throw w'
                         ∧ queue_head (this w') = Some a
                         ∧ tm_length (this w') = tm_length (this w))).
Proof.
  split; [exact (λ w a t, execute_missing a t w)|]. split.
  - intros now params dup w Hf Hd Hh _ Hplain Hfresh. unfold enqueueTask.
    rewrite enqueue_normalized_accepted by (by try apply plain_id_own).
    rewrite link_task_idle by (by destruct (debug_task _)).
    erewrite execute_missing.
    + simpl. eexists. split; [reflexivity|]. simpl.
      by destruct (p_debug_task params).
    + simpl. rewrite lookup_app_r by (destruct (p_debug_task params); simpl; lia).
      replace (_ - _) with 0 by (destruct (p_debug_task params); simpl; lia).
      reflexivity.
    + simpl. by rewrite Hf, Hd.
  - intros w prev tp a t Hprev Hnext Ha Hf Hplain.
    pose proof (plain_lookup _ _ _ Hplain Hprev) as Hid.
    apply andb_true_iff in Hid as (_ & Hown).
    assert (∀ w1, heap w1 = heap w → this w1 = this w →
              ∃ w', on_ready prev w1 = Throw w'
                  ∧ queue_head (this w') = Some a
                  ∧ tm_length (this w') = tm_length (this w)) as Hthrow.
    { intros w1 Hheap Hthis. unfold on_ready. rewrite Hheap, Hprev. simpl.
      rewrite Hown. simpl. rewrite Hnext. simpl.
      erewrite execute_missing; [simpl; eexists; split; [reflexivity|]| |done].
      - simpl. by rewrite Hthis.
      - simpl. by rewrite Hheap. }
    split.
    + intros Hh Hlen. unfold skip. apply Z.ltb_lt in Hlen. rewrite Hlen, Hh.
      by apply Hthrow.
    + intros now i r Hi. unfold settle. rewrite Hi. simpl. by apply Hthrow.
Qed.

Lemma missing_work_function_is_fatal_witness :
  execute 1 world_AM = Throw (diag DEBUG world_AM)
  ∧ (∃ w', enqueueTask 1 taskM false idle = Throw w'
         ∧ tm_length (this w') = tm_length (this idle)
         ∧ queue_head (this w') = Some (length (heap idle))
         ∧ queue_tail (this w') = Some (length (heap idle))
         ∧ tracked (this w') = {[ key_of 1 taskM ]} ∪ tracked (this idle))
  ∧ (∃ w', skip world_AM = Throw w'
         ∧ queue_head (this w') = Some 1
         ∧ tm_length (this w') = tm_length (this world_AM))
  ∧ (∃ w', settle 3 0 true world_AM = Throw w'
         ∧ queue_head (this w') = Some 1
         ∧ tm_length (this w') = tm_length (this world_AM)).
Proof.
  assert (plain world_AM) as Hplain.
  { unfold plain. apply (bool_decide_unpack _). vm_compute. exact I. }
  split; [|split; [|split]].
  - apply (proj1 missing_work_function_is_fatal world_AM 1
             (normalize 2 None None taskM)); reflexivity.
  - apply (proj1 (proj2 missing_work_function_is_fatal) 1%Z taskM false idle);
      try reflexivity.
    + unfold plain. apply (bool_decide_unpack _). vm_compute. exact I.
    + left. apply (bool_decide_unpack _). vm_compute. exact I.
  - apply (proj1 (proj2 (proj2 missing_work_function_is_fatal) world_AM 0
                    (normalize 1 None (Some 1) taskA) 1
                    (normalize 2 None None taskM)
                    eq_refl eq_refl eq_refl eq_refl Hplain));
      [reflexivity|vm_compute; reflexivity].
  - apply (proj2 (proj2 (proj2 missing_work_function_is_fatal) world_AM 0
                    (normalize 1 None (Some 1) taskA) 1
                    (normalize 2 None None taskM)
                    eq_refl eq_refl eq_refl eq_refl Hplain) 3%Z 0 false).
    reflexivity.
Defined.

(** ** A failure without retry (C7) *)

Lemma enqueue_on_chain now params dup w h ws :
  chain_of w (h :: ws) →
  plain w →
  plain_id (id_of now params) = true →
  ∃ w' ws',
    enqueueTask now params dup w = Ok w'
    ∧ chain_of w' (h :: ws')
    ∧ plain w'
    ∧ promises w' = promises w
    ∧ signals (trace w') = signals (trace w).
Proof.
  intros Hchain Hplain Hid.
  set (p := normalize now (defaultTaskFunc (this w)) None params).
  assert (∀ d, key_of now params ∉ tracked (this w) ∨ d = true →
            ∃ w' ws', enqueue_normalized p d w = Ok w'
                      ∧ chain_of w' (h :: ws') ∧ plain w'
                      ∧ promises w' = promises w
                      ∧ signals (trace w') = signals (trace w)) as Hacc.
  { intros d Hfresh.
    destruct (enqueue_normalized_chain p d w h ws Hchain Hid Hfresh)
      as (w2 & ws1' & ws2' & Heq2 & _ & _ & _ & Hc & Hheap & Hk & _ & Hp & Htr).
    exists w2, (ws1' ++ length (heap w) :: ws2'). split; [done|].
    split; [done|]. split.
    { apply (plain_track w w2 (id p)); [done| |done|done].
      rewrite Hheap. apply plain_heap_linked; [by destruct Hplain|done]. }
    split; [done|]. rewrite Htr, !signals_app.
    destruct (debug_task _), (10 <? _)%Z; simpl; by rewrite ?app_nil_r. }
  destruct (decide (key_of now params ∈ tracked (this w))) as [Hin|Hnotin];
    [destruct dup eqn:Hdup|].
  - apply Hacc. by right.
  - rewrite (enqueue_dropped now params w (plain_id_safe _ Hid) Hin).
    eexists _, ws. split; [reflexivity|].
    destruct (p_debug_task params); simpl; (split; [done|]); (split; [done|]);
      (split; [done|]); rewrite !signals_app; simpl; by rewrite ?app_nil_r.
  - apply Hacc. by left.
Qed.

Lemma stalled_queue acts : ∀ w h ws,
  chain_of w (h :: ws) → plain w → promises w = [] →
  Forall (λ act, act ≠ Skip ∧ plain_action act) acts →
  ∃ w' ws',
    run acts w = Ok w'
    ∧ chain_of w' (h :: ws')
    ∧ promises w' = []
    ∧ signals (trace w') = signals (trace w).
Proof.
  induction acts as [|act acts IH]; intros w h ws Hchain Hplain Hp Hns.
  - exists w, ws. done.
  - apply Forall_cons in Hns as ((Hact & Hpa) & Hns).
    assert (∃ w1 ws1, step act w = Ok w1 ∧ chain_of w1 (h :: ws1) ∧ plain w1
                      ∧ promises w1 = [] ∧ signals (trace w1) = signals (trace w))
      as (w1 & ws1 & Hstep & Hc1 & Hplain1 & Hp1 & Hs1).
    { destruct act as [now params dup| |now i ok]; [|done|].
      - destruct (enqueue_on_chain now params dup w h ws Hchain Hplain Hpa)
          as (w1 & ws1 & Heq & Hc1 & Hplain1 & Hp1 & Hs1).
        exists w1, ws1. simpl. rewrite Hp1. done.
      - exists w, ws. simpl. unfold settle. rewrite Hp. done. }
    destruct (IH w1 h ws1 Hc1 Hplain1 Hp1 Hns) as (w' & ws' & Hrun & Hc' & Hp' & Hs').
    exists w', ws'. simpl. rewrite Hstep. simpl. rewrite Hs', Hs1. done.
Qed.

(** C7. A task with [retry] unset gets no retry handler when it is
    dispatched.  When its pending result is rejected, nothing runs: the
    manager (head, tail, length, tracked ids), the heap and the trace are
    exactly as before, so no [ready] is emitted.  If that result was the
    only pending one of a plain manager whose queue is in step, the queue
    stays at its head from then on: whatever is submitted under plain ids or
    settled afterwards, short of a call of [skip()], the head is the same,
    nothing is pending, and no [ready] or [complete] is ever emitted. *)
Theorem rejection_without_retry_stalls (now : Z) (i : nat) (p : Promise)
    (w : World) :
  promises w !! i = Some p →
  pr_retry p = false →
  (∀ w0 t, heap w0 !! pr_task p = Some t → retry t = false →
           taskFunc t = Some Returns →
           execute (pr_task p) w0
           = Ok (add_promise p
                   (emit_event (Exec (pr_task p) (this w0)) (diag DEBUG w0))))
  ∧ ∃ w1,
      settle now i false w = Ok w1
      ∧ this w1 = this w ∧ heap w1 = heap w ∧ trace w1 = trace w
      ∧ promises w1 = delete i (promises w)
      ∧ (∀ h ws acts,
           chain_of w (h :: ws) → plain w → promises w = [p] →
           Forall (λ act, act ≠ Skip ∧ plain_action act) acts →
           ∃ w2 ws',
             run acts w1 = Ok w2
             ∧ chain_of w2 (h :: ws')
             ∧ queue_head (this w2) = Some h
             ∧ promises w2 = []
             ∧ signals (trace w2) = signals (trace w)).
Proof.
  intros Hi Hr. split.
  { intros w0 t Ht Hrt Hf. unfold execute. rewrite Ht. simpl. rewrite Hf, Hrt.
    destruct p as [a r]. simpl in *. by rewrite Hr. }
  eexists. split; [unfold settle; rewrite Hi, Hr; reflexivity|]. simpl.
  repeat (split; [done|]).
  intros h ws acts Hchain Hplain Hp Hns.
  assert (i = 0) as ->.
  { apply lookup_lt_Some in Hi. rewrite Hp in Hi. simpl in Hi. lia. }
  destruct (stalled_queue acts
              (mkWorld (heap w) (this w) (delete 0 (promises w)) (trace w)) h ws)
    as (w2 & ws' & Hrun & Hc2 & Hp2 & Hs2); [done|done|by rewrite Hp|done|].
  exists w2, ws'. repeat (split; [done|]). split; [|done].
  destruct Hc2 as (Hc2 & _). by apply is_chain_head in Hc2.
Qed.

Lemma rejection_without_retry_stalls_witness :
  ∃ w1 w2 ws',
    settle 3 0 false world_A = Ok w1
    ∧ this w1 = this world_A ∧ heap w1 = heap world_A
    ∧ trace w1 = trace world_A
    ∧ promises w1 = delete 0 (promises world_A)
    ∧ run [Enqueue 4 taskB false; Settle 5 0 true; Enqueue 6 taskC false] w1
      = Ok w2
    ∧ chain_of w2 (0 :: ws')
    ∧ queue_head (this w2) = Some 0
    ∧ promises w2 = []
    ∧ signals (trace w2) = signals (trace world_A).
Proof.
  destruct (rejection_without_retry_stalls 3 0 (mkPromise 0 false) world_A
              eq_refl eq_refl)
    as (_ & w1 & Hs & Ht & Hh & Htr & Hp & Hstall).
  destruct (Hstall 0 []
              [Enqueue 4 taskB false; Settle 5 0 true; Enqueue 6 taskC false])
    as (w2 & ws' & Hrun & Hc & Hq & Hp2 & Hsig).
  - repeat split; vm_compute; first [reflexivity | lia].
  - unfold plain. apply (bool_decide_unpack _). vm_compute. exact I.
  - reflexivity.
  - repeat constructor; try discriminate; reflexivity.
  - exists w1, w2, ws'. repeat (split; [assumption|]). assumption.
Defined.

(** ** What each operation can change *)

Lemma execute_Ok a w w' :
  execute a w = Ok w' →
  ∃ t, heap w !! a = Some t ∧ taskFunc t = Some Returns
     ∧ w' = add_promise (mkPromise a (retry t))
              (emit_event (Exec a (this w)) (diag DEBUG w)).
Proof.
  unfold execute. destruct (heap w !! a) as [t|] eqn:Ht; [|done]. simpl.
  destruct (taskFunc t) as [[]|] eqn:Hf; try done. intros [= <-].
  exists t. done.
Qed.

Lemma on_ready_Ok task w w' :
  on_ready task w = Ok w' →
  ∃ t, heap w !! task = Some t
     ∧ own_key (id t) = true
     ∧ heap w' = heap w
     ∧ config (this w') = config (this w)
     ∧ tracked (this w') = tracked (this w) ∖ {[ key (id t) ]}
     ∧ queue_head (this w') = next t
     ∧ tm_length (this w') = (tm_length (this w) - 1)%Z
     ∧ ∃ ps, promises w' = promises w ++ ps.
Proof.
  unfold on_ready. destruct (heap w !! task) as [t|] eqn:Ht; [|done]. simpl.
  destruct (own_key (id t)) eqn:Hown; [|done]. simpl.
  destruct (next t) as [h|] eqn:Hn; simpl.
  - intros Hb. apply bind_Ok in Hb as (w1 & Hex & [= <-]).
    apply execute_Ok in Hex as (th & Hth & Hf & ->). simpl.
    exists t. repeat split; try done. by eexists.
  - intros [= <-]. simpl. exists t. repeat split; try done.
    exists []. by rewrite app_nil_r.
Qed.

Lemma skip_Ok w w' :
  skip w = Ok w' →
  heap w' = heap w
  ∧ config (this w') = config (this w)
  ∧ ∃ ps, promises w' = promises w ++ ps.
Proof.
  unfold skip. destruct (0 <? tm_length (this w))%Z.
  - destruct (queue_head (this w)) as [h|]; [|done]. unfold emit_ready.
    intros Hr. apply on_ready_Ok in Hr as (t & _ & _ & Hh & Hc & _ & _ & _ & Hp).
    done.
  - intros [= <-]. simpl. repeat split. exists []. by rewrite app_nil_r.
Qed.

Lemma link_task_Ok params w w' :
  link_task params w = Ok w' →
  frame (heap w) (heap w')
  ∧ length (heap w') = S (length (heap w))
  ∧ (∃ nxt, heap w' !! length (heap w) = Some (set_next nxt params))
  ∧ config (this w') = config (this w)
  ∧ tracked (this w') = tracked (this w)
  ∧ tm_length (this w') = tm_length (this w)
  ∧ ∃ ps, promises w' = promises w ++ ps.
Proof.
  unfold link_task. destruct (queue_head (this w)) as [h|] eqn:Hh.
  - destruct (walk _ _ _ _) as [q|]; [|done]. intros [= <-].
    assert (∀ b : option nat, ∀ x y : World,
              heap (match b with None => x | Some _ => y end)
              = match b with None => heap x | Some _ => heap y end) as Hm
      by (by intros []).
    split; [|split; [|split; [|split; [|split; [|split]]]]].
    + destruct (next_of (heap w) q); simpl;
        (eapply frame_trans; [apply frame_alloc|apply frame_alter_next]).
    + destruct (next_of (heap w) q); simpl;
        rewrite length_alter, length_app; simpl; lia.
    + exists (match decide (q = length (heap w)) with
              | left _ => Some (length (heap w))
              | right _ => next_of (heap w) q
              end).
      destruct (decide (q = length (heap w))) as [->|Hne].
      * destruct (next_of (heap w) (length (heap w))); simpl;
          rewrite list_lookup_alter_eq, lookup_app_r by lia;
          rewrite Nat.sub_diag; simpl; done.
      * destruct (next_of (heap w) q); simpl;
          rewrite list_lookup_alter_ne by done;
          rewrite lookup_app_r by lia; rewrite Nat.sub_diag; simpl; done.
    + by destruct (next_of (heap w) q).
    + by destruct (next_of (heap w) q).
    + by destruct (next_of (heap w) q).
    + exists []. rewrite app_nil_r. by destruct (next_of (heap w) q).
  - intros Hex. apply execute_Ok in Hex as (t & Ht & Hf & ->). simpl.
    simpl in Ht. rewrite lookup_app_r in Ht by lia.
    rewrite Nat.sub_diag in Ht. simpl in Ht. injection Ht as <-.
    split; [apply frame_alloc|]. split; [rewrite length_app; simpl; lia|].
    split.
    { exists (next params). rewrite lookup_app_r by lia.
      rewrite Nat.sub_diag. simpl. by destruct params. }
    repeat split. by eexists.
Qed.

Lemma enqueue_normalized_Ok params dup w w' :
  enqueue_normalized params dup w = Ok w' →
  (heap w' = heap w ∧ this w' = this w ∧ promises w' = promises w
   ∧ key (id params) ∈ tracked (this w) ∧ dup = false)
  ∨ (frame (heap w) (heap w')
     ∧ own_key (id params) = true
     ∧ length (heap w') = S (length (heap w))
     ∧ (∃ nxt, heap w' !! length (heap w) = Some (set_next nxt params))
     ∧ config (this w') = config (this w)
     ∧ tracked (this w') = {[ key (id params) ]} ∪ tracked (this w)
     ∧ tm_length (this w') = (tm_length (this w) + 1)%Z
     ∧ ∃ ps, promises w' = promises w ++ ps).
Proof.
  assert (∀ b : bool, this (if b then diag DEBUG w else w) = this w) as Hthis0
    by (by intros []).
  destruct (safe_id (id params)) eqn:Hsafe.
  2:{ unfold enqueue_normalized. by rewrite Hsafe. }
  destruct (decide (key (id params) ∈ tracked (this w))) as [Hin|Hnotin];
    [destruct dup|].
  2:{ unfold enqueue_normalized. rewrite Hsafe.
      simpl. rewrite Hthis0, bool_decide_eq_true_2 by done. simpl.
      intros [= <-]. left. by destruct (debug_task params). }
  all: destruct (member_name (key (id params))) eqn:Hmem.
  all: try (unfold enqueue_normalized; rewrite Hsafe, Hmem; simpl;
            rewrite Hthis0, ?bool_decide_eq_true_2, ?bool_decide_eq_false_2
              by done; simpl; discriminate).
  all: assert (own_key (id params) = true) as Hown
         by (unfold own_key; by rewrite Hsafe, Hmem).
  all: rewrite enqueue_normalized_accepted by auto.
  all: intros Hb; apply bind_Ok in Hb as (w1 & Hlink & Hw').
  all: apply link_task_Ok in Hlink
         as (Hf & Hlen & Hnew & Hc & Hk & Hl & ps & Hp).
  all: right.
  all: assert (∀ b : bool, heap (if b then diag DEBUG w else w) = heap w) as Hheap
         by (by intros []).
  all: assert (∀ b : bool, this (if b then diag DEBUG w else w) = this w) as Hthis
         by (by intros []).
  all: assert (∀ b : bool, promises (if b then diag DEBUG w else w) = promises w)
         as Hprom by (by intros []).
  all: simpl in Hf, Hlen, Hnew, Hc, Hk, Hl, Hp.
  all: rewrite ?Hheap, ?Hthis, ?Hprom in *.
  all: simpl in Hw'.
  all: destruct (10 <? tm_length (this w1) + 1)%Z; injection Hw' as <-; simpl.
  all: rewrite Hl; repeat split; try done; by exists ps.
Qed.

Lemma enqueueTask_config now params dup w w' :
  enqueueTask now params dup w = Ok w' → config (this w') = config (this w).
Proof.
  unfold enqueueTask. intros H.
  apply enqueue_normalized_Ok in H as [(_ & -> & _)|(_ & _ & _ & _ & Hc & _)]; done.
Qed.

Lemma demote_task_Ok a w w' :
  demote_task a w = Ok w' →
  ∃ t p, heap w !! a = Some t
       ∧ demote (taskPriority t) = Some p
       ∧ w' = with_heap (λ hp, <[a := set_taskPriority p t]> hp) w.
Proof.
  unfold demote_task. destruct (heap w !! a) as [t|] eqn:Ht; [|done].
  destruct (demote (taskPriority t)) as [p|] eqn:Hp; [|done]. intros [= <-].
  by exists t, p.
Qed.

Lemma retry_handler_Ok now a w w' :
  retry_handler now a w = Ok w' →
  ∃ t p params w_mid,
    heap w !! a = Some t
    ∧ demote (taskPriority t) = Some p
    ∧ params = normalize now (defaultTaskFunc (this w)) (next t)
                 (params_of (set_taskPriority p t))
    ∧ enqueue_normalized params true
        (mkWorld (<[a := params]> (<[a := set_taskPriority p t]> (heap w)))
                 (this w) (promises w) (trace w ++ [Diag ERROR])) = Ok w_mid
    ∧ skip w_mid = Ok w'.
Proof.
  unfold retry_handler. intros H. apply bind_Ok in H as (wd & Hdem & H).
  apply bind_Ok in H as (w1 & Hself & Hskip).
  apply demote_task_Ok in Hdem as (t & p & Ht & Hp & ->).
  unfold enqueueTask_self in Hself. simpl in Hself.
  assert (a < length (heap w)) as Ha by (by eapply lookup_lt_Some).
  rewrite list_lookup_insert_eq in Hself by done.
  eexists t, p, _, w1. split; [done|]. split; [done|]. split; [reflexivity|].
  split; [exact Hself|done].
Qed.

Lemma retry_handler_config now a w w' :
  retry_handler now a w = Ok w' → config (this w') = config (this w).
Proof.
  intros H. apply retry_handler_Ok in H as (t & p & params & w1 & _ & _ & _ & Hself & Hskip).
  apply skip_Ok in Hskip as (_ & Hc & _). rewrite Hc. clear Hc.
  apply enqueue_normalized_Ok in Hself as [(_ & -> & _)|(_ & _ & _ & _ & Hc & _)]; done.
Qed.

Lemma step_config act w w' :
  step act w = Ok w' → config (this w') = config (this w).
Proof.
  destruct act as [now params dup| |now i ok]; simpl.
  - apply enqueueTask_config.
  - intros H. by apply skip_Ok in H as (_ & Hc & _).
  - unfold settle. destruct (promises w !! i) as [p|]; [|by intros [= <-]].
    destruct ok.
    + unfold emit_ready. intros H.
      by apply on_ready_Ok in H as (t & _ & _ & _ & Hc & _).
    + destruct (pr_retry p); [|by intros [= <-]].
      intros H. by apply retry_handler_config in H.
Qed.

(** ** Every operation that returns keeps the world plain *)

Lemma frame_id hp hp' a t t' :
  frame hp hp' → hp !! a = Some t → hp' !! a = Some t' → id t' = id t.
Proof.
  intros Hf Ha Ha'. destruct (Hf _ _ Ha) as (t'' & Ht'' & E).
  rewrite Ha' in Ht''. injection Ht'' as <-. by rewrite E.
Qed.

Lemma plain_heap_frame hp hp' nxt params :
  frame hp hp' → length hp' = S (length hp) →
  hp' !! length hp = Some (set_next nxt params) →
  Forall (λ t, plain_id (id t) = true) hp →
  plain_id (id params) = true →
  Forall (λ t, plain_id (id t) = true) hp'.
Proof.
  intros Hf Hlen Hnew Hhp Hp. apply Forall_lookup. intros a t' Ha'.
  destruct (decide (a = length hp)) as [->|Hne].
  - rewrite Hnew in Ha'. by injection Ha' as <-.
  - assert (a < length hp) as Ha.
    { apply lookup_lt_Some in Ha'. lia. }
    destruct (lookup_lt_is_Some_2 hp a Ha) as [t Ht].
    rewrite (frame_id _ _ _ _ _ Hf Ht Ha').
    rewrite Forall_lookup in Hhp. by apply (Hhp a).
Qed.

Lemma enqueue_normalized_plain params dup w w' :
  plain w → plain_id (id params) = true →
  enqueue_normalized params dup w = Ok w' → plain w'.
Proof.
  intros Hplain Hid H.
  apply enqueue_normalized_Ok in H
    as [(Hh & Ht & _)|(Hf & _ & Hlen & (nxt & Hnew) & _ & Hk & _)].
  - apply (plain_same w); [done|by rewrite Ht|done].
  - apply (plain_track w w' (id params)); [done| |done|done].
    apply (plain_heap_frame (heap w) _ nxt params); try done.
    by destruct Hplain.
Qed.

Lemma on_ready_plain task w w' : plain w → on_ready task w = Ok w' → plain w'.
Proof.
  intros Hplain H. apply on_ready_Ok in H as (t & _ & _ & Hh & _ & Hk & _).
  by apply (plain_untrack w w' (key (id t))).
Qed.

Lemma skip_plain w w' : plain w → skip w = Ok w' → plain w'.
Proof.
  intros Hplain. unfold skip. destruct (0 <? tm_length (this w))%Z.
  - destruct (queue_head (this w)) as [h|]; [|done]. unfold emit_ready.
    by apply on_ready_plain.
  - by intros [= <-].
Qed.

Lemma retry_handler_plain now a w w' :
  plain w → retry_handler now a w = Ok w' → plain w'.
Proof.
  intros Hplain H.
  apply retry_handler_Ok in H as (t & p & params & w1 & Ht & _ & -> & Henq & Hskip).
  pose proof (plain_lookup _ _ _ Hplain Ht) as Hid.
  apply (skip_plain w1); [|done].
  apply enqueue_normalized_plain in Henq; [done| |].
  - destruct Hplain as (Hk & Hhp). split; [done|]. simpl.
    repeat apply plain_heap_insert; try done.
    unfold normalize, params_of. cbn [p_id id set_taskPriority].
    by rewrite (plain_id_truthy _ Hid).
  - unfold normalize, params_of. cbn [p_id id set_taskPriority].
    by rewrite (plain_id_truthy _ Hid).
Qed.

Lemma step_plain act w w' :
  plain w → plain_action act → step act w = Ok w' → plain w'.
Proof.
  intros Hplain Hact. destruct act as [now params dup| |now i ok]; simpl.
  - unfold enqueueTask. by apply enqueue_normalized_plain.
  - by apply skip_plain.
  - unfold settle. destruct (promises w !! i) as [p|]; [|by intros [= <-]].
    destruct ok.
    + unfold emit_ready. by apply on_ready_plain.
    + destruct (pr_retry p); [|by intros [= <-]].
      by apply retry_handler_plain.
Qed.

Lemma run_plain acts : ∀ w w',
  plain w → Forall plain_action acts → run acts w = Ok w' → plain w'.
Proof.
  induction acts as [|act acts IH]; intros w w' Hplain Hacts; simpl.
  - by intros [= <-].
  - apply Forall_cons in Hacts as (Hact & Hacts). intros H.
    apply bind_Ok in H as (w1 & Hstep & Hrun).
    apply (IH w1); [|done|done]. by apply (step_plain act w).
Qed.

Lemma plain_init name dflt debug : plain (init name dflt debug).
Proof. split; [intros k Hk; by apply elem_of_empty in Hk|constructor]. Qed.

(** ** Priorities stay safe *)

Lemma Forall_heap_frame (Q : TMTask → Prop) hp hp' nxt params :
  (∀ n t, Q t → Q (set_next n t)) →
  frame hp hp' → length hp' = S (length hp) →
  hp' !! length hp = Some (set_next nxt params) →
  Forall Q hp → Q params → Forall Q hp'.
Proof.
  intros HQ Hf Hlen Hnew Hhp Hp. apply Forall_lookup. intros a t' Ha'.
  destruct (decide (a = length hp)) as [->|Hne].
  - rewrite Hnew in Ha'. injection Ha' as <-. by apply HQ.
  - assert (a < length hp) as Ha.
    { apply lookup_lt_Some in Ha'. lia. }
    destruct (lookup_lt_is_Some_2 hp a Ha) as [t Ht].
    destruct (Hf _ _ Ht) as (t'' & Ht'' & E). rewrite Ha' in Ht''.
    injection Ht'' as <-. rewrite E. apply HQ.
    rewrite Forall_lookup in Hhp. by apply (Hhp a).
Qed.

Lemma demote_keeps_safe p q : demote p = Some q → safe q = true.
Proof.
  unfold demote. destruct (safe p) eqn:Hs; [|done]. intros [= <-].
  unfold safe in *. apply andb_true_iff in Hs as (H1%Z.leb_le & H2%Z.leb_le).
  destruct (Z.ltb_spec p 5); apply andb_true_iff; split; apply Z.leb_le; lia.
Qed.

Lemma enqueue_normalized_safe params dup w w' :
  safe_priorities w → safe (taskPriority params) = true →
  enqueue_normalized params dup w = Ok w' → safe_priorities w'.
Proof.
  unfold safe_priorities. intros Hs Hp H.
  apply enqueue_normalized_Ok in H
    as [(Hh & _)|(Hf & _ & Hlen & (nxt & Hnew) & _)].
  - by rewrite Hh.
  - by apply (Forall_heap_frame _ (heap w) _ nxt params).
Qed.

Lemma retry_handler_safe now a w w' :
  safe_priorities w → retry_handler now a w = Ok w' → safe_priorities w'.
Proof.
  intros Hs H.
  apply retry_handler_Ok in H as (t & p & params & w1 & Ht & Hp & -> & Henq & Hskip).
  apply demote_keeps_safe in Hp.
  apply skip_Ok in Hskip as (Hh & _). unfold safe_priorities. rewrite Hh.
  apply enqueue_normalized_safe in Henq; [done| |done].
  unfold safe_priorities. simpl. by repeat apply Forall_insert.
Qed.

Lemma step_safe dflt act w w' :
  safe_priorities w →
  match act with
  | Enqueue _ params _ => safe (priority_of params) = true
  | _ => True
  end →
  defaultTaskFunc (this w) = dflt →
  step act w = Ok w' → safe_priorities w'.
Proof.
  intros Hs Hact Hd. destruct act as [now params dup| |now i ok]; simpl.
  - unfold enqueueTask. by apply enqueue_normalized_safe.
  - intros H. apply skip_Ok in H as (Hh & _). unfold safe_priorities.
    by rewrite Hh.
  - unfold settle. destruct (promises w !! i) as [p|]; [|by intros [= <-]].
    destruct ok.
    + unfold emit_ready. intros H.
      apply on_ready_Ok in H as (t & _ & _ & Hh & _). unfold safe_priorities.
      by rewrite Hh.
    + destruct (pr_retry p); [|by intros [= <-]].
      by apply retry_handler_safe.
Qed.

(** ** Submissions and completions (C1) *)

Lemma frame_retry_of hp hp' a :
  frame hp hp' → a < length hp → retry_of hp' a = retry_of hp a.
Proof.
  intros Hf Ha. destruct (lookup_lt_is_Some_2 hp a Ha) as [t Ht].
  destruct (Hf _ _ Ht) as (t' & Ht' & E). unfold retry_of.
  rewrite Ht, Ht', E. done.
Qed.

Lemma enqueue_idle now params dup w :
  chain_of w [] →
  returns (defaultTaskFunc (this w)) params →
  plain_id (id_of now params) = true →
  key_of now params ∉ tracked (this w) ∨ dup = true →
  ∃ w',
    enqueueTask now params dup w = Ok w'
    ∧ chain_of w' [length (heap w)]
    ∧ heap w' = heap w ++ [normalize now (defaultTaskFunc (this w)) None params]
    ∧ promises w' = promises w ++ [mkPromise (length (heap w)) (p_retry params)]
    ∧ tracked (this w') = {[ key_of now params ]} ∪ tracked (this w)
    ∧ defaultTaskFunc (this w') = defaultTaskFunc (this w)
    ∧ completions (trace w') = completions (trace w).
Proof.
  intros (Hc & Htail & Hlen) Hret Hplain Hfresh. unfold enqueueTask.
  rewrite enqueue_normalized_accepted by (by try apply plain_id_own).
  assert (queue_head (this w) = None) as Hh by (by apply is_chain_head in Hc).
  rewrite link_task_idle by (by destruct (debug_task _)).
  set (p := normalize now (defaultTaskFunc (this w)) None params).
  assert (taskFunc p = Some Returns) as Hf by exact Hret.
  assert (debug_task p = p_debug_task params) as Hdbg by reflexivity.
  assert (retry p = p_retry params) as Hr by reflexivity.
  assert (key (id p) = key_of now params) as Hk by reflexivity.
  assert (next p = None) as Hn by reflexivity.
  clearbody p.
  unfold execute. simpl.
  assert (∀ b : bool, heap (if b then diag DEBUG w else w) = heap w) as Hheap
    by (by intros []).
  rewrite Hheap. rewrite lookup_app_r by lia. rewrite Nat.sub_diag. simpl.
  rewrite Hf. simpl. eexists. split; [reflexivity|].
  destruct (debug_task p); simpl; rewrite Hlen; simpl.
  all: unfold chain_of, is_chain; simpl.
  all: unfold next_of; rewrite lookup_app_r by lia; rewrite Nat.sub_diag; simpl.
  all: rewrite Hn, Hr, Hk, length_app; simpl.
  all: rewrite ?completions_app; simpl; rewrite ?app_nil_r.
  all: repeat split; try done; try lia.
  all: rewrite Hlen; simpl; lia.
Qed.

Lemma StronglySorted_ext {A} (R R' : A → A → Prop) l :
  (∀ a b, a ∈ l → b ∈ l → R a b → R' a b) →
  StronglySorted R l → StronglySorted R' l.
Proof.
  induction l as [|x l IH]; intros Himp Hs; [constructor|].
  apply StronglySorted_cons in Hs as (Hx & Hs). constructor.
  - apply IH; [|done]. intros a b Ha Hb. apply Himp; by right.
  - apply Forall_forall. intros b Hb. rewrite Forall_forall in Hx.
    apply Himp; [left|by right|auto].
Qed.

Lemma before_frame hp hp' a b :
  frame hp hp' → a < length hp → b < length hp →
  before hp a b → before hp' a b.
Proof.
  intros Hf Ha Hb. unfold before. by rewrite !(frame_priority hp hp').
Qed.

(** Ordered insertion keeps the waiting tasks sorted by priority, and by
    submission among equal priorities. *)
Lemma enqueue_keeps_order now params dup w h ws :
  chain_of w (h :: ws) →
  StronglySorted (before (heap w)) ws →
  plain_id (id_of now params) = true →
  key_of now params ∉ tracked (this w) ∨ dup = true →
  ∃ w' ws',
    enqueueTask now params dup w = Ok w'
    ∧ chain_of w' (h :: ws')
    ∧ StronglySorted (before (heap w')) ws'
    ∧ ws' ≡ₚ ws ++ [length (heap w)]
    ∧ frame (heap w) (heap w')
    ∧ length (heap w') = S (length (heap w))
    ∧ heap w' !! length (heap w)
      = Some (normalize now (defaultTaskFunc (this w))
                (next_of (heap w') (length (heap w))) params)
    ∧ promises w' = promises w
    ∧ tracked (this w') = {[ key_of now params ]} ∪ tracked (this w)
    ∧ defaultTaskFunc (this w') = defaultTaskFunc (this w)
    ∧ completions (trace w') = completions (trace w).
Proof.
  intros Hchain Hsorted Hplain Hfresh. unfold enqueueTask.
  set (p := normalize now (defaultTaskFunc (this w)) None params).
  destruct (enqueue_normalized_chain p dup w h ws Hchain)
    as (w' & ws1 & ws2 & Heq & -> & Hle & Hgt & Hc' & Hheap & Hk & Hd & Hp & Htr);
    [done|done|].
  destruct Hchain as (Hc & _ & _).
  pose proof (is_seg_allocated _ _ _ _ Hc) as Hall.
  apply Forall_cons in Hall as (Hh & Hall).
  assert (default h (last ws1) < length (heap w)) as Hq.
  { destruct (last ws1) as [q|] eqn:Hl; simpl; [|done].
    apply last_Some_elem_of in Hl. rewrite Forall_forall in Hall.
    apply Hall. apply elem_of_app. by left. }
  assert (frame (heap w) (heap w')) as Hframe.
  { rewrite Hheap. eapply frame_trans; [apply frame_alloc|apply frame_alter_next]. }
  assert (heap w' !! length (heap w) = Some (set_next (head ws2) p)) as Hnew.
  { rewrite Hheap. rewrite list_lookup_alter_ne by lia.
    rewrite lookup_app_r by lia. by rewrite Nat.sub_diag. }
  assert (priority (heap w') (length (heap w)) = taskPriority p) as Hpn.
  { unfold priority. by rewrite Hnew. }
  rewrite Forall_forall in Hall.
  assert (∀ a, a ∈ ws1 ++ ws2 → priority (heap w') a = priority (heap w) a) as Hpo.
  { intros a Ha. apply frame_priority; auto. }
  exists w', (ws1 ++ length (heap w) :: ws2). split; [done|]. split; [done|].
  split.
  { apply StronglySorted_app in Hsorted as (Hcross & Hs1 & Hs2).
    assert (∀ c, c ∈ ws2 → (taskPriority p < priority (heap w) c)%Z) as Hgt_all.
    { destruct ws2 as [|b ws2]; [by intros c Hc0%elem_of_nil|].
      intros c Hin. apply elem_of_cons in Hin as [->|Hin]; [done|].
      apply StronglySorted_cons in Hs2 as (Hb & _).
      rewrite Forall_forall in Hb. destruct (Hb c Hin) as [?|[? _]]; lia. }
    apply StronglySorted_app_2.
    - intros x1 x2 Hx1 Hx2. apply elem_of_cons in Hx2 as [->|Hx2].
      + rewrite Forall_forall in Hle. specialize (Hle x1 Hx1).
        assert (x1 < length (heap w)) by (apply Hall, elem_of_app; by left).
        unfold before. rewrite Hpn, Hpo by (apply elem_of_app; by left). lia.
      + apply (before_frame (heap w)); [done|..].
        * apply Hall, elem_of_app; by left.
        * apply Hall, elem_of_app; by right.
        * by apply Hcross.
    - eapply StronglySorted_ext; [|exact Hs1]. intros a b Ha Hb.
      apply before_frame; [done|apply Hall, elem_of_app; by left..].
    - constructor.
      + eapply StronglySorted_ext; [|exact Hs2]. intros a b Ha Hb.
        apply before_frame; [done|apply Hall, elem_of_app; by right..].
      + apply Forall_forall. intros c Hin. left.
        rewrite Hpn, Hpo by (apply elem_of_app; by right). by apply Hgt_all. }
  split.
  { rewrite <- app_assoc. apply Permutation_app_head.
    apply Permutation_cons_append. }
  split; [done|]. split.
  { rewrite Hheap, length_alter, length_app. simpl. lia. }
  split.
  { rewrite Hnew. f_equal. unfold next_of. rewrite Hnew. reflexivity. }
  split; [done|]. split; [done|]. split; [done|].
  rewrite Htr, !completions_app.
  destruct (debug_task p), (10 <? _)%Z; simpl; by rewrite ?app_nil_r.
Qed.

Lemma submit_batch subs : ∀ w h ws,
  chain_of w (h :: ws) →
  StronglySorted (before (heap w)) ws →
  NoDup (map (λ s, key_of s.1 s.2) subs) →
  Forall (λ s, plain_id (id_of s.1 s.2) = true) subs →
  Forall (λ s, key_of s.1 s.2 ∉ tracked (this w)) subs →
  ∃ w' ws',
    run (submit subs) w = Ok w'
    ∧ chain_of w' (h :: ws')
    ∧ StronglySorted (before (heap w')) ws'
    ∧ ws' ≡ₚ ws ++ seq (length (heap w)) (length subs)
    ∧ frame (heap w) (heap w')
    ∧ length (heap w') = length (heap w) + length subs
    ∧ (∀ i s, subs !! i = Some s →
         ∃ t, heap w' !! (length (heap w) + i) = Some t
            ∧ taskPriority t = priority_of s.2
            ∧ taskFunc t = taskFunc (normalize 0 (defaultTaskFunc (this w)) None s.2)
            ∧ retry t = p_retry s.2)
    ∧ promises w' = promises w
    ∧ defaultTaskFunc (this w') = defaultTaskFunc (this w)
    ∧ completions (trace w') = completions (trace w).
Proof.
  induction subs as [|s subs IH]; intros w h ws Hchain Hsorted Hnd Hplain Hfresh.
  - exists w, ws. simpl. rewrite app_nil_r, Nat.add_0_r.
    split; [done|]. split; [done|]. split; [done|]. split; [done|].
    split; [apply frame_refl|]. split; [done|]. split; [|done].
    intros i s Hi. by rewrite lookup_nil in Hi.
  - apply NoDup_cons in Hnd as (Hs_notin & Hnd).
    apply Forall_cons in Hfresh as (Hs_fresh & Hfresh).
    apply Forall_cons in Hplain as (Hs_plain & Hplain).
    destruct (enqueue_keeps_order s.1 s.2 false w h ws Hchain Hsorted)
      as (w1 & ws1 & Heq1 & Hc1 & Hs1 & Hperm1 & Hf1 & Hlen1 & Hnew1 & Hp1
          & Hk1 & Hd1 & Htr1); [done|by left|].
    destruct (IH w1 h ws1 Hc1 Hs1 Hnd Hplain)
      as (w' & ws' & Hrun & Hc' & Hs' & Hperm' & Hf' & Hlen' & Hnew' & Hp'
          & Hd' & Htr').
    { rewrite Hk1. apply Forall_forall. intros s' Hin.
      rewrite Forall_forall in Hfresh. specialize (Hfresh s' Hin).
      assert (key_of s'.1 s'.2 ≠ key_of s.1 s.2) as Hne.
      { intros Heq. apply Hs_notin. rewrite <- Heq.
        apply (list_elem_of_fmap_2 (λ s, key_of s.1 s.2)). done. }
      intros [Hin'%elem_of_singleton|Hin']%elem_of_union; done. }
    exists w', ws'. split.
    { simpl. rewrite Heq1. simpl. exact Hrun. }
    split; [done|]. split; [done|]. split.
    { rewrite Hperm', Hperm1, Hlen1. simpl. by rewrite <- app_assoc. }
    split; [by eapply frame_trans|]. split; [simpl; lia|]. split.
    { intros [|i] s' Hi; simpl in Hi.
      - injection Hi as <-. rewrite Nat.add_0_r.
        destruct (Hf' _ _ Hnew1) as (t' & Ht' & Et'). exists t'.
        split; [done|]. rewrite Et'. done.
      - destruct (Hnew' i s' Hi) as (t & Ht & Hpt & Hft & Hrt). exists t.
        rewrite Hlen1 in Ht. replace (length (heap w) + S i)
          with (S (length (heap w)) + i) by lia.
        rewrite <- Hd1. done. }
    split; [by rewrite Hp'|]. split; [by rewrite Hd'|]. by rewrite Htr'.
Qed.

Lemma drain_chain l : ∀ w,
  chain_of w l →
  plain w →
  promises w = pending_of (heap w) l →
  Forall (runnable (heap w)) l →
  ∃ w',
    run (drain (length l)) w = Ok w'
    ∧ completions (trace w') = completions (trace w) ++ l
    ∧ chain_of w' []
    ∧ promises w' = []
    ∧ heap w' = heap w.
Proof.
  induction l as [|h ws IH]; intros w Hchain Hplain Hp Hrun.
  - exists w. simpl. by rewrite app_nil_r.
  - apply Forall_cons in Hrun as (Hrunh & Hrunws).
    set (w0 := mkWorld (heap w) (this w) [] (trace w)).
    assert (settle 0 0 true w = emit_ready h w0) as Hsettle.
    { unfold settle. rewrite Hp. simpl. reflexivity. }
    destruct (emit_ready_head w0 h ws)
      as (w1 & t & Ht & Heq & Hc1 & Hheap1 & Hk1 & _ & Hp1 & Htr1).
    { exact Hchain. }
    { exact Hplain. }
    { intros b Hb. rewrite Forall_forall in Hrunws. apply Hrunws.
      by apply head_Some_elem_of. }
    simpl in Hheap1, Hp1, Htr1, Hk1.
    destruct (IH w1 Hc1) as (w' & Hrun' & Htr' & Hc' & Hp' & Hheap').
    { by apply (plain_untrack w w1 (key (id t))). }
    { by rewrite Hheap1. }
    { by rewrite Hheap1. }
    exists w'. split.
    { simpl. rewrite Hsettle, Heq. simpl. exact Hrun'. }
    split.
    { rewrite Htr', Htr1, completions_app. simpl.
      rewrite <- app_assoc. f_equal. simpl. f_equal.
      by destruct ws. }
    split; [done|]. split; [done|]. by rewrite Hheap'.
Qed.




(** ** The queue stays in order as long as nobody calls [skip()] *)

Lemma insert_sorted hp hp' ws1 ws2 n p :
  waiting_sorted hp (ws1 ++ ws2) →
  Forall (λ a, (priority hp a <= p)%Z) ws1 →
  match ws2 with
  | [] => True
  | b :: _ => (p < priority hp b)%Z
  end →
  Forall (λ a, priority hp' a = priority hp a) (ws1 ++ ws2) →
  priority hp' n = p →
  waiting_sorted hp' (ws1 ++ n :: ws2).
Proof.
  intros Hs Hle Hgt Hsame Hn. unfold waiting_sorted in *.
  rewrite Forall_forall in Hsame.
  assert (StronglySorted (λ a b, (priority hp' a <= priority hp' b)%Z) (ws1 ++ ws2))
    as Hs'.
  { eapply StronglySorted_ext; [|exact Hs]. intros a b Ha Hb.
    by rewrite !Hsame. }
  apply StronglySorted_app in Hs' as (Hcross & Hs1 & Hs2).
  assert (∀ c, c ∈ ws2 → (p < priority hp' c)%Z) as Hgt_all.
  { destruct ws2 as [|b ws2]; [by intros c Hc%elem_of_nil|].
    intros c Hin. rewrite <- (Hsame b) in Hgt by (apply elem_of_app; right; left).
    apply elem_of_cons in Hin as [->|Hin]; [done|].
    apply StronglySorted_cons in Hs2 as (Hb & _).
    rewrite Forall_forall in Hb. specialize (Hb c Hin). lia. }
  apply StronglySorted_app_2; [|done|].
  - intros x1 x2 Hx1 Hx2. apply elem_of_cons in Hx2 as [->|Hx2]; [|by apply Hcross].
    rewrite Forall_forall in Hle. specialize (Hle x1 Hx1).
    rewrite Hn, Hsame by (apply elem_of_app; by left). done.
  - constructor; [done|]. apply Forall_forall. intros c Hc. rewrite Hn.
    specialize (Hgt_all c Hc). lia.
Qed.

Lemma waiting_sorted_tail hp l : waiting_sorted hp l → waiting_sorted hp (tail l).
Proof.
  destruct l as [|a l]; [done|]. simpl. intros H.
  by apply StronglySorted_cons in H as (_ & H).
Qed.

Lemma consistent_enqueue now params dup dflt w l :
  consistent w l → defaultTaskFunc (this w) = dflt → returns dflt params →
  plain_id (id_of now params) = true →
  ∃ w' l', enqueueTask now params dup w = Ok w' ∧ consistent w' l'.
Proof.
  intros (Hchain & Hprom & Hrun & Hsorted) Hd Hret Hid.
  destruct (decide (key_of now params ∈ tracked (this w) ∧ dup = false))
    as [[Hin ->]|Hacc].
  { rewrite (enqueue_dropped now params w (plain_id_safe _ Hid) Hin). eexists _, l.
    split; [reflexivity|]. by destruct (p_debug_task params). }
  assert (key_of now params ∉ tracked (this w) ∨ dup = true) as Hfresh.
  { destruct dup; [by right|]. left. intros Hin. by apply Hacc. }
  destruct l as [|h ws].
  - destruct (enqueue_idle now params dup w Hchain) as
      (w' & Heq & Hc' & Hheap & Hp' & _ & _ & _); [by rewrite Hd|done|done|].
    exists w', [length (heap w)]. split; [done|].
    assert (heap w' !! length (heap w)
            = Some (normalize now (defaultTaskFunc (this w)) None params)) as Hnew.
    { rewrite Hheap, lookup_app_r by lia. by rewrite Nat.sub_diag. }
    split; [done|]. split; [|split].
    + left. rewrite Hp'. unfold pending_of, retry_of. rewrite Hnew. simpl.
      by destruct Hprom as [-> | ->].
    + constructor; [|constructor]. eexists. split; [exact Hnew|].
      rewrite Hd. exact Hret.
    + constructor.
  - set (p := normalize now (defaultTaskFunc (this w)) None params).
    destruct (enqueue_normalized_chain p dup w h ws Hchain Hid Hfresh)
      as (w' & ws1 & ws2 & Heq & -> & Hle & Hgt & Hc' & Hheap & _ & _ & Hp' & _).
    exists w', (h :: ws1 ++ length (heap w) :: ws2). split; [done|].
    destruct Hchain as (Hc & _ & _).
    pose proof (is_seg_allocated _ _ _ _ Hc) as Hall.
    assert (default h (last ws1) < length (heap w)) as Hq.
    { apply Forall_cons in Hall as (Hh & Hall).
      destruct (last ws1) as [q|] eqn:Hl; simpl; [|done].
      apply last_Some_elem_of in Hl. rewrite Forall_forall in Hall.
      apply Hall. apply elem_of_app. by left. }
    assert (frame (heap w) (heap w')) as Hframe.
    { rewrite Hheap. eapply frame_trans; [apply frame_alloc|apply frame_alter_next]. }
    assert (heap w' !! length (heap w) = Some (set_next (head ws2) p)) as Hnew.
    { rewrite Hheap. rewrite list_lookup_alter_ne by lia.
      rewrite lookup_app_r by lia. by rewrite Nat.sub_diag. }
    split; [done|]. split; [|split].
    + rewrite Hp'. destruct Hprom as [-> | ->]; [left|by right]. simpl.
      rewrite (frame_retry_of (heap w) (heap w')); [done|done|].
      by apply Forall_cons in Hall as (Hh & _).
    + apply Forall_cons in Hrun as (Hrh & Hrws).
      apply Forall_app in Hrws as (Hr1 & Hr2).
      constructor; [by eapply frame_runnable|]. apply Forall_app. split.
      * eapply Forall_impl; [exact Hr1|]. intros a. by apply frame_runnable.
      * constructor.
        -- eexists. split; [exact Hnew|]. simpl. rewrite Hd. exact Hret.
        -- eapply Forall_impl; [exact Hr2|]. intros a. by apply frame_runnable.
    + simpl. simpl in Hsorted.
      apply (insert_sorted (heap w) (heap w') ws1 ws2 _ (taskPriority p));
        try done.
      * apply Forall_cons in Hall as (_ & Hall).
        eapply Forall_impl; [exact Hall|]. intros a Ha. by apply frame_priority.
      * unfold priority. by rewrite Hnew.
Qed.

Lemma consistent_settle now i ok w l :
  consistent w l → plain w → safe_priorities w →
  ∃ w' l', settle now i ok w = Ok w' ∧ consistent w' l'.
Proof.
  intros (Hchain & Hprom & Hrun & Hsorted) Hplain Hsafe. unfold settle.
  destruct (promises w !! i) as [p|] eqn:Hi.
  2:{ exists w, l. done. }
  destruct Hprom as [Hprom|Hprom]; [|by rewrite Hprom in Hi].
  destruct l as [|h ws]; [by rewrite Hprom in Hi|].
  rewrite Hprom in Hi. destruct i as [|i]; [|done]. simpl in Hi.
  injection Hi as <-. rewrite Hprom. simpl.
  set (w0 := mkWorld (heap w) (this w) [] (trace w)).
  assert (chain_of w0 (h :: ws)) as Hc0 by done.
  assert (plain w0) as Hplain0 by done.
  apply Forall_cons in Hrun as Hrun'. destruct Hrun' as (Hrh & Hrws).
  destruct ok.
  - destruct (emit_ready_head w0 h ws Hc0 Hplain0)
      as (w1 & t & Ht & Heq & Hc1 & Hheap1 & _ & _ & Hp1 & _).
    { intros b Hb. rewrite Forall_forall in Hrws. apply Hrws.
      by apply head_Some_elem_of. }
    exists w1, ws. split; [done|]. split; [done|]. rewrite Hheap1.
    split; [by left|]. split; [done|]. by apply waiting_sorted_tail.
  - destruct (retry_of (heap w) h) eqn:Hretry.
    + assert (safe (priority (heap w) h) = true) as Hsh.
      { destruct Hrh as (t & Ht & _). unfold priority. rewrite Ht.
        unfold safe_priorities in Hsafe. rewrite Forall_lookup in Hsafe.
        by apply (Hsafe h). }
      destruct (retry_handler_chain now w0 h ws Hc0 Hplain0 Hrun Hsh)
        as (p' & w' & ws1 & ws2 & _ & Hret & -> & Hle & Hgt & Hc' & _
            & _ & Hpn & _ & Hsame & Hrun' & Hp' & _).
      exists w', (ws1 ++ length (heap w) :: ws2). split; [done|].
      split; [done|]. split; [by left|]. split; [done|].
      apply waiting_sorted_tail.
      by apply (insert_sorted (heap w) (heap w') ws1 ws2 _ p').
    + exists w0, (h :: ws). split; [done|]. split; [done|]. split; [by right|].
      done.
Qed.

(** X2. From a fresh manager, run any sequence of submissions (each under a
    plain id, with a safe integer for its priority and a work function that
    returns, with or without the bypass flag) and of settlements of pending
    results (fulfilled or rejected, with or without retry), with no call of
    [skip()].  Every operation returns, and afterwards the queue is in
    order: the chain from head is a finite list [l] whose last node is
    [tail] and whose number of nodes is [length]; at most one result is
    pending, that of the head; the waiting tasks are in non-decreasing
    priority order. *)
Theorem queue_in_order_without_skip (name : option string)
    (dflt : option TaskFunc) (debug : bool) (acts : list Action) :
  Forall (quiet dflt) acts →
  ∃ w' l, run acts (init name dflt debug) = Ok w' ∧ consistent w' l.
Proof.
  intros Hq.
  assert (∀ w l, consistent w l → plain w → safe_priorities w →
            defaultTaskFunc (this w) = dflt →
            ∃ w' l', run acts w = Ok w' ∧ consistent w' l') as Hgen.
  { induction acts as [|act acts IH]; intros w l Hc Hplain Hsafe Hd.
    - exists w, l. done.
    - apply Forall_cons in Hq as (Hact & Hq).
      assert (∃ w1 l1, step act w = Ok w1 ∧ consistent w1 l1)
        as (w1 & l1 & Hstep & Hc1).
      { destruct act as [now params dup| |now i ok]; [|done|].
        - destruct Hact as (Hret & Hid & _).
          by apply (consistent_enqueue now params dup dflt w l).
        - by apply (consistent_settle now i ok w l). }
      destruct (IH Hq w1 l1 Hc1) as (w' & l' & Hrun & Hc').
      { apply (step_plain act w); [done| |done].
        destruct act as [now params dup| |now i ok]; [|done..].
        by destruct Hact as (_ & Hid & _). }
      { apply (step_safe dflt act w); [done| |done|done].
        destruct act as [now params dup| |now i ok]; [|done..].
        by destruct Hact as (_ & _ & Hp). }
      { apply step_config in Hstep. unfold config in Hstep.
        injection Hstep as _ Hdd _. by rewrite Hdd. }
      exists w', l'. simpl. rewrite Hstep. done. }
  apply (Hgen _ []); [|apply plain_init|constructor|done].
  split; [by repeat split|]. split; [by left|]. split; constructor.
Qed.

Lemma queue_in_order_without_skip_witness :
  ∃ w' l,
    run [Enqueue 1 taskR false; Enqueue 2 taskN false; Enqueue 3 taskN true;
         Settle 4 0 false; Settle 5 0 true] (init None None false) = Ok w'
    ∧ consistent w' l.
Proof.
  apply (queue_in_order_without_skip None None false
           [Enqueue 1 taskR false; Enqueue 2 taskN false; Enqueue 3 taskN true;
            Settle 4 0 false; Settle 5 0 true]).
  repeat constructor.
Defined.

(** ** Starting and draining the queue *)

(** X1. On an idle plain manager in order, an accepted submission under a
    plain id whose work function returns becomes head and tail and is
    dispatched inside [enqueueTask] itself, after its id is tracked and
    before [length] is incremented: its work function finds the manager
    with the id tracked, the task as head and tail, and [length] as it was,
    which is 0.  [length] is 1 when [enqueueTask] returns, with the task's
    result pending. *)
Theorem enqueue_starts_idle_queue (now : Z) (params : TMTaskParams) (dup : bool)
    (w : World) :
  chain_of w [] →
  plain w →
  returns (defaultTaskFunc (this w)) params →
  plain_id (id_of now params) = true →
  key_of now params ∉ tracked (this w) ∨ dup = true →
  ∃ w',
    enqueueTask now params dup w = Ok w'
    ∧ queue_head (this w') = Some (length (heap w))
    ∧ queue_tail (this w') = Some (length (heap w))
    ∧ tm_length (this w') = 1%Z
    ∧ heap w' = heap w ++ [normalize now (defaultTaskFunc (this w)) None params]
    ∧ promises w' = promises w ++ [mkPromise (length (heap w)) (p_retry params)]
    ∧ tracked (this w') = {[ key_of now params ]} ∪ tracked (this w)
    ∧ trace w' = trace w
                 ++ (if p_debug_task params then [Diag DEBUG] else [])
                 ++ [Diag LOG; Diag LOG; Diag DEBUG;
                     Exec (length (heap w))
                       (set_tail (Some (length (heap w)))
                          (set_head (Some (length (heap w)))
                             (set_tracked ({[ key_of now params ]}
                                           ∪ tracked (this w)) (this w))))]
    ∧ tm_length (this w) = 0%Z.
Proof.
  intros (Hc & Htail & Hlen) _ Hret Hplain Hfresh. unfold enqueueTask.
  rewrite enqueue_normalized_accepted by (by try apply plain_id_own).
  assert (queue_head (this w) = None) as Hh by (by apply is_chain_head in Hc).
  rewrite link_task_idle by (by destruct (debug_task _)).
  set (p := normalize now (defaultTaskFunc (this w)) None params).
  assert (taskFunc p = Some Returns) as Hf by exact Hret.
  assert (debug_task p = p_debug_task params) as Hdbg by reflexivity.
  assert (retry p = p_retry params) as Hr by reflexivity.
  assert (key (id p) = key_of now params) as Hk by reflexivity.
  clearbody p.
  unfold execute. simpl.
  assert (∀ b : bool, heap (if b then diag DEBUG w else w) = heap w) as Hheap
    by (by intros []).
  rewrite Hheap. rewrite lookup_app_r by lia. rewrite Nat.sub_diag. simpl.
  rewrite Hf. simpl. eexists. split; [reflexivity|].
  rewrite <- Hdbg.
  destruct (debug_task p); simpl; rewrite Hlen; simpl; rewrite Hr, Hk.
  all: repeat (split; [done|]).
  all: split; [rewrite Hlen; simpl; lia|].
  all: repeat (split; [done|]).
  all: split; [|done].
  all: by rewrite <- !app_assoc.
Qed.

Lemma enqueue_starts_idle_queue_witness :
  ∃ w',
    enqueueTask 1 taskA false idle = Ok w'
    ∧ queue_head (this w') = Some (length (heap idle))
    ∧ queue_tail (this w') = Some (length (heap idle))
    ∧ tm_length (this w') = 1%Z
    ∧ heap w' = heap idle ++ [normalize 1 (defaultTaskFunc (this idle)) None taskA]
    ∧ promises w' = promises idle ++ [mkPromise (length (heap idle)) (p_retry taskA)]
    ∧ tracked (this w') = {[ key_of 1 taskA ]} ∪ tracked (this idle)
    ∧ trace w' = trace idle
                 ++ (if p_debug_task taskA then [Diag DEBUG] else [])
                 ++ [Diag LOG; Diag LOG; Diag DEBUG;
                     Exec (length (heap idle))
                       (set_tail (Some (length (heap idle)))
                          (set_head (Some (length (heap idle)))
                             (set_tracked ({[ key_of 1 taskA ]}
                                           ∪ tracked (this idle))
                                (this idle))))]
    ∧ tm_length (this idle) = 0%Z.
Proof.
  apply (enqueue_starts_idle_queue 1%Z taskA false idle).
  - by repeat split.
  - apply plain_init.
  - reflexivity.
  - reflexivity.
  - left. apply not_elem_of_empty.
Defined.

Lemma signals_advance m ws :
  signals (advance_events m ws)
  = match ws with
    | [] => [Complete (set_tail None m)]
    | _ :: _ => []
    end.
Proof. by destruct ws. Qed.

(** The manager that the listeners of [complete] find when a queue in step
    has been drained: idle, with [length] still 1. *)
Lemma drain_signals ws : ∀ h w,
  chain_of w (h :: ws) →
  plain w →
  promises w = pending_of (heap w) (h :: ws) →
  Forall (runnable (heap w)) (h :: ws) →
  ∃ w',
    run (drain (length (h :: ws))) w = Ok w'
    ∧ signals (trace w')
      = signals (trace w) ++ (Ready <$> h :: ws)
        ++ [Complete (set_length 1 (this w'))]
    ∧ chain_of w' []
    ∧ promises w' = []
    ∧ heap w' = heap w.
Proof.
  induction ws as [|b ws IH]; intros h w Hchain Hplain Hp Hrun.
  - apply Forall_cons in Hrun as (Hrunh & _).
    set (w0 := mkWorld (heap w) (this w) [] (trace w)).
    assert (settle 0 0 true w = emit_ready h w0) as Hsettle.
    { unfold settle. rewrite Hp. simpl. reflexivity. }
    destruct (chain_of_head_task _ _ _ Hchain) as (t & Ht & Hnext & Hhead).
    pose proof (plain_lookup _ _ _ Hplain Ht) as Hid.
    assert (emit_ready h w0
            = Ok (mkWorld (heap w)
                    (mkTM (tmName (this w)) (defaultTaskFunc (this w))
                          (debug_tasks (this w)) None None (tm_length (this w) - 1)
                          (tracked (this w) ∖ {[ key (id t) ]}))
                    []
                    (trace w ++ [Ready h; Diag INFO; Diag INFO;
                                 Complete (set_tail None (released t (this w)))])))
      as Heq.
    { unfold emit_ready. rewrite (on_ready_last h t) by done. simpl.
      by rewrite <- app_assoc. }
    eexists. split.
    { simpl. rewrite Hsettle, Heq. done. }
    destruct Hchain as (_ & _ & Hlen). simpl in Hlen. simpl.
    split; [|by repeat split; rewrite ?Hlen].
    rewrite signals_app. simpl. repeat f_equal.
    unfold set_length, set_tail, released, set_head, set_tracked. simpl.
    rewrite Hnext, Hlen. done.
  - apply Forall_cons in Hrun as (Hrunh & Hrunws).
    set (w0 := mkWorld (heap w) (this w) [] (trace w)).
    assert (settle 0 0 true w = emit_ready h w0) as Hsettle.
    { unfold settle. rewrite Hp. simpl. reflexivity. }
    destruct (emit_ready_head w0 h (b :: ws))
      as (w1 & t & Ht & Heq & Hc1 & Hheap1 & Hk1 & _ & Hp1 & Htr1); [done|done| |].
    { intros b' [= <-]. by apply Forall_cons in Hrunws as (? & _). }
    simpl in Hp1, Htr1, Hheap1, Hk1.
    destruct (IH b w1 Hc1) as (w' & Hrun' & Htr' & Hc' & Hp' & Hheap').
    { by apply (plain_untrack w w1 (key (id t))). }
    { by rewrite Hheap1. }
    { by rewrite Hheap1. }
    exists w'. split.
    { change (drain (length (h :: b :: ws)))
        with (Settle 0 0 true :: drain (length (b :: ws))).
      cbn [run step]. rewrite Hsettle, Heq. cbn [bind]. exact Hrun'. }
    split; [|by rewrite Hheap'].
    rewrite Htr', Htr1, signals_app. simpl. by rewrite <- app_assoc.
Qed.

(** X3. A plain queue in order that holds at least one task and is left to
    complete task by task: [ready] fires once per task, in chain order, and
    then [complete] fires exactly once, as the last event; its listeners
    find the manager idle (head and tail are null, no id of the chain is
    tracked any more) but with [length] still 1.  The manager is idle again
    afterwards, with [length] 0. *)
Theorem drain_fires_complete_once (w : World) (l : list addr) :
  l ≠ [] →
  chain_of w l →
  plain w →
  promises w = pending_of (heap w) l →
  Forall (runnable (heap w)) l →
  ∃ w',
    run (drain (length l)) w = Ok w'
    ∧ signals (trace w')
      = signals (trace w) ++ (Ready <$> l) ++ [Complete (set_length 1 (this w'))]
    ∧ chain_of w' []
    ∧ promises w' = [].
Proof.
  intros Hne Hc Hplain Hp Hr. destruct l as [|h ws]; [done|].
  destruct (drain_signals ws h w Hc Hplain Hp Hr) as (w' & H1 & H2 & H3 & H4 & _).
  by exists w'.
Qed.

Lemma drain_fires_complete_once_witness :
  ∃ w',
    run (drain (length [0; 1])) world_AB = Ok w'
    ∧ signals (trace w')
      = signals (trace world_AB) ++ (Ready <$> [0; 1])
        ++ [Complete (set_length 1 (this w'))]
    ∧ chain_of w' []
    ∧ promises w' = [].
Proof.
  apply (drain_fires_complete_once world_AB [0; 1]).
  - discriminate.
  - repeat split; vm_compute; first [reflexivity | lia].
  - unfold plain. apply (bool_decide_unpack _). vm_compute. exact I.
  - vm_compute. reflexivity.
  - repeat constructor; eexists; split; vm_compute; reflexivity.
Defined.

(** ** [skip()] on a queue in order *)

(** X4. [skip()] on a plain queue in order retires the head at once, without
    calling its work function, and starts the next task; but it does not
    cancel the pending result of the skipped head, so two results are
    pending afterwards.  When the skipped head's result is fulfilled later,
    [ready] fires for it a second time: head is set to its successor again,
    the successor's work function is called once more, and [length] is
    decremented once more, which leaves it one below the number of linked
    tasks. *)
Theorem skip_leaves_result_pending (now : Z) (w : World) (h b : addr)
    (ws : list addr) :
  chain_of w (h :: b :: ws) →
  plain w →
  promises w = pending_of (heap w) (h :: b :: ws) →
  runnable (heap w) b →
  ∃ w1 w2 t,
    heap w !! h = Some t
    ∧ skip w = Ok w1
    ∧ chain_of w1 (b :: ws)
    ∧ promises w1 = [mkPromise h (retry_of (heap w) h);
                     mkPromise b (retry_of (heap w) b)]
    ∧ trace w1 = trace w ++ [Diag WARN; Ready h; Diag INFO; Diag INFO; Diag DEBUG;
                             Exec b (released t (this w))]
    ∧ settle now 0 true w1 = Ok w2
    ∧ is_chain (heap w2) (queue_head (this w2)) (b :: ws)
    ∧ tm_length (this w2) = (Z.of_nat (length (b :: ws)) - 1)%Z
    ∧ promises w2 = [mkPromise b (retry_of (heap w) b);
                     mkPromise b (retry_of (heap w) b)]
    ∧ completions (trace w2) = completions (trace w) ++ [h; h].
Proof.
  intros Hchain Hplain Hp Hrunb.
  destruct (skip_head w h (b :: ws) Hchain Hplain)
    as (w1 & t & Ht & Hskip & Hc1 & Hheap1 & _ & _ & Hp1 & Htr1).
  { by intros b' [= <-]. }
  pose proof (plain_lookup _ _ _ Hplain Ht) as Hid.
  destruct (chain_of_head_task _ _ _ Hchain) as (t' & Ht' & Hnext & _).
  rewrite Ht in Ht'. injection Ht' as <-. simpl in Hnext.
  destruct Hrunb as (tb & Htb & Hfb).
  rewrite Hp in Hp1. simpl in Hp1, Htr1.
  set (w1' := mkWorld (heap w1) (this w1) (delete 0 (promises w1)) (trace w1)).
  assert (settle now 0 true w1 = on_ready h (emit_event (Ready h) w1')) as Hsettle.
  { unfold settle. rewrite Hp1. simpl. unfold emit_ready, w1'. by rewrite Hp1. }
  pose proof (on_ready_next h t b tb (emit_event (Ready h) w1')) as Hready.
  simpl in Hready. rewrite Hheap1 in Hready.
  specialize (Hready Ht Hid Hnext Htb Hfb).
  eexists w1, _, t. split; [done|]. split; [done|]. split; [done|]. split; [done|].
  split; [done|]. split; [by rewrite Hsettle, Hready|]. simpl.
  destruct Hc1 as (Hc1 & _ & Hlen1). rewrite Hheap1 in Hc1.
  split; [by apply is_chain_head in Hc1 as Hh; rewrite Hh in Hc1|].
  split; [by rewrite Hlen1|]. rewrite Hp1. simpl. unfold retry_of at 3.
  rewrite Htb. split; [done|].
  rewrite !completions_app, Htr1, !completions_app. simpl.
  by rewrite app_nil_r, <- app_assoc.
Qed.

Lemma skip_leaves_result_pending_witness :
  ∃ w1 w2 t,
    heap world_AB !! 0 = Some t
    ∧ skip world_AB = Ok w1
    ∧ chain_of w1 [1]
    ∧ promises w1 = [mkPromise 0 (retry_of (heap world_AB) 0);
                     mkPromise 1 (retry_of (heap world_AB) 1)]
    ∧ trace w1 = trace world_AB
                 ++ [Diag WARN; Ready 0; Diag INFO; Diag INFO; Diag DEBUG;
                     Exec 1 (released t (this world_AB))]
    ∧ settle 3 0 true w1 = Ok w2
    ∧ is_chain (heap w2) (queue_head (this w2)) [1]
    ∧ tm_length (this w2) = (Z.of_nat (length [1]) - 1)%Z
    ∧ promises w2 = [mkPromise 1 (retry_of (heap world_AB) 1);
                     mkPromise 1 (retry_of (heap world_AB) 1)]
    ∧ completions (trace w2) = completions (trace world_AB) ++ [0; 0].
Proof.
  apply (skip_leaves_result_pending 3%Z world_AB 0 1 []).
  - repeat split; vm_compute; first [reflexivity | lia].
  - unfold plain. apply (bool_decide_unpack _). vm_compute. exact I.
  - vm_compute. reflexivity.
  - eexists. split; vm_compute; reflexivity.
Defined.

(** ** The tracked ids *)

Lemma difference_union_singleton (k : string) (T : gset string) :
  ({[ k ]} ∪ T) ∖ {[ k ]} = T ∖ {[ k ]}.
Proof.
  apply set_eq. intros x.
  rewrite !elem_of_difference, elem_of_union, elem_of_singleton. tauto.
Qed.

Lemma difference_fresh (k : string) (T : gset string) :
  k ∉ T → ({[ k ]} ∪ T) ∖ {[ k ]} = T.
Proof.
  intros Hk. apply set_eq. intros x.
  rewrite !elem_of_difference, elem_of_union, elem_of_singleton.
  split; [tauto|]. intros Hx. split; [by right|]. by intros ->.
Qed.

(** X5. After the retry sequence on a plain queue in order, the
    re-submitted copy is linked in the chain but its id is no longer
    tracked: the listener run by [skip()] deletes the id that
    [enqueueTask(this, true)] has just set.  The tracked ids are those from
    before the failure, without the id of the retried task. *)
Theorem retry_releases_id (now : Z) (w : World) (h : addr) (ws : list addr)
    (t : TMTask) :
  chain_of w (h :: ws) →
  plain w →
  Forall (runnable (heap w)) (h :: ws) →
  safe (priority (heap w) h) = true →
  heap w !! h = Some t →
  ∃ w' l tn,
    retry_handler now h w = Ok w'
    ∧ chain_of w' l
    ∧ length (heap w) ∈ l
    ∧ heap w' !! length (heap w) = Some tn
    ∧ id tn = id t
    ∧ tracked (this w') = tracked (this w) ∖ {[ key (id t) ]}
    ∧ key (id t) ∉ tracked (this w').
Proof.
  intros Hchain Hplain Hrun Hsafe Ht.
  pose proof Hchain as (Hc & Htail & Hlen).
  destruct (retry_handler_link now w h ws Hc) as
    (p' & w_dem & w_mid & w' & ws1 & ws2 & _ & _ & _ & _ & Hret & -> & _
     & _ & _ & _ & Hc' & Ht' & Hl' & _ & Hk & _ & _ & _ & _ & _
     & _ & _ & _ & _ & Hnew & _); [rewrite Hlen; lia|done|done|done|].
  destruct (Hnew t Ht) as (tn & Htn & Hidn).
  exists w', (ws1 ++ length (heap w) :: ws2), tn.
  split; [done|]. split.
  { split; [done|]. split.
    - rewrite Ht'. destruct ws2 as [|b ws2].
      + by rewrite last_snoc.
      + rewrite Htail.
        by rewrite !app_comm_cons, (last_app_cons _ _ (length (heap w))),
             !last_app_cons.
    - rewrite Hl', Hlen. simpl. rewrite !length_app. simpl. lia. }
  split. { apply elem_of_app. right. left. }
  split; [done|]. split; [done|].
  rewrite (Hk t Ht). split.
  - apply difference_union_singleton.
  - rewrite difference_union_singleton. intros Hin.
    apply elem_of_difference in Hin as (_ & Hin). apply Hin. by apply elem_of_singleton.
Qed.

Lemma retry_releases_id_witness :
  ∃ w' l tn,
    retry_handler 3 0 world_RN = Ok w'
    ∧ chain_of w' l
    ∧ length (heap world_RN) ∈ l
    ∧ heap w' !! length (heap world_RN) = Some tn
    ∧ id tn = IdStr "R"
    ∧ tracked (this w') = tracked (this world_RN) ∖ {[ "R" ]}
    ∧ "R" ∉ tracked (this w').
Proof.
  apply (retry_releases_id 3%Z world_RN 0 [1] (normalize 1 None (Some 1) taskR)).
  - repeat split; vm_compute; first [reflexivity | lia].
  - unfold plain. apply (bool_decide_unpack _). vm_compute. exact I.
  - repeat constructor; eexists; split; vm_compute; reflexivity.
  - reflexivity.
  - reflexivity.
Defined.

(** X6. The id of a task is released when the task completes: on an idle
    plain manager in order, submitting a task with an untracked plain id and
    letting it complete leaves the tracked ids exactly as they were, and the
    same submission is then accepted again and starts a new cycle. *)
Theorem id_released_on_completion (now : Z) (params : TMTaskParams) (w : World) :
  chain_of w [] →
  plain w →
  promises w = [] →
  returns (defaultTaskFunc (this w)) params →
  plain_id (id_of now params) = true →
  key_of now params ∉ tracked (this w) →
  ∃ w1 w2 w3,
    enqueueTask now params false w = Ok w1
    ∧ key_of now params ∈ tracked (this w1)
    ∧ settle now 0 true w1 = Ok w2
    ∧ tracked (this w2) = tracked (this w)
    ∧ chain_of w2 []
    ∧ promises w2 = []
    ∧ enqueueTask now params false w2 = Ok w3
    ∧ chain_of w3 [S (length (heap w))]
    ∧ completions (trace w3) = completions (trace w) ++ [length (heap w)].
Proof.
  intros Hc Hplain Hp Hret Hid Hfresh.
  destruct (enqueue_idle now params false w Hc Hret Hid)
    as (w1 & Heq1 & Hc1 & Hheap1 & Hp1 & Hk1 & Hd1 & Htr1); [by left|].
  assert (plain w1) as Hplain1.
  { by apply (step_plain (Enqueue now params false) w). }
  rewrite Hp in Hp1. simpl in Hp1.
  set (w1' := mkWorld (heap w1) (this w1) [] (trace w1)).
  assert (settle now 0 true w1 = emit_ready (length (heap w)) w1') as Hsettle.
  { unfold settle. rewrite Hp1. simpl. reflexivity. }
  destruct (emit_ready_head w1' (length (heap w)) [])
    as (w2 & t & Ht & Heq2 & Hc2 & Hheap2 & Hk2 & Hd2 & Hp2 & Htr2); [done..|].
  simpl in Ht, Hheap2, Hk2, Hd2, Hp2, Htr2.
  rewrite Hheap1, lookup_app_r in Ht by lia. rewrite Nat.sub_diag in Ht.
  injection Ht as <-.
  assert (tracked (this w2) = tracked (this w)) as Hk.
  { rewrite Hk2, Hk1. by apply difference_fresh. }
  destruct (enqueue_idle now params false w2 Hc2)
    as (w3 & Heq3 & Hc3 & _ & _ & _ & _ & Htr3).
  { by rewrite Hd2, Hd1. }
  { done. }
  { left. by rewrite Hk. }
  exists w1, w2, w3. split; [done|]. split.
  { rewrite Hk1. apply elem_of_union. left. by apply elem_of_singleton. }
  split; [by rewrite Hsettle|]. split; [done|]. split; [done|].
  split; [done|]. split; [done|].
  rewrite Hheap2, Hheap1, length_app in Hc3. simpl in Hc3.
  rewrite Nat.add_1_r in Hc3. split; [done|].
  rewrite Htr3, Htr2, completions_app, Htr1. done.
Qed.

Lemma id_released_on_completion_witness :
  ∃ w1 w2 w3,
    enqueueTask 1 taskA false idle = Ok w1
    ∧ key_of 1 taskA ∈ tracked (this w1)
    ∧ settle 1 0 true w1 = Ok w2
    ∧ tracked (this w2) = tracked (this idle)
    ∧ chain_of w2 []
    ∧ promises w2 = []
    ∧ enqueueTask 1 taskA false w2 = Ok w3
    ∧ chain_of w3 [S (length (heap idle))]
    ∧ completions (trace w3) = completions (trace idle) ++ [length (heap idle)].
Proof.
  apply (id_released_on_completion 1%Z taskA idle).
  - by repeat split.
  - apply plain_init.
  - reflexivity.
  - reflexivity.
  - reflexivity.
  - apply not_elem_of_empty.
Defined.

(** X7. A submission without an id (or with a falsy one: 0 or the empty
    string) is tracked under [Date.now()].  Two such submissions that read
    the same clock value therefore collide: once the first has been taken,
    the second, made without the bypass flag, is dropped as a duplicate and
    changes neither the manager nor the heap nor the pending results. *)
Theorem same_timestamp_ids_collide (now : Z) (p1 p2 : TMTaskParams) (dup : bool)
    (w w1 : World) :
  truthy_id (p_id p1) = false →
  truthy_id (p_id p2) = false →
  enqueueTask now p1 dup w = Ok w1 →
  ∃ w2,
    enqueueTask now p2 false w1 = Ok w2
    ∧ this w2 = this w1 ∧ heap w2 = heap w1 ∧ promises w2 = promises w1
    ∧ signals (trace w2) = signals (trace w1).
Proof.
  intros H1 H2 Heq.
  assert (∀ p, truthy_id (p_id p) = false → key_of now p = pretty now) as Hkey.
  { intros p Hp. unfold key_of, normalize. cbn [id].
    destruct (p_id p) as [i|]; [|done]. by rewrite Hp. }
  assert (key_of now p2 ∈ tracked (this w1)) as Hin.
  { rewrite (Hkey p2 H2), <- (Hkey p1 H1). unfold enqueueTask in Heq.
    apply enqueue_normalized_Ok in Heq
      as [(_ & -> & _ & Hin & _)|(_ & _ & _ & _ & _ & -> & _)]; [done|].
    apply elem_of_union. left. by apply elem_of_singleton. }
  assert (safe_id (id_of now p2) = true) as Hsafe.
  { assert (id_of now p2 = id_of now p1) as ->.
    { unfold id_of, normalize. cbn [id].
      destruct (p_id p1) as [i1|], (p_id p2) as [i2|]; rewrite ?H1, ?H2; done. }
    unfold enqueueTask, enqueue_normalized in Heq. rewrite id_of_normalize in Heq.
    by destruct (safe_id (id_of now p1)). }
  rewrite (enqueue_dropped now p2 w1 Hsafe Hin). eexists. split; [reflexivity|].
  destruct (p_debug_task p2); simpl; repeat split;
    rewrite !signals_app; simpl; by rewrite ?app_nil_r.
Qed.

Lemma same_timestamp_ids_collide_witness :
  ∃ w2,
    enqueueTask 7 (anonymous (Some Returns)) false
      (world_of (enqueueTask 7 (anonymous (Some Returns)) false idle)) = Ok w2
    ∧ this w2 = this (world_of (enqueueTask 7 (anonymous (Some Returns)) false idle))
    ∧ heap w2 = heap (world_of (enqueueTask 7 (anonymous (Some Returns)) false idle))
    ∧ promises w2
      = promises (world_of (enqueueTask 7 (anonymous (Some Returns)) false idle))
    ∧ signals (trace w2)
      = signals (trace (world_of
                   (enqueueTask 7 (anonymous (Some Returns)) false idle))).
Proof.
  apply (same_timestamp_ids_collide 7%Z (anonymous (Some Returns))
           (anonymous (Some Returns)) false idle).
  - reflexivity.
  - reflexivity.
  - apply ok_world. vm_compute. reflexivity.
Defined.

(** X8. The long-queue warning: an accepted submission under a plain id
    onto a non-empty plain queue in order writes the warning exactly when
    the queue already holds ten or more tasks, that is when [length] exceeds
    10 after the increment.  The warning changes nothing else: the task is
    linked and counted either way. *)
Theorem long_queue_warning (now : Z) (params : TMTaskParams) (dup : bool)
    (w : World) (h : addr) (ws : list addr) :
  chain_of w (h :: ws) →
  plain w →
  plain_id (id_of now params) = true →
  key_of now params ∉ tracked (this w) ∨ dup = true →
  ∃ w' l,
    enqueueTask now params dup w = Ok w'
    ∧ chain_of w' l
    ∧ length l = S (length (h :: ws))
    ∧ trace w' = trace w
                 ++ (if p_debug_task params then [Diag DEBUG] else [])
                 ++ [Diag LOG; Diag LOG]
                 ++ (if decide (10 ≤ length (h :: ws)) then [Diag WARN] else []).
Proof.
  intros Hchain _ Hid Hfresh. unfold enqueueTask.
  destruct (enqueue_normalized_chain
              (normalize now (defaultTaskFunc (this w)) None params) dup w h ws
              Hchain Hid Hfresh)
    as (w' & ws1 & ws2 & Heq & -> & _ & _ & Hc' & _ & _ & _ & _ & Htr).
  exists w', (h :: ws1 ++ length (heap w) :: ws2). split; [done|].
  split; [done|]. split.
  { simpl. rewrite !length_app. simpl. lia. }
  rewrite Htr. simpl debug_task. repeat f_equal.
  destruct Hchain as (_ & _ & ->).
  destruct (decide (10 ≤ length (h :: ws1 ++ ws2))) as [Hge|Hlt].
  - rewrite (proj2 (Z.ltb_lt _ _)) by lia. done.
  - rewrite (proj2 (Z.ltb_ge _ _)) by lia. done.
Qed.

Lemma long_queue_warning_witness :
  ∃ w' l,
    enqueueTask 3 taskC false world_AB = Ok w'
    ∧ chain_of w' l
    ∧ length l = S (length [0; 1])
    ∧ trace w' = trace world_AB
                 ++ (if p_debug_task taskC then [Diag DEBUG] else [])
                 ++ [Diag LOG; Diag LOG]
                 ++ (if decide (10 ≤ length [0; 1]) then [Diag WARN] else []).
Proof.
  apply (long_queue_warning 3%Z taskC false world_AB 0 [1]).
  - repeat split; vm_compute; first [reflexivity | lia].
  - unfold plain. apply (bool_decide_unpack _). vm_compute. exact I.
  - reflexivity.
  - left. apply (bool_decide_unpack _). vm_compute. exact I.
Defined.

(** ** What a run leaves alone *)

(** X9. Submissions, [skip()] and fulfilled results never rewrite a task
    that exists: after any run on a plain manager without a rejected
    result, every task that was allocated before is still there with the
    same id, data, priority, work function and retry flag; at most its
    [next] link has changed.  (Only the retry handler, which runs on a
    rejection, changes a priority.) *)
Theorem run_keeps_tasks (acts : list Action) (w w' : World) :
  plain w →
  Forall no_rejection acts →
  run acts w = Ok w' →
  frame (heap w) (heap w').
Proof.
  intros _. revert w. induction acts as [|act acts IH]; intros w Hok; simpl.
  - intros [= <-]. apply frame_refl.
  - apply Forall_cons in Hok as (Hact & Hok). intros H.
    apply bind_Ok in H as (w1 & Hstep & Hrun).
    eapply frame_trans; [|by apply IH]. clear IH Hrun.
    destruct act as [now params dup| |now i ok]; simpl in Hstep.
    + unfold enqueueTask in Hstep.
      apply enqueue_normalized_Ok in Hstep as [(-> & _)|(Hf & _)];
        [apply frame_refl|done].
    + apply skip_Ok in Hstep as (-> & _). apply frame_refl.
    + destruct ok; [|done]. unfold settle in Hstep.
      destruct (promises w !! i) as [p|]; [|injection Hstep as <-; apply frame_refl].
      unfold emit_ready in Hstep.
      apply on_ready_Ok in Hstep as (t & _ & _ & Hh & _). simpl in Hh. rewrite Hh.
      apply frame_refl.
Qed.

Lemma run_keeps_tasks_witness :
  frame (heap world_AB)
    (heap (world_of (run [Enqueue 3 taskC false; Skip; Settle 4 0 true;
                          Enqueue 5 taskC true] world_AB))).
Proof.
  apply (run_keeps_tasks [Enqueue 3 taskC false; Skip; Settle 4 0 true;
                          Enqueue 5 taskC true] world_AB).
  - unfold plain. apply (bool_decide_unpack _). vm_compute. exact I.
  - repeat constructor.
  - apply ok_world. vm_compute. reflexivity.
Defined.

(** ** A task that always fails *)

Lemma link_task_signals params w w' :
  link_task params w = Ok w' → signals (trace w') = signals (trace w).
Proof.
  unfold link_task. destruct (queue_head (this w)) as [h|].
  - destruct (walk _ _ _ _) as [q|]; [|done]. intros [= <-].
    destruct (next_of (heap w) q); simpl; rewrite signals_app; simpl;
      by rewrite app_nil_r.
  - intros Hex. apply execute_Ok in Hex as (t & _ & _ & ->). simpl.
    rewrite !signals_app. simpl. by rewrite !app_nil_r.
Qed.

Lemma enqueue_normalized_signals params dup w w' :
  enqueue_normalized params dup w = Ok w' →
  signals (trace w') = signals (trace w).
Proof.
  assert (∀ b : bool, this (if b then diag DEBUG w else w) = this w) as Hthis
    by (by intros []).
  destruct (safe_id (id params)) eqn:Hsafe.
  2:{ unfold enqueue_normalized. by rewrite Hsafe. }
  destruct (decide (key (id params) ∈ tracked (this w))) as [Hin|Hnotin];
    [destruct dup|].
  2:{ unfold enqueue_normalized. rewrite Hsafe.
      simpl. rewrite Hthis, bool_decide_eq_true_2 by done. simpl.
      intros [= <-]. destruct (debug_task params); simpl;
        rewrite !signals_app; simpl; by rewrite ?app_nil_r. }
  all: destruct (member_name (key (id params))) eqn:Hmem.
  all: try (unfold enqueue_normalized; rewrite Hsafe, Hmem; simpl;
            rewrite Hthis, ?bool_decide_eq_true_2, ?bool_decide_eq_false_2
              by done; simpl; discriminate).
  all: assert (own_key (id params) = true) as Hown
         by (unfold own_key; by rewrite Hsafe, Hmem).
  all: rewrite enqueue_normalized_accepted by auto.
  all: intros Hb; apply bind_Ok in Hb as (w1 & Hlink & Hw').
  all: apply link_task_signals in Hlink.
  all: simpl in Hw'.
  all: destruct (10 <? tm_length (this w1) + 1)%Z; injection Hw' as <-; simpl.
  all: rewrite ?signals_app, Hlink; simpl.
  all: destruct (debug_task params); simpl; rewrite !signals_app; simpl;
         by rewrite ?app_nil_r.
Qed.

Lemma failing_retry_step now w h :
  chain_of w [h] →
  plain w →
  promises w = pending_of (heap w) [h] →
  runnable (heap w) h →
  retry_of (heap w) h = true →
  safe (priority (heap w) h) = true →
  ∃ w' p',
    settle now 0 false w = Ok w'
    ∧ demote (priority (heap w) h) = Some p'
    ∧ chain_of w' [length (heap w)]
    ∧ plain w'
    ∧ promises w' = pending_of (heap w') [length (heap w)]
    ∧ runnable (heap w') (length (heap w))
    ∧ retry_of (heap w') (length (heap w)) = true
    ∧ priority (heap w') (length (heap w)) = p'
    ∧ signals (trace w') = signals (trace w) ++ [Ready h].
Proof.
  intros Hchain Hplain Hp Hrun Hretry Hsafe.
  set (w0 := mkWorld (heap w) (this w) [] (trace w)).
  assert (settle now 0 false w = retry_handler now h w0) as Hsettle.
  { unfold settle. rewrite Hp. simpl. by rewrite Hretry. }
  assert (chain_of w0 [h]) as Hc0 by done.
  assert (plain w0) as Hplain0 by done.
  pose proof Hc0 as (Hc0' & _ & Hlen0).
  destruct (retry_handler_link now w0 h [] Hc0')
    as (p' & w_dem & w_mid & w' & ws1 & ws2 & Hdem & _ & _ & _ & Hret
        & Hsplit & _ & _ & _ & _ & Hc' & Ht' & Hl' & _ & _ & Hplain' & _ & _
        & Hpn & Hrn & _ & Hrun' & Hp' & _ & _ & Hsig);
    [rewrite Hlen0; simpl; lia|done|by constructor|done|].
  symmetry in Hsplit. apply app_eq_nil in Hsplit as (-> & ->).
  simpl in Hc', Hpn, Hrn, Hrun', Hp', Ht', Hl', Hsig.
  exists w', p'. split; [by rewrite Hsettle|]. split; [done|]. split.
  { split; [done|]. split; [done|]. rewrite Hl'. exact Hlen0. }
  split; [done|]. split; [done|].
  split; [by apply Forall_cons in Hrun' as (? & _)|].
  split; [by rewrite Hrn|]. done.
Qed.

(** X10. A task with [retry] set whose result is rejected every time is
    re-queued every time.  Alone in a plain queue in order, with a safe
    integer [p] for its priority, after any number [n] of failures the
    queue again holds exactly one task (the latest copy) with its result
    pending and [retry] still set; [ready] has fired [n] times and
    [complete] never; the priority is the one after [n] demotions, which
    is [min 5 (p + n)] when [p] is at most 5, and [p] otherwise. *)
Theorem failing_retry_task_loops (now : Z) (n : nat) : ∀ (w : World) (h : addr),
  chain_of w [h] →
  plain w →
  promises w = pending_of (heap w) [h] →
  runnable (heap w) h →
  retry_of (heap w) h = true →
  safe (priority (heap w) h) = true →
  ∃ w' h' hs q,
    run (replicate n (Settle now 0 false)) w = Ok w'
    ∧ chain_of w' [h']
    ∧ plain w'
    ∧ promises w' = pending_of (heap w') [h']
    ∧ retry_of (heap w') h' = true
    ∧ demote_n n (priority (heap w) h) = Some q
    ∧ priority (heap w') h' = q
    ∧ ((priority (heap w) h <= 5)%Z →
       q = Z.min 5 (priority (heap w) h + Z.of_nat n))
    ∧ ((5 <= priority (heap w) h)%Z → q = priority (heap w) h)
    ∧ length hs = n
    ∧ signals (trace w') = signals (trace w) ++ (Ready <$> hs).
Proof.
  assert (∀ n p q, demote p = Some q → demote_n n q = demote_n (S n) p) as Hshift.
  { intros m p q Hpq. induction m as [|m IHm].
    - simpl. by rewrite Hpq.
    - cbn [demote_n]. by rewrite IHm. }
  induction n as [|n IH]; intros w h Hchain Hplain Hp Hrun Hretry Hsafe.
  - exists w, h, [], (priority (heap w) h).
    split; [reflexivity|]. split; [done|]. split; [done|]. split; [done|].
    split; [done|]. split; [reflexivity|]. split; [done|].
    split; [intros; change (Z.of_nat 0) with 0%Z; lia|]. split; [done|].
    split; [done|]. cbn [fmap list_fmap]. by rewrite app_nil_r.
  - destruct (failing_retry_step now w h Hchain Hplain Hp Hrun Hretry Hsafe)
      as (w1 & p' & Hs1 & Hdem & Hc1 & Hplain1 & Hp1 & Hr1 & Hre1 & Hpr1 & Hsig1).
    pose proof (demote_keeps_safe _ _ Hdem) as Hsafe1.
    rewrite <- Hpr1 in Hsafe1.
    destruct (IH w1 _ Hc1 Hplain1 Hp1 Hr1 Hre1 Hsafe1)
      as (w' & h' & hs & q & Hrun' & Hc' & Hplain' & Hp' & Hre' & Hq & Hpr'
          & _ & _ & Hlen & Hsig').
    exists w', h', (h :: hs), q. split.
    { simpl. rewrite Hs1. done. }
    split; [done|]. split; [done|]. split; [done|]. split; [done|].
    rewrite Hpr1 in Hq. rewrite (Hshift _ _ _ Hdem) in Hq.
    split; [done|]. split; [done|].
    destruct (demote_n_safe (S n) _ Hsafe) as (q0 & Hq0 & _ & _ & Hmin & Hmax).
    rewrite Hq in Hq0. injection Hq0 as <-.
    split; [done|]. split; [done|].
    split; [simpl; by rewrite Hlen|].
    rewrite Hsig', Hsig1. simpl. by rewrite <- app_assoc.
Qed.

Lemma failing_retry_task_loops_witness :
  ∃ w' h' hs q,
    run (replicate 4 (Settle 9 0 false)) world_R = Ok w'
    ∧ chain_of w' [h']
    ∧ plain w'
    ∧ promises w' = pending_of (heap w') [h']
    ∧ retry_of (heap w') h' = true
    ∧ demote_n 4 (priority (heap world_R) 0) = Some q
    ∧ priority (heap w') h' = q
    ∧ ((priority (heap world_R) 0 <= 5)%Z →
       q = Z.min 5 (priority (heap world_R) 0 + Z.of_nat 4))
    ∧ ((5 <= priority (heap world_R) 0)%Z → q = priority (heap world_R) 0)
    ∧ length hs = 4
    ∧ signals (trace w') = signals (trace world_R) ++ (Ready <$> hs).
Proof.
  apply (failing_retry_task_loops 9%Z 4 world_R 0).
  - repeat split; vm_compute; first [reflexivity | lia].
  - unfold plain. apply (bool_decide_unpack _). vm_compute. exact I.
  - vm_compute. reflexivity.
  - eexists. split; vm_compute; reflexivity.
  - vm_compute. reflexivity.
  - reflexivity.
Defined.

(** ** A work function that raises *)

(** X11. When the task submitted under a plain id to an idle plain manager
    has a work function that raises when called (or has none),
    [enqueueTask] raises after it has tracked the id and made the task head
    and tail, but before it counts it: [length] stays 0 with one task
    linked.  From then on [skip()] sees an empty queue and only writes its
    error line, so the task cannot be retired, and its id is refused as a
    duplicate. *)
Theorem raising_task_wedges_queue (now : Z) (params : TMTaskParams) (dup : bool)
    (w : World) :
  chain_of w [] →
  plain w →
  plain_id (id_of now params) = true →
  taskFunc (normalize now (defaultTaskFunc (this w)) None params) ≠ Some Returns →
  key_of now params ∉ tracked (this w) ∨ dup = true →
  ∃ w' w2,
    enqueueTask now params dup w = Throw w'
    ∧ is_chain (heap w') (queue_head (this w')) [length (heap w)]
    ∧ queue_tail (this w') = Some (length (heap w))
    ∧ tm_length (this w') = 0%Z
    ∧ promises w' = promises w
    ∧ key_of now params ∈ tracked (this w')
    ∧ skip w' = Ok (diag ERROR w')
    ∧ enqueueTask now params false w' = Ok w2
    ∧ this w2 = this w' ∧ heap w2 = heap w'.
Proof.
  intros (Hc & Htail & Hlen) _ Hid Hf Hfresh. simpl in Hlen.
  assert (queue_head (this w) = None) as Hh by (by apply is_chain_head in Hc).
  set (p := normalize now (defaultTaskFunc (this w)) None params) in *.
  assert (∃ w',
            enqueueTask now params dup w = Throw w'
            ∧ heap w' = heap w ++ [p]
            ∧ this w' = set_tail (Some (length (heap w)))
                          (set_head (Some (length (heap w)))
                             (set_tracked ({[ key_of now params ]} ∪ tracked (this w))
                                (this w)))
            ∧ promises w' = promises w) as (w' & Heq & Hheap & Hthis & Hp).
  { unfold enqueueTask. fold p.
    assert (key (id p) = key_of now params) as Hk by reflexivity.
    assert (debug_task p = p_debug_task params) as Hdbg by reflexivity.
    assert (own_key (id p) = true) as Hown by (by apply plain_id_own).
    clearbody p.
    rewrite enqueue_normalized_accepted by (by rewrite ?Hk).
    rewrite link_task_idle by (by destruct (debug_task _)).
    unfold execute. simpl.
    assert (∀ b : bool, heap (if b then diag DEBUG w else w) = heap w) as Hheap
      by (by intros []).
    rewrite Hheap, lookup_app_r by lia. rewrite Nat.sub_diag. simpl.
    destruct (taskFunc p) as [[]|]; [done| |]; simpl;
      (eexists; split; [reflexivity|]); simpl; rewrite Hk;
      by destruct (debug_task p). }
  assert (key_of now params ∈ tracked (this w')) as Hin.
  { rewrite Hthis. simpl. apply elem_of_union. left. by apply elem_of_singleton. }
  exists w'. eexists. split; [done|]. split.
  { rewrite Hthis, Hheap. unfold is_chain. simpl. split; [done|].
    split; [rewrite length_app; simpl; lia|].
    unfold next_of. rewrite lookup_app_r by lia. by rewrite Nat.sub_diag. }
  split; [by rewrite Hthis|]. split; [by rewrite Hthis|]. split; [done|].
  split; [done|]. split.
  { unfold skip. rewrite Hthis. simpl. by rewrite Hlen. }
  rewrite (enqueue_dropped now params w' (plain_id_safe _ Hid) Hin).
  split; [reflexivity|].
  by destruct (p_debug_task params).
Qed.

Lemma raising_task_wedges_queue_witness :
  ∃ w' w2,
    enqueueTask 1 taskT false idle = Throw w'
    ∧ is_chain (heap w') (queue_head (this w')) [length (heap idle)]
    ∧ queue_tail (this w') = Some (length (heap idle))
    ∧ tm_length (this w') = 0%Z
    ∧ promises w' = promises idle
    ∧ key_of 1 taskT ∈ tracked (this w')
    ∧ skip w' = Ok (diag ERROR w')
    ∧ enqueueTask 1 taskT false w' = Ok w2
    ∧ this w2 = this w' ∧ heap w2 = heap w'.
Proof.
  apply (raising_task_wedges_queue 1%Z taskT false idle).
  - by repeat split.
  - apply plain_init.
  - reflexivity.
  - discriminate.
  - left. apply not_elem_of_empty.
Defined.

(** ** Counting *)

Lemma on_ready_completions task w w' :
  on_ready task w = Ok w' → completions (trace w') = completions (trace w).
Proof.
  unfold on_ready. destruct (heap w !! task) as [t|]; [|done]. simpl.
  destruct (own_key (id t)); [|done]. simpl.
  destruct (next t) as [h|]; simpl.
  - intros Hb. apply bind_Ok in Hb as (w1 & Hex & [= <-]).
    apply execute_Ok in Hex as (th & _ & _ & ->). simpl.
    rewrite !completions_app. simpl. by rewrite !app_nil_r.
  - intros [= <-]. simpl. rewrite !completions_app. simpl. by rewrite !app_nil_r.
Qed.

Lemma completions_signals tr : completions (signals tr) = completions tr.
Proof.
  induction tr as [|e tr IH]; [done|].
  destruct e; unfold signals in *; simpl;
    rewrite ?filter_cons_True, ?filter_cons_False by done; simpl;
    by rewrite ?IH.
Qed.

Lemma enqueue_normalized_count params dup w w' :
  enqueue_normalized params dup w = Ok w' →
  (tm_length (this w') - Z.of_nat (length (heap w'))
   = tm_length (this w) - Z.of_nat (length (heap w)))%Z
  ∧ completions (trace w') = completions (trace w).
Proof.
  intros H. pose proof (enqueue_normalized_signals _ _ _ _ H) as Hs.
  apply (f_equal completions) in Hs. rewrite !completions_signals in Hs.
  split; [|done].
  apply enqueue_normalized_Ok in H
    as [(-> & -> & _)|(_ & _ & Hlen & _ & _ & _ & Hl & _)]; [done|].
  rewrite Hlen, Hl. lia.
Qed.

Lemma skip_count w w' :
  skip w = Ok w' →
  heap w' = heap w
  ∧ (tm_length (this w') + Z.of_nat (length (completions (trace w')))
     = tm_length (this w) + Z.of_nat (length (completions (trace w))))%Z.
Proof.
  unfold skip. destruct (0 <? tm_length (this w))%Z.
  - destruct (queue_head (this w)) as [h|]; [|done]. unfold emit_ready.
    intros Hr. pose proof (on_ready_completions _ _ _ Hr) as Hc.
    apply on_ready_Ok in Hr as (t & _ & _ & Hh & _ & _ & _ & Hl & _).
    simpl in Hh, Hl, Hc. split; [done|]. rewrite Hc, Hl, !completions_app.
    rewrite !length_app. simpl. lia.
  - intros [= <-]. simpl. split; [done|]. rewrite completions_app. simpl.
    by rewrite app_nil_r.
Qed.

Lemma step_count act w w' :
  step act w = Ok w' →
  (tm_length (this w') - Z.of_nat (length (heap w'))
   + Z.of_nat (length (completions (trace w')))
   = tm_length (this w) - Z.of_nat (length (heap w))
     + Z.of_nat (length (completions (trace w))))%Z.
Proof.
  destruct act as [now params dup| |now i ok]; simpl.
  - unfold enqueueTask. intros H.
    apply enqueue_normalized_count in H as (Hl & ->). lia.
  - intros H. apply skip_count in H as (-> & Hl). lia.
  - unfold settle. destruct (promises w !! i) as [p|]; [|by intros [= <-]].
    destruct ok.
    + unfold emit_ready. intros Hr.
      pose proof (on_ready_completions _ _ _ Hr) as Hc.
      apply on_ready_Ok in Hr as (t & _ & _ & Hh & _ & _ & _ & Hl & _).
      simpl in Hh, Hl, Hc. rewrite Hc, Hl, Hh, !completions_app.
      rewrite !length_app. simpl. lia.
    + destruct (pr_retry p); [|by intros [= <-]].
      intros H.
      apply retry_handler_Ok in H
        as (t & q & params & w1 & _ & _ & _ & Hself & Hskip).
      apply skip_count in Hskip as (-> & Hl).
      apply enqueue_normalized_count in Hself as (Hl1 & Hc1).
      simpl in Hl1, Hc1.
      rewrite !length_insert in Hl1. rewrite completions_app in Hc1.
      simpl in Hc1. rewrite app_nil_r in Hc1. rewrite Hc1 in Hl. lia.
Qed.

(** X12. [length] is a counter of events, not of nodes: over any run from a
    fresh manager in which every operation returns (submissions, bypassed
    duplicates, [skip()], fulfilled and rejected results, in any order; an
    operation that the model does not cover, such as a submission under an
    id that names a member of the manager, does not return in the model),
    [length] equals the number of tasks linked so far (one per accepted
    submission and per retry copy) minus the number of [ready] events fired
    so far. *)
Theorem length_counts_links_minus_readies (name : option string)
    (dflt : option TaskFunc) (debug : bool) (acts : list Action) (w' : World) :
  run acts (init name dflt debug) = Ok w' →
  tm_length (this w')
  = (Z.of_nat (length (heap w')) - Z.of_nat (length (completions (trace w'))))%Z.
Proof.
  assert (∀ w, run acts w = Ok w' →
            (tm_length (this w') - Z.of_nat (length (heap w'))
             + Z.of_nat (length (completions (trace w')))
             = tm_length (this w) - Z.of_nat (length (heap w))
               + Z.of_nat (length (completions (trace w))))%Z) as Hgen.
  { induction acts as [|act acts IH]; intros w; simpl.
    - by intros [= <-].
    - intros H. apply bind_Ok in H as (w1 & Hstep & Hrun).
      rewrite (IH _ Hrun). by apply (step_count act). }
  intros H. specialize (Hgen _ H). simpl in Hgen. lia.
Qed.

Lemma length_counts_links_minus_readies_witness :
  tm_length (this (world_of (run [Enqueue 1 taskA false; Enqueue 2 taskB false;
                                  Skip; Settle 3 0 true] idle)))
  = (Z.of_nat (length (heap (world_of
                 (run [Enqueue 1 taskA false; Enqueue 2 taskB false; Skip;
                       Settle 3 0 true] idle))))
     - Z.of_nat (length (completions (trace (world_of
                   (run [Enqueue 1 taskA false; Enqueue 2 taskB false; Skip;
                         Settle 3 0 true] idle))))))%Z.
Proof.
  apply (length_counts_links_minus_readies None None false
           [Enqueue 1 taskA false; Enqueue 2 taskB false; Skip; Settle 3 0 true]).
  apply ok_world. vm_compute. reflexivity.
Defined.

(** ** Equal priorities *)

(** X13. First in, first out: when every task of a batch submitted to a
    fresh manager under distinct plain ids has the same priority (in
    particular when none gives one), the tasks complete in the order of
    their submission. *)
Theorem equal_priorities_complete_fifo (name : option string)
    (dflt : option TaskFunc) (debug : bool) (subs : list (Z * TMTaskParams))
    (c : Z) :
  NoDup (map (λ s, key_of s.1 s.2) subs) →
  Forall (λ s, plain_id (id_of s.1 s.2) = true) subs →
  Forall (λ s, returns dflt s.2) subs →
  Forall (λ s, priority_of s.2 = c) subs →
  ∃ w',
    run (submit subs ++ drain (length subs)) (init name dflt debug) = Ok w'
    ∧ completions (trace w') = seq 0 (length subs)
    ∧ chain_of w' [].
Proof.
  intros Hnd Hplain Hret Hprio. destruct subs as [|s0 rest].
  { exists (init name dflt debug). by repeat split. }
  apply NoDup_cons in Hnd as (Hs0 & Hnd).
  apply Forall_cons in Hplain as (Hplain0 & Hplain).
  apply Forall_cons in Hret as (Hret0 & Hret).
  apply Forall_cons in Hprio as (_ & Hprio).
  set (wi := init name dflt debug).
  assert (chain_of wi []) as Hci by (by repeat split).
  destruct (enqueue_idle s0.1 s0.2 false wi Hci Hret0 Hplain0)
    as (w1 & Heq1 & Hc1 & Hheap1 & Hp1 & Hk1 & Hd1 & Htr1).
  { left. simpl. apply not_elem_of_empty. }
  simpl in Hc1, Hheap1, Hp1, Hk1, Hd1, Htr1.
  destruct (submit_batch rest w1 0 [] Hc1)
    as (w2 & ws & Hrun2 & Hc2 & Hs2 & Hperm & Hf2 & Hlen2 & Hnew2 & Hp2 & Hd2 & Htr2).
  { constructor. }
  { done. }
  { done. }
  { rewrite Hk1. apply Forall_forall. intros s Hin.
    assert (key_of s.1 s.2 ≠ key_of s0.1 s0.2) as Hneq.
    { intros Heq. apply Hs0. rewrite <- Heq.
      apply (list_elem_of_fmap_2 (λ s, key_of s.1 s.2)). done. }
    intros [Hin'%elem_of_singleton|Hin'%elem_of_empty]%elem_of_union; done. }
  rewrite Hheap1 in Hperm, Hlen2, Hnew2. simpl in Hperm, Hlen2, Hnew2.
  assert (heap w1 !! 0 = Some (normalize s0.1 dflt None s0.2)) as H0
    by (by rewrite Hheap1).
  destruct (Hf2 _ _ H0) as (t0 & Ht0 & Et0).
  assert (∀ i s, rest !! i = Some s →
            ∃ t, heap w2 !! S i = Some t ∧ taskPriority t = c
               ∧ taskFunc t = Some Returns) as Hrest.
  { intros i s Hi. destruct (Hnew2 i s Hi) as (t & Ht & Hpt & Hft & _).
    exists t. split; [done|]. rewrite Forall_forall in Hprio, Hret.
    assert (s ∈ rest) as Hin by (by eapply list_elem_of_lookup_2).
    split; [by rewrite Hpt; apply Hprio|]. rewrite Hft, Hd1. by apply (Hret s). }
  assert (ws = seq 1 (length rest)) as ->.
  { apply (StronglySorted_unique le); [| |done].
    - eapply StronglySorted_ext; [|exact Hs2]. intros a b Ha Hb Hab.
      rewrite Hperm in Ha, Hb. apply elem_of_seq in Ha, Hb.
      destruct a as [|i]; [lia|]. destruct b as [|j]; [lia|].
      destruct (lookup_lt_is_Some_2 rest i) as [si Hsi]; [lia|].
      destruct (lookup_lt_is_Some_2 rest j) as [sj Hsj]; [lia|].
      destruct (Hrest i si Hsi) as (ti & Hti & Hpi & _).
      destruct (Hrest j sj Hsj) as (tj & Htj & Hpj & _).
      unfold before, priority in Hab. rewrite Hti, Htj, Hpi, Hpj in Hab.
      destruct Hab as [?|[_ ?]]; lia.
    - clear. generalize 1. induction (length rest) as [|m IH]; intros k; simpl.
      + constructor.
      + constructor; [apply IH|]. apply Forall_forall. intros x Hx.
        apply elem_of_seq in Hx. lia. }
  destruct (drain_chain (0 :: seq 1 (length rest)) w2 Hc2)
    as (w' & Hrun' & Htr' & Hc' & Hp' & Hheap').
  { apply (run_plain (submit (s0 :: rest)) wi); [apply plain_init| |].
    - apply Forall_forall. intros act Hact. unfold submit in Hact.
      apply list_elem_of_fmap in Hact as (s & -> & Hs). simpl.
      apply elem_of_cons in Hs as [->|Hs]; [done|].
      rewrite Forall_forall in Hplain. by apply Hplain.
    - change (run (submit (s0 :: rest)) wi)
        with (bind (enqueueTask s0.1 s0.2 false wi) (run (submit rest))).
      rewrite Heq1. cbn [bind]. exact Hrun2. }
  { rewrite Hp2, Hp1. simpl. unfold retry_of. rewrite Ht0, Et0. done. }
  { constructor.
    - exists t0. split; [done|]. rewrite Et0. exact Hret0.
    - apply Forall_forall. intros a Ha.
      apply elem_of_seq in Ha. destruct a as [|i]; [lia|].
      destruct (lookup_lt_is_Some_2 rest i) as [s Hs]; [lia|].
      destruct (Hrest i s Hs) as (t & Ht & _ & Hft). by exists t. }
  simpl in Hrun'. rewrite length_seq in Hrun'.
  exists w'. split.
  { rewrite run_app.
    change (run (submit (s0 :: rest)) wi)
      with (bind (enqueueTask s0.1 s0.2 false wi) (run (submit rest))).
    rewrite Heq1. cbn [bind]. rewrite Hrun2. cbn [bind]. exact Hrun'. }
  split; [|done]. rewrite Htr', Htr2, Htr1. done.
Qed.

Lemma equal_priorities_complete_fifo_witness :
  ∃ w',
    run (submit [(1%Z, anonymous (Some Returns)); (2%Z, anonymous (Some Returns));
                 (3%Z, anonymous (Some Returns))] ++ drain 3) idle = Ok w'
    ∧ completions (trace w') = seq 0 3
    ∧ chain_of w' [].
Proof.
  apply (equal_priorities_complete_fifo None None false
           [(1%Z, anonymous (Some Returns)); (2%Z, anonymous (Some Returns));
            (3%Z, anonymous (Some Returns))] 5%Z).
  - apply (bool_decide_unpack _). vm_compute. exact I.
  - repeat constructor.
  - repeat constructor.
  - repeat constructor.
Defined.

(** ** server.js: splitting a path *)

Lemma split_slash_nonempty s : split_slash s ≠ [].
Proof.
  destruct s as [|c s]; simpl; [done|].
  destruct (Ascii.eqb c "/"%char); [done|]. by destruct (split_slash s).
Qed.

Lemma split_slash_no_slash s : Forall (λ x, has_slash x = false) (split_slash s).
Proof.
  induction s as [|c s IH]; simpl; [by constructor|].
  destruct (Ascii.eqb c "/"%char) eqn:Hc; [by constructor|].
  destruct (split_slash s) as [|x xs]; [constructor; [simpl; by rewrite Hc|done]|].
  apply Forall_cons in IH as (Hx & Hxs). constructor; [|done].
  simpl. by rewrite Hc, Hx.
Qed.

Lemma split_slash_atom s : has_slash s = false → split_slash s = [s].
Proof.
  induction s as [|c s IH]; simpl; [done|].
  destruct (Ascii.eqb c "/"%char); [done|]. simpl. intros Hs. by rewrite IH.
Qed.

Lemma split_slash_app a b :
  split_slash (a +:+ "/" +:+ b) = split_slash a ++ split_slash b.
Proof.
  induction a as [|c a IH]; simpl; [done|].
  destruct (Ascii.eqb c "/"%char); [by rewrite IH|].
  rewrite IH. pose proof (split_slash_nonempty a).
  by destruct (split_slash a).
Qed.

(** X14. The segments that [__splitPath] returns are never empty and never
    contain a slash. *)
Theorem splitPath_segments (path seg : string) :
  seg ∈ splitPath path → seg ≠ "" ∧ has_slash seg = false.
Proof.
  unfold splitPath. intros Hin. apply list_elem_of_filter in Hin as (Hne & Hin).
  split; [done|]. pose proof (split_slash_no_slash path) as Hall.
  rewrite Forall_forall in Hall. by apply Hall.
Qed.

Lemma splitPath_segments_witness :
  "hello" ≠ "" ∧ has_slash "hello" = false.
Proof.
  apply (splitPath_segments "/hello//World/" "hello").
  apply (bool_decide_unpack _). vm_compute. exact I.
Defined.

(** X15. [__splitPath] only sees the non-empty pieces between slashes: the
    empty path has no segments, a non-empty string without a slash is its
    own single segment, and the segments of [a + "/" + b] are those of [a]
    followed by those of [b].  So leading, trailing and repeated slashes
    change nothing. *)
Theorem splitPath_slashes :
  splitPath "" = []
  ∧ (∀ seg, seg ≠ "" → has_slash seg = false → splitPath seg = [seg])
  ∧ (∀ a b, splitPath (a +:+ "/" +:+ b) = splitPath a ++ splitPath b)
  ∧ (∀ a, splitPath ("/" +:+ a) = splitPath a)
  ∧ (∀ a, splitPath (a +:+ "/") = splitPath a).
Proof.
  assert (∀ a b, splitPath (a +:+ "/" +:+ b) = splitPath a ++ splitPath b) as Happ.
  { intros a b. unfold splitPath. by rewrite split_slash_app, filter_app. }
  split; [done|]. split.
  { intros seg Hne Hs. unfold splitPath. rewrite split_slash_atom by done.
    by rewrite filter_cons_True by done. }
  split; [done|]. split.
  - intros a. change ("/" +:+ a) with ("" +:+ "/" +:+ a). by rewrite Happ.
  - intros a. change (a +:+ "/") with (a +:+ "/" +:+ "").
    by rewrite Happ, app_nil_r.
Qed.

Lemma splitPath_slashes_witness : splitPath "hello" = ["hello"].
Proof.
  apply (proj1 (proj2 splitPath_slashes) "hello"); [discriminate|reflexivity].
Defined.

(** ** server.js: matching a route *)

Lemma routeComp_from_is_Some r : ∀ p params,
  length r = length p →
  is_Some (routeComp_from r p params) ↔ Forall2 seg_matches r p.
Proof.
  induction r as [|r0 r IH]; intros [|p0 p] params Hlen; simpl in *; try done.
  - injection Hlen as Hlen. unfold seg_matches at 1.
    destruct (is_param r0) eqn:Hp.
    + rewrite IH by done. split.
      * intros H. constructor; [by left|done].
      * by intros (_ & H)%Forall2_cons.
    + destruct (decide (r0 = p0)) as [->|Hne].
      * rewrite IH by done. split.
        -- intros H. constructor; [by right|done].
        -- by intros (_ & H)%Forall2_cons.
      * split; [by intros [? ?]|].
        intros ([?|?] & _)%Forall2_cons; congruence.
Qed.

(** X16. [__routeComp] accepts a path exactly when it has as many segments
    as the route and every segment of the route that is not a parameter
    ([:name]) is equal to the segment of the path at the same position. *)
Theorem routeComp_accepts (routeSplit pathSplit : list string) :
  is_Some (routeComp routeSplit pathSplit)
  ↔ Forall2 seg_matches routeSplit pathSplit.
Proof.
  unfold routeComp. destruct (decide (length routeSplit = length pathSplit)) as [Hl|Hl].
  - by apply routeComp_from_is_Some.
  - split; [by intros [? ?]|]. intros H. by apply Forall2_length in H.
Qed.

Lemma routeComp_from_lookup r : ∀ p params res name,
  routeComp_from r p params = Some res →
  res !! name = match last_binding name r p with
                | Some v => Some v
                | None => params !! name
                end.
Proof.
  induction r as [|r0 r IH]; intros [|p0 p] params res name; simpl; try done.
  - by intros [= <-].
  - by intros [= <-].
  - destruct (is_param r0) eqn:Hp; simpl.
    + intros H. rewrite (IH _ _ _ name H).
      destruct (last_binding name r p); [done|]. unfold set_param.
      destruct (decide (slice1 r0 = "__proto__")) as [Hproto|Hproto].
      * destruct (decide (slice1 r0 = name)) as [<-|Hne].
        -- by rewrite bool_decide_eq_true_2, (bool_decide_eq_true_2 _ Hproto).
        -- by rewrite bool_decide_eq_false_2.
      * destruct (decide (slice1 r0 = name)) as [<-|Hne].
        -- by rewrite lookup_insert_eq, bool_decide_eq_true_2,
                     (bool_decide_eq_false_2 _ Hproto).
        -- by rewrite lookup_insert_ne, bool_decide_eq_false_2.
    + destruct (decide (r0 = p0)); [|done]. intros H. rewrite (IH _ _ _ name H).
      by destruct (last_binding name r p).
Qed.

Lemma last_binding_absent name r : ∀ p,
  (∀ rs, rs ∈ r → is_param rs = true → slice1 rs ≠ name) →
  last_binding name r p = None.
Proof.
  induction r as [|r0 r IH]; intros [|p0 p] Hno; simpl; try done.
  rewrite IH by (intros rs Hin; apply Hno; by right).
  destruct (is_param r0) eqn:Hp; [|done]. simpl.
  rewrite (bool_decide_eq_false_2 (slice1 r0 = name)); [done|].
  apply Hno; [left|done].
Qed.

Lemma last_binding_proto r : ∀ p, last_binding "__proto__" r p = None.
Proof.
  induction r as [|r0 r IH]; intros [|p0 p]; simpl; try done.
  rewrite IH. by rewrite andb_false_r.
Qed.

Lemma last_binding_at name r : ∀ p i rs v,
  name ≠ "__proto__" →
  r !! i = Some rs → is_param rs = true → slice1 rs = name → p !! i = Some v →
  (∀ j rs', i < j → r !! j = Some rs' → is_param rs' = true → slice1 rs' ≠ name) →
  last_binding name r p = Some v.
Proof.
  induction r as [|r0 r IH]; intros [|p0 p] i rs v Hname Hr Hp Hn Hv Hlater;
    simpl; try done.
  destruct i as [|i]; simpl in Hr, Hv.
  - injection Hr as ->. injection Hv as ->.
    rewrite last_binding_absent.
    + by rewrite Hp, bool_decide_eq_true_2, bool_decide_eq_false_2.
    + intros rs' Hin Hp'. apply list_elem_of_lookup in Hin as (j & Hj).
      apply (Hlater (S j) rs'); [lia|done|done].
  - rewrite (IH p i rs v); try done.
    intros j rs' Hij Hj. apply (Hlater (S j) rs'); [lia|done].
Qed.

(** X17. The [params] object that [__routeComp] returns on a match has one
    own property per parameter name of the route and no other: a parameter
    is bound to the path segment at its position, unless the same name
    occurs again later in the route, in which case the later position wins.
    The one exception is a parameter named [__proto__]: the assignment to
    it stores nothing, so [params] never has an own property of that
    name. *)
Theorem routeComp_params (routeSplit pathSplit : list string)
    (res : gmap string string) :
  routeComp routeSplit pathSplit = Some res →
  (∀ name, res !! name = last_binding name routeSplit pathSplit)
  ∧ (∀ i rs v,
       routeSplit !! i = Some rs → is_param rs = true →
       slice1 rs ≠ "__proto__" → pathSplit !! i = Some v →
       (∀ j rs', i < j → routeSplit !! j = Some rs' → is_param rs' = true →
                 slice1 rs' ≠ slice1 rs) →
       res !! slice1 rs = Some v)
  ∧ (∀ name,
       (∀ rs, rs ∈ routeSplit → is_param rs = true → slice1 rs ≠ name) →
       res !! name = None)
  ∧ res !! "__proto__" = None.
Proof.
  unfold routeComp. destruct (decide _) as [Hl|]; [|done]. intros H.
  assert (∀ name, res !! name = last_binding name routeSplit pathSplit) as Hres.
  { intros name. rewrite (routeComp_from_lookup _ _ _ _ name H).
    by destruct (last_binding name routeSplit pathSplit). }
  split; [done|]. split; [|split].
  - intros i rs v Hr Hp Hproto Hv Hlater. rewrite Hres.
    by apply (last_binding_at _ _ _ i rs v).
  - intros name Hno. rewrite Hres. by apply last_binding_absent.
  - rewrite Hres. apply last_binding_proto.
Qed.

Lemma routeComp_params_witness :
  (∀ name, ({[ "name" := "World" ]} : gmap string string) !! name
           = last_binding name ["hello"; ":name"; ":__proto__"]
               ["hello"; "World"; "x"])
  ∧ (∀ i rs v,
       ["hello"; ":name"; ":__proto__"] !! i = Some rs → is_param rs = true →
       slice1 rs ≠ "__proto__" →
       ["hello"; "World"; "x"] !! i = Some v →
       (∀ j rs', i < j → ["hello"; ":name"; ":__proto__"] !! j = Some rs' →
                 is_param rs' = true → slice1 rs' ≠ slice1 rs) →
       ({[ "name" := "World" ]} : gmap string string) !! slice1 rs = Some v)
  ∧ (∀ name,
       (∀ rs, rs ∈ ["hello"; ":name"; ":__proto__"] → is_param rs = true →
              slice1 rs ≠ name) →
       ({[ "name" := "World" ]} : gmap string string) !! name = None)
  ∧ ({[ "name" := "World" ]} : gmap string string) !! "__proto__" = None.
Proof.
  apply (routeComp_params ["hello"; ":name"; ":__proto__"]
           ["hello"; "World"; "x"]).
  reflexivity.
Defined.

(** X18. The handler that [__createRoute(method, route, func)] builds, and
    so the one of [ServerRouter.get], [put], [post] and [del] (for a
    non-empty [method] and [route]; an empty one makes it throw), calls
    [func] exactly when the request has that method and the segments of the
    request path match the segments of the route; [func] then gets the
    context with [params] filled in, and the handler returns what [func]
    returns.  In every other case the handler returns [undefined] without
    calling [func], so that the next middleware or route is tried. *)
Theorem route_handler_dispatch {R : Type} (method route : string)
    (func : RequestContext → option R) (ctx : RequestContext) :
  method ≠ "" → route ≠ "" →
  ∃ handler,
    createRoute method route func = Some handler
    ∧ (ctx_method ctx = method →
       Forall2 seg_matches (splitPath route) (splitPath (ctx_path ctx)) →
       ∃ res,
         routeComp (splitPath route) (splitPath (ctx_path ctx)) = Some res
         ∧ handler ctx = func (mkCtx method (ctx_path ctx) (Some res)))
    ∧ (ctx_method ctx ≠ method
       ∨ ¬ Forall2 seg_matches (splitPath route) (splitPath (ctx_path ctx)) →
       handler ctx = None).
Proof.
  intros Hmethod Hroute. exists (routeHandler method route func). split.
  { unfold createRoute. destruct (decide _) as [[?|?]|]; done. }
  unfold routeHandler. split.
  - intros Hm Hmatch. apply routeComp_accepts in Hmatch as [res Hres].
    exists res. split; [done|]. rewrite Hres, Hm. by destruct (decide _).
  - intros Hno. destruct (decide (ctx_method ctx = method)) as [Hm|Hm]; [|done].
    destruct Hno as [?|Hno]; [done|].
    destruct (routeComp _ _) as [res|] eqn:Hres; [|done].
    exfalso. apply Hno. apply routeComp_accepts. by eexists.
Qed.

Lemma route_handler_dispatch_witness :
  ∃ handler,
    ServerRouter_get "/hello/:name"
      (λ ctx, ctx_params ctx ≫= λ ps, ps !! "name") = Some handler
    ∧ handler (mkCtx "GET" "/hello/World" None) = Some "World"
    ∧ handler (mkCtx "GET" "/hello" None) = None
    ∧ handler (mkCtx "PUT" "/hello/World" None) = None.
Proof.
  destruct (route_handler_dispatch "GET" "/hello/:name"
              (λ ctx, ctx_params ctx ≫= λ ps, ps !! "name")
              (mkCtx "GET" "/hello/World" None))
    as (handler & Hget & Hcall & _); [discriminate|discriminate|].
  exists handler. split; [done|].
  destruct Hcall as (res & Hres & Hh); [reflexivity|repeat constructor; by right|].
  vm_compute in Hres. injection Hres as <-.
  vm_compute in Hget. injection Hget as <-.
  repeat split; reflexivity.
Defined.
